(** * compoapp: the dependency-injection container

    A shallow embedding of [container.go] (package [compoapp]): registration
    of constructors ([Provide]), the resolution pipeline of [Resolve]
    (interface resolution, graph rebuild, dependency validation, Kahn's
    topological sort, instantiation) and the properties of the pipeline.

    The container mutates shared data: the [*constructorInfo] values are
    reachable both from the slice [constructors] and from the map
    [typesCtors].  The model keeps them in one store (the list
    [constructors]) and lets [typesCtors] hold positions in that store, so a
    write through one path is seen through the other.

    Go leaves the iteration order of [range] over a map unspecified.  Every
    such loop takes its order from a [Shuffle], an arbitrary rearrangement of
    the map's entries; the theorems hold for all of them. *)

From stdpp Require Import gmap strings list fin_maps fin_sets relations.
From Stdlib Require Import ZArith Lia.

(** ** The part of package [reflect] the container uses *)

Module reflect.

(** The kinds of package [reflect], in its order. *)
Inductive Kind :=
  | Invalid | Bool | Int | Int8 | Int16 | Int32 | Int64
  | Uint | Uint8 | Uint16 | Uint32 | Uint64 | Uintptr
  | Float32 | Float64 | Complex64 | Complex128
  | Array | Chan | Func | Interface | Map | Pointer | Slice
  | String | Struct | UnsafePointer.

End reflect.

#[global] Instance reflect_Kind_eq_dec : EqDecision reflect.Kind.
Proof. solve_decision. Defined.

(** [reflect.Type] is an interface of the Go runtime; the container only
    calls [Kind], [Implements] and [AssignableTo] on it, and
    [reflect.PointerTo].  [implements t u] is the method-set test behind
    [t.Implements(u)] for an interface type [u]; [Implements] below adds the
    run-time panic of the real method.  The laws are facts of the Go type
    system: identical types are assignable, a type is assignable to an
    interface it implements, and a pointer to a pointer has no methods, so it
    implements nothing its element does not. *)
Class Reflect (rtype : Type) `{Countable rtype} := {
  Kind : rtype → reflect.Kind;
  implements : rtype → rtype → bool;
  PointerTo : rtype → rtype;
  AssignableTo : rtype → rtype → bool;
  errorType : rtype;
  errorType_interface : Kind errorType = reflect.Interface;
  AssignableTo_refl t : AssignableTo t t = true;
  AssignableTo_implements t u :
    Kind u = reflect.Interface → implements t u = true → AssignableTo t u = true;
  implements_pointer_pointer t u :
    Kind t = reflect.Pointer → implements (PointerTo t) u = true →
    implements t u = true
}.

(** Map iteration order: any rearrangement of the entries. *)
Record Shuffle := {
  shuffle : ∀ A : Type, list A → list A;
  shuffle_perm : ∀ (A : Type) (l : list A), shuffle A l ≡ₚ l
}.
Arguments shuffle _ {A} _.

(** The four [range]-over-map loops of [Resolve]. *)
Record Ranges := {
  range_typesCtors : Shuffle;      (* rebuildGraph *)
  range_requiredTypes : Shuffle;   (* validateDependencies *)
  range_dependencies : Shuffle;    (* topologicalSort, in-degrees *)
  range_inDegree : Shuffle         (* topologicalSort, initial queue *)
}.

Section Model.
Context {rtype : Type} `{Reflect rtype}.
(** [W] is the state of the program outside the container: whatever the
    constructor functions read and write. *)
Context {W : Type}.

(** A resolved instance: the [any] kept in [instances].  It is the first
    result of a constructor, a pointer, with its dynamic type. *)
Record value := { val_type : rtype; val_ptr : nat }.

(** A Go function value as [reflect] sees it: its type ([In], [Out]),
    whether it is the nil function of that type, and what a call does.  The
    body gets the arguments and the outside state and gives the pointer it
    returns, its second result (when it has one; [None] is [nil], [Some msg]
    a value whose [Error] method returns [msg]) and the new outside state.
    The body of a nil function is never run. *)
Record Function := {
  fn_name : string;
  fn_in : list rtype;
  fn_out : list rtype;
  fn_nil : bool;
  fn_body : list value → W → nat * option string * W
}.

(** What [Provide] may be handed in its [any] parameter. *)
Inductive any := AFunc (f : Function) | ANotFunc.

Record fnSignature := { args : list rtype; returnType : rtype }.

Record constructorInfo := {
  fn : Function;
  name : string;
  signature : fnSignature;
  dependNeedsResolution : list bool
}.

Record dependencyGraph := {
  dependencies : gmap rtype (list rtype);
  dependents : gmap rtype (list rtype)
}.

(** [typesCtors] holds positions in [constructors] (the pointers).  The mutex
    and the debug flag have no part in what the functions compute. *)
Record Container := {
  constructors : list constructorInfo;
  instances : gmap rtype value;
  typeRegistry : list rtype;
  graph : dependencyGraph;
  typesCtors : gmap rtype nat
}.

(** The errors of the package, one constructor per [fmt.Errorf]; a [%w]
    argument is the wrapped error. *)
Inductive error :=
  | ErrNotFunction
  | ErrAnalyze (e : error)
  | ErrReturnCount
  | ErrNotPointer
  | ErrSecondNotError
  | ErrTarget
  | ErrInterfaceResolution (e : error)
  | ErrNoImplementation (interfaceType : rtype)
  | ErrMultipleImplementations (interfaceType : rtype) (implementations : list rtype)
  | ErrMissingConstructor (depType : rtype)
  | ErrDependencyResolution (e : error)
  | ErrCircular (processed total : nat)
  | ErrFailedToResolve (typ : rtype) (e : error)
  | ErrNoConstructor (typ : rtype)
  | ErrDependencyNotResolved (depType typ : rtype)
  | ErrNotAssignable (instanceType targetType : rtype)
  | ErrNoInstance (targetType : rtype)
  | ErrConstructor (msg : string).

(** How a call ends: a value, a returned [error], a run-time panic, or (for
    the one unbounded loop) no end within the steps allowed. *)
Inductive result (A : Type) :=
  | Ok (a : A)
  | Err (e : error)
  | Panic
  | Diverge.
Arguments Ok {A} a.
Arguments Err {A} e.
Arguments Panic {A}.
Arguments Diverge {A}.

Definition result_bind {A B} (r : result A) (f : A → result B) : result B :=
  match r with
  | Ok a => f a
  | Err e => Err e
  | Panic => Panic
  | Diverge => Diverge
  end.

(** One call of a constructor through [reflect.Value.Call]. *)
Record Invocation := {
  inv_ctor : nat;              (* which constructorInfo *)
  inv_args : list value;
  inv_ptr : nat;               (* first result *)
  inv_err : option string      (* second result *)
}.

Record State := {
  container : Container;
  world : W;
  calls : list Invocation
}.

(** ** A state and error monad for the methods of [*Container] *)

Definition M (A : Type) : Type := State → State * result A.

Definition ret {A} (a : A) : M A := λ st, (st, Ok a).

Definition bind {A B} (m : M A) (f : A → M B) : M B := λ st,
  match m st with
  | (st', Ok a) => f a st'
  | (st', Err e) => (st', Err e)
  | (st', Panic) => (st', Panic)
  | (st', Diverge) => (st', Diverge)
  end.

Definition lift {A} (r : result A) : M A := λ st, (st, r).

Definition raise {A} (e : error) : M A := lift (Err e).

(** [fmt.Errorf("...: %w", err)] on the error path. *)
Definition wrap {A} (f : error → error) (m : M A) : M A := λ st,
  match m st with
  | (st', Err e) => (st', Err (f e))
  | other => other
  end.

Definition getContainer : M Container := λ st, (st, Ok (container st)).

Definition setContainer (c : Container) (st : State) : State :=
  {| container := c; world := world st; calls := calls st |}.

(** A method that touches the container only. *)
Definition onContainer {A} (f : Container → Container * result A) : M A := λ st,
  let '(c, r) := f (container st) in (setContainer c st, r).

#[global] Instance M_ret : MRet M := @ret.
#[global] Instance M_bind : MBind M := λ A B f m, bind m f.

(** [for _, x := range l { if err := body(x); err != nil { return err } }] *)
Fixpoint forEach {A} (l : list A) (body : A → M unit) : M unit :=
  match l with
  | [] => mret tt
  | x :: l' => body x ;; forEach l' body
  end.

(** ** Registration *)

(** [t.Implements(u)]: the run-time panics when [u] is not an interface
    type ("reflect: non-interface type passed to Type.Implements"). *)
Definition Implements (t u : rtype) : result bool :=
  if decide (Kind u = reflect.Interface) then Ok (implements t u) else Panic.

(** [analyzeFunction]: the inputs in declaration order and the first output;
    one or two outputs, the first a pointer, the second an [error]. *)
Definition analyzeFunction (fnType : Function) : result fnSignature :=
  let args := fn_in fnType in
  let numOut := length (fn_out fnType) in
  if decide (numOut = 0 ∨ 2 < numOut) then Err ErrReturnCount else
  match fn_out fnType !! 0 with
  | None => Panic
  | Some firstOut =>
    if decide (Kind firstOut ≠ reflect.Pointer) then Err ErrNotPointer else
    if decide (numOut = 2) then
      match fn_out fnType !! 1 with
      | None => Panic
      | Some secondOut =>
        result_bind (Implements secondOut errorType) (λ isError,
          if negb isError then Err ErrSecondNotError
          else Ok {| args := args; returnType := firstOut |})
      end
    else Ok {| args := args; returnType := firstOut |}
  end.

(** [Provide]: appends to [constructors] and [typeRegistry], and points
    [typesCtors] at the new constructor (overwriting an older entry of the
    same return type). *)
Definition Provide (constructor : any) (c : Container) : Container * result unit :=
  match constructor with
  | ANotFunc => (c, Err ErrNotFunction)
  | AFunc f =>
    match analyzeFunction f with
    | Err e => (c, Err (ErrAnalyze e))
    | Panic => (c, Panic)
    | Diverge => (c, Diverge)
    | Ok signature =>
      let dependNeedsResolution :=
        (λ arg, bool_decide (Kind arg = reflect.Interface)) <$> args signature in
      let cinfo := {| fn := f; name := fn_name f; signature := signature;
                      dependNeedsResolution := dependNeedsResolution |} in
      ({| constructors := constructors c ++ [cinfo];
          instances := instances c;
          typeRegistry := typeRegistry c ++ [returnType signature];
          graph := graph c;
          typesCtors := <[returnType signature := length (constructors c)]> (typesCtors c) |},
       Ok tt)
    end
  end.

Definition NewContainer : Container :=
  {| constructors := []; instances := ∅; typeRegistry := [];
     graph := {| dependencies := ∅; dependents := ∅ |}; typesCtors := ∅ |}.

(** ** Interface resolution *)

(** [findImplementations]: the registered types that implement the
    interface, themselves or through a pointer to them, in registry order
    and as often as they are registered. *)
Fixpoint findImplementations (registry : list rtype) (interfaceType : rtype)
    : result (list rtype) :=
  match registry with
  | [] => Ok []
  | typ :: registry' =>
    if decide (Kind typ = reflect.Interface)
    then findImplementations registry' interfaceType
    else
      result_bind (Implements typ interfaceType) (λ direct,
        if direct
        then result_bind (findImplementations registry' interfaceType)
               (λ implementations, Ok (typ :: implementations))
        else
          result_bind (Implements (PointerTo typ) interfaceType) (λ viaPointer,
            result_bind (findImplementations registry' interfaceType)
              (λ implementations,
                 Ok (if viaPointer then typ :: implementations else implementations))))
  end.

(** The inner loop of [resolveInterfaces] over one constructor: [i] runs over
    [dependNeedsResolution], and [signature.args[i]] is written in place, so
    the slots rewritten before an error stay rewritten. *)
Fixpoint resolveArgs (registry : list rtype) (flags : list bool) (i : nat)
    (args : list rtype) : list rtype * result unit :=
  match flags with
  | [] => (args, Ok tt)
  | needsResolution :: flags' =>
    if negb needsResolution then resolveArgs registry flags' (S i) args else
    match args !! i with
    | None => (args, Panic)
    | Some interfaceType =>
      match findImplementations registry interfaceType with
      | Ok [] => (args, Err (ErrNoImplementation interfaceType))
      | Ok [implementation] =>
        resolveArgs registry flags' (S i) (<[i := implementation]> args)
      | Ok implementations =>
        (args, Err (ErrMultipleImplementations interfaceType implementations))
      | Err e => (args, Err e)
      | Panic => (args, Panic)
      | Diverge => (args, Diverge)
      end
    end
  end.

Definition setArgs (ctorInfo : constructorInfo) (args' : list rtype) : constructorInfo :=
  {| fn := fn ctorInfo; name := name ctorInfo;
     signature := {| args := args'; returnType := returnType (signature ctorInfo) |};
     dependNeedsResolution := dependNeedsResolution ctorInfo |}.

(** The outer loop, over [c.constructors] in registration order. *)
Fixpoint resolveCtors (registry : list rtype) (ctors : list constructorInfo)
    : list constructorInfo * result unit :=
  match ctors with
  | [] => ([], Ok tt)
  | ctorInfo :: ctors' =>
    let '(args', r) :=
      resolveArgs registry (dependNeedsResolution ctorInfo) 0 (args (signature ctorInfo)) in
    match r with
    | Ok _ =>
      let '(ctors'', r') := resolveCtors registry ctors' in
      (setArgs ctorInfo args' :: ctors'', r')
    | _ => (setArgs ctorInfo args' :: ctors', r)
    end
  end.

Definition setConstructors (c : Container) (ctors : list constructorInfo) : Container :=
  {| constructors := ctors; instances := instances c; typeRegistry := typeRegistry c;
     graph := graph c; typesCtors := typesCtors c |}.

Definition resolveInterfaces (c : Container) : Container * result unit :=
  let '(ctors, r) := resolveCtors (typeRegistry c) (constructors c) in
  (setConstructors c ctors, r).

(** ** The dependency graph *)

(** [c.graph.dependents[dep] = append(c.graph.dependents[dep], typ)] for
    every [dep] of the argument list. *)
Definition addDependents (typ : rtype) (deps : list rtype)
    (dependents : gmap rtype (list rtype)) : gmap rtype (list rtype) :=
  foldl (λ m dep, <[dep := default [] (m !! dep) ++ [typ]]> m) dependents deps.

(** The loop of [rebuildGraph] over the entries of [typesCtors]; reading
    through a pointer that is not in the store would be a nil dereference. *)
Fixpoint rebuildLoop (ctors : list constructorInfo) (entries : list (rtype * nat))
    (g : dependencyGraph) : dependencyGraph * result unit :=
  match entries with
  | [] => (g, Ok tt)
  | (typ, k) :: entries' =>
    match ctors !! k with
    | None => (g, Panic)
    | Some ctor =>
      rebuildLoop ctors entries'
        {| dependencies := <[typ := args (signature ctor)]> (dependencies g);
           dependents := addDependents typ (args (signature ctor)) (dependents g) |}
    end
  end.

Definition setGraph (c : Container) (g : dependencyGraph) : Container :=
  {| constructors := constructors c; instances := instances c;
     typeRegistry := typeRegistry c; graph := g; typesCtors := typesCtors c |}.

Definition rebuildGraph (ρ : Ranges) (c : Container) : Container * result unit :=
  let '(g, r) :=
    rebuildLoop (constructors c)
      (shuffle (range_typesCtors ρ) (map_to_list (typesCtors c)))
      {| dependencies := ∅; dependents := ∅ |} in
  (setGraph c g, r).

(** ** Validation *)

(** The set [requiredTypes] of [validateDependencies]: every argument type of
    every constructor in [c.constructors]. *)
Definition requiredTypes (ctors : list constructorInfo) : gset rtype :=
  foldl (λ required ctor,
           foldl (λ required depType, {[depType]} ∪ required) required
                 (args (signature ctor)))
        ∅ ctors.

Fixpoint checkRequired (typesCtors : gmap rtype nat) (required : list rtype)
    : result unit :=
  match required with
  | [] => Ok tt
  | depType :: required' =>
    match typesCtors !! depType with
    | None => Err (ErrMissingConstructor depType)
    | Some _ => checkRequired typesCtors required'
    end
  end.

Definition validateDependencies (ρ : Ranges) (c : Container) : Container * result unit :=
  (c, checkRequired (typesCtors c)
        (shuffle (range_requiredTypes ρ) (elements (requiredTypes (constructors c))))).

(** ** Topological sort (Kahn's algorithm) *)

(** [c.graph.dependencies[typ]] and [c.graph.dependents[typ]]: a missing
    key reads as the nil slice. *)
Definition depsOf (g : dependencyGraph) (typ : rtype) : list rtype :=
  default [] (dependencies g !! typ).

Definition dependentsOf (g : dependencyGraph) (typ : rtype) : list rtype :=
  default [] (dependents g !! typ).

(** [inDegree[typ]]: a missing key reads as 0. *)
Definition degree (inDegree : gmap rtype Z) (typ : rtype) : Z :=
  default 0%Z (inDegree !! typ).

Definition initInDegree (ρ : Ranges) (c : Container) : gmap rtype Z :=
  let zeroed := foldl (λ inDegree typ, <[typ := 0%Z]> inDegree) ∅ (typeRegistry c) in
  foldl (λ inDegree typ, <[typ := Z.of_nat (length (depsOf (graph c) typ))]> inDegree)
        zeroed
        (shuffle (range_dependencies ρ) (map_to_list (dependencies (graph c)))).*1.

Definition initQueue (ρ : Ranges) (inDegree : gmap rtype Z) : list rtype :=
  (filter (λ entry, entry.2 = 0%Z)
          (shuffle (range_inDegree ρ) (map_to_list inDegree))).*1.

(** The loop over the dependents of the node taken from the queue. *)
Fixpoint relax (dependentsOfCurrent : list rtype) (inDegree : gmap rtype Z)
    (queue : list rtype) : gmap rtype Z * list rtype :=
  match dependentsOfCurrent with
  | [] => (inDegree, queue)
  | dependent :: rest =>
    let d := (degree inDegree dependent - 1)%Z in
    relax rest (<[dependent := d]> inDegree)
          (if decide (d = 0%Z) then queue ++ [dependent] else queue)
  end.

(** [for len(queue) > 0 { ... }], at most [steps] rounds. *)
Fixpoint processQueue (steps : nat) (g : dependencyGraph) (inDegree : gmap rtype Z)
    (queue result : list rtype) : option (list rtype) :=
  match queue with
  | [] => Some result
  | current :: queue' =>
    match steps with
    | 0 => None
    | S steps' =>
      let '(inDegree', queue'') := relax (dependentsOf g current) inDegree queue' in
      processQueue steps' g inDegree' queue'' (result ++ [current])
    end
  end.

(** The loop ends within as many rounds as [inDegree] has keys
    ([topologicalSort_total] below), so that is what the model allows. *)
Definition topologicalSort (ρ : Ranges) (c : Container) : Container * result (list rtype) :=
  let inDegree := initInDegree ρ c in
  match processQueue (size inDegree) (graph c) inDegree (initQueue ρ inDegree) [] with
  | None => (c, Diverge)
  | Some result =>
    let typesWithConstructors := size (typesCtors c) in
    if decide (length result ≠ typesWithConstructors)
    then (c, Err (ErrCircular (length result) typesWithConstructors))
    else (c, Ok result)
  end.

(** ** Instantiation *)

(** The argument loop of [resolveInstance]: [ctor.signature.args[i]] for
    [i] below [NumIn], each looked up in [c.instances]. *)
Fixpoint gatherArgs (typ : rtype) (ctor : constructorInfo) (instances : gmap rtype value)
    (indices : list nat) : result (list value) :=
  match indices with
  | [] => Ok []
  | i :: indices' =>
    match args (signature ctor) !! i with
    | None => Panic
    | Some depType =>
      match instances !! depType with
      | None => Err (ErrDependencyNotResolved depType typ)
      | Some depInstance =>
        result_bind (gatherArgs typ ctor instances indices')
                    (λ rest, Ok (depInstance :: rest))
      end
    end
  end.

(** [constructorValue.Call(args)]: panics for a nil function, and unless
    every argument is assignable to its parameter; otherwise runs the
    function, which is recorded in [calls].  (A constructor that itself
    panics or never returns is outside the model.) *)
Definition Call (k : nat) (f : Function) (args : list value) : M (nat * option string) :=
  λ st,
  if fn_nil f then (st, Panic) else
  if bool_decide (Forall2 (λ v t, AssignableTo (val_type v) t = true) args (fn_in f))
  then
    let '(ptr, err, w) := fn_body f args (world st) in
    ({| container := container st; world := w;
        calls := calls st ++ [{| inv_ctor := k; inv_args := args;
                                 inv_ptr := ptr; inv_err := err |}] |},
     Ok (ptr, err))
  else (st, Panic).

(** The kinds [Value.IsNil] has a case for. *)
Definition hasNil (k : reflect.Kind) : bool :=
  match k with
  | reflect.Chan | reflect.Func | reflect.Map | reflect.Pointer
  | reflect.UnsafePointer | reflect.Interface | reflect.Slice => true
  | _ => false
  end.

(** [v.IsNil()] for a value [v] of type [t]: the run-time panics for a kind
    that has no nil ("reflect: call of reflect.Value.IsNil on ... Value"). *)
Definition IsNil (t : rtype) (v : option string) : result bool :=
  if hasNil (Kind t) then Ok (bool_decide (v = None)) else Panic.

(** The error a call returned: looked at only when there is more than one
    result, the last of them of a type that implements [error], and then
    tested with [IsNil]. *)
Definition returnedError (f : Function) (err : option string) : result (option string) :=
  if decide (1 < length (fn_out f)) then
    match last (fn_out f) with
    | None => Panic
    | Some lastType =>
      result_bind (Implements lastType errorType) (λ isError,
        if isError then
          result_bind (IsNil lastType err) (λ isNil, Ok (if isNil then None else err))
        else Ok None)
    end
  else Ok None.

Definition setInstance (typ : rtype) (v : value) (c : Container) : Container :=
  {| constructors := constructors c; instances := <[typ := v]> (instances c);
     typeRegistry := typeRegistry c; graph := graph c; typesCtors := typesCtors c |}.

(** [c.instances[typ] = results[0].Interface()], when there is a result. *)
Definition storeInstance (typ : rtype) (f : Function) (ptr : nat) : M unit := λ st,
  match fn_out f !! 0 with
  | None => (st, Ok tt)
  | Some firstOut =>
    (setContainer (setInstance typ {| val_type := firstOut; val_ptr := ptr |} (container st)) st,
     Ok tt)
  end.

Definition resolveInstance (typ : rtype) : M unit :=
  c ← getContainer;
  match typesCtors c !! typ with
  | None => raise (ErrNoConstructor typ)
  | Some k =>
    match constructors c !! k with
    | None => lift Panic
    | Some ctor =>
      args ← lift (gatherArgs typ ctor (instances c) (seq 0 (length (fn_in (fn ctor)))));
      results ← Call k (fn ctor) args;
      failure ← lift (returnedError (fn ctor) results.2);
      match failure with
      | Some msg => raise (ErrConstructor msg)
      | None => storeInstance typ (fn ctor) results.1
      end
    end
  end.

(** ** Resolve *)

(** Step 3 of [Resolve]: the loop over the sorted types. *)
Definition resolveAll (sortedTypes : list rtype) : M unit :=
  forEach sortedTypes (λ name, wrap (ErrFailedToResolve name) (resolveInstance name)).

(** Step 4 of [Resolve]: the instance of the target type, which [Resolve]
    writes through the target pointer. *)
Definition setTarget (targetType : rtype) : M value :=
  c ← getContainer;
  match instances c !! targetType with
  | Some instance =>
    if AssignableTo (val_type instance) targetType
    then mret instance
    else raise (ErrNotAssignable (val_type instance) targetType)
  | None => raise (ErrNoInstance targetType)
  end.

(** [target] is [Some t] for a non-nil pointer to a variable of type [t],
    [None] for anything else. *)
Definition Resolve (ρ : Ranges) (target : option rtype) : M value :=
  match target with
  | None => raise ErrTarget
  | Some targetType =>
    (* Step 1: Resolve interfaces to implementations *)
    wrap ErrInterfaceResolution (onContainer resolveInterfaces);;
    onContainer (rebuildGraph ρ);;
    onContainer (validateDependencies ρ);;
    (* Step 2: Build dependency graph and sort *)
    sortedTypes ← wrap ErrDependencyResolution (onContainer (topologicalSort ρ));
    (* Step 3: Resolve all dependencies in order *)
    resolveAll sortedTypes;;
    (* Step 4: Set the target value *)
    setTarget targetType
  end.

(** [MustProvide] and [MustResolve]: the error becomes a panic. *)
Definition MustProvide (constructor : any) (c : Container) : Container * result unit :=
  match Provide constructor c with
  | (c', Err _) => (c', Panic)
  | other => other
  end.

Definition MustResolve (ρ : Ranges) (target : option rtype) : M value := λ st,
  match Resolve ρ target st with
  | (st', Err _) => (st', Panic)
  | other => other
  end.

(** * Properties *)

(** ** Counting occurrences *)

Definition occurrences (x : rtype) (l : list rtype) : nat :=
  length (filter (λ y, y = x) l).

Lemma occurrences_nil x : occurrences x [] = 0.
Proof. done. Qed.

Lemma occurrences_cons x y l :
  occurrences x (y :: l) = (if decide (y = x) then 1 else 0) + occurrences x l.
Proof. unfold occurrences. rewrite filter_cons. by case_decide. Qed.

Lemma occurrences_app x l1 l2 :
  occurrences x (l1 ++ l2) = occurrences x l1 + occurrences x l2.
Proof. unfold occurrences. by rewrite filter_app, length_app. Qed.

Lemma occurrences_replicate x y n :
  occurrences x (replicate n y) = if decide (y = x) then n else 0.
Proof.
  induction n as [|n IH]; simpl.
  - by case_decide.
  - rewrite occurrences_cons, IH. by case_decide.
Qed.

Lemma occurrences_pos x l : 0 < occurrences x l ↔ x ∈ l.
Proof.
  induction l as [|y l IH].
  - rewrite occurrences_nil. split; [lia|by intros ?%elem_of_nil].
  - rewrite occurrences_cons, elem_of_cons. case_decide; subst.
    + split; [by left|lia].
    + rewrite <- IH. split; [intros; right; lia|intros [?|?]; [congruence|lia]].
Qed.

(** Appending a node that is not there yet removes its occurrences from what
    is still missing. *)
Lemma filter_missing_snoc (done : list rtype) (current : rtype) (l : list rtype) :
  current ∉ done →
  length (filter (λ x, x ∉ done ++ [current]) l) + occurrences current l
  = length (filter (λ x, x ∉ done) l).
Proof.
  intros Hnew. induction l as [|y l IH]; [done|].
  rewrite !filter_cons, occurrences_cons.
  destruct (decide (y = current)) as [->|Hne].
  - rewrite decide_False
      by (intros Hn; apply Hn, elem_of_app; right; apply list_elem_of_singleton; done).
    rewrite decide_True by done. simpl. lia.
  - destruct (decide (y ∈ done)) as [Hin|Hout].
    + rewrite decide_False by (intros Hn; apply Hn, elem_of_app; by left).
      rewrite decide_False by (intros Hn; by apply Hn). simpl. lia.
    + rewrite decide_True
        by (rewrite elem_of_app, list_elem_of_singleton; intros [?|?]; done).
      rewrite decide_True by done. simpl. lia.
Qed.

(** ** The inner loop of Kahn's algorithm *)

Lemma degree_insert inDegree typ (d : Z) t :
  degree (<[typ := d]> inDegree) t = if decide (typ = t) then d else degree inDegree t.
Proof.
  unfold degree. case_decide; subst.
  - by rewrite lookup_insert_eq.
  - by rewrite lookup_insert_ne.
Qed.

Lemma relax_degree ds : ∀ inDegree queue t,
  degree (relax ds inDegree queue).1 t
  = (degree inDegree t - Z.of_nat (occurrences t ds))%Z.
Proof.
  induction ds as [|d ds IH]; intros inDegree queue t; simpl.
  - rewrite occurrences_nil. lia.
  - rewrite IH, degree_insert, occurrences_cons. case_decide; subst; lia.
Qed.

Lemma relax_queue ds : ∀ inDegree queue, ∃ new,
  (relax ds inDegree queue).2 = queue ++ new ∧ NoDup new ∧
  ∀ t, t ∈ new ↔ (1 ≤ degree inDegree t ≤ Z.of_nat (occurrences t ds))%Z.
Proof.
  induction ds as [|d ds IH]; intros inDegree queue; simpl.
  - exists []. rewrite app_nil_r. split_and!; [done|constructor|].
    intros t. rewrite occurrences_nil. split; [by intros ?%elem_of_nil|lia].
  - set (v := (degree inDegree d - 1)%Z).
    destruct (IH (<[d := v]> inDegree)
                 (if decide (v = 0%Z) then queue ++ [d] else queue))
      as (new & -> & Hnd & Hnew).
    exists ((if decide (v = 0%Z) then [d] else []) ++ new). split_and!.
    + case_decide; by rewrite <- ?app_assoc.
    + case_decide; [|done]. simpl. constructor; [|done].
      rewrite Hnew, degree_insert, decide_True by done. lia.
    + intros t. rewrite elem_of_app, Hnew, degree_insert, occurrences_cons.
      assert (Hv : v = (degree inDegree d - 1)%Z) by done. clearbody v.
      destruct (decide (d = t)) as [->|Hne];
        (destruct (decide (v = 0%Z));
         [rewrite list_elem_of_singleton|rewrite elem_of_nil]);
        intuition (try congruence; try lia).
Qed.

(** ** The outer loop ends *)

(** The keys still waiting for a dependency. *)
Definition positives (inDegree : gmap rtype Z) : nat :=
  size (filter (λ entry : rtype * Z, (1 ≤ entry.2)%Z) inDegree).

Lemma positives_insert inDegree d (v : Z) :
  positives (<[d := v]> inDegree) + (if decide (1 ≤ degree inDegree d)%Z then 1 else 0)
  = positives inDegree + (if decide (1 ≤ v)%Z then 1 else 0).
Proof.
  unfold positives, degree. rewrite map_filter_insert. simpl.
  destruct (decide (1 ≤ v)%Z) as [Hv|Hv].
  - rewrite map_size_insert, map_lookup_filter.
    destruct (inDegree !! d) as [x|]; simpl; [|lia].
    destruct (decide (1 ≤ x)%Z);
      [rewrite option_guard_True by done|rewrite option_guard_False by done];
      simpl; lia.
  - rewrite map_filter_delete, map_size_delete, map_lookup_filter.
    destruct (inDegree !! d) as [x|] eqn:Hd; simpl; [|try case_decide; lia].
    destruct (decide (1 ≤ x)%Z);
      [rewrite option_guard_True by done|rewrite option_guard_False by done];
      simpl; [|lia].
    assert (filter (λ entry : rtype * Z, (1 ≤ entry.2)%Z) inDegree !! d = Some x)
      as Hsome by (by apply map_lookup_filter_Some).
    apply mk_is_Some, map_size_ne_0_lookup_2 in Hsome. lia.
Qed.

Lemma relax_measure ds : ∀ inDegree queue,
  length (relax ds inDegree queue).2 + positives (relax ds inDegree queue).1
  = length queue + positives inDegree.
Proof.
  induction ds as [|d ds IH]; intros inDegree queue; simpl; [done|].
  rewrite IH.
  pose proof (positives_insert inDegree d (degree inDegree d - 1)) as Hp.
  repeat case_decide; rewrite ?length_app; simpl; lia.
Qed.

Lemma processQueue_total g steps : ∀ inDegree queue result,
  length queue + positives inDegree ≤ steps →
  is_Some (processQueue steps g inDegree queue result).
Proof.
  induction steps as [|steps IH]; intros inDegree [|current queue] result Hle;
    simpl in *; try by eexists. { lia. }
  destruct (relax _ inDegree queue) as [inDegree' queue'] eqn:Hrelax.
  apply IH. pose proof (relax_measure (dependentsOf g current) inDegree queue) as Hm.
  rewrite Hrelax in Hm. simpl in Hm. lia.
Qed.

Lemma size_filter_map_to_list (P : rtype * Z → Prop) `{∀ e, Decision (P e)}
    (m : gmap rtype Z) :
  size (filter P m) = length (filter P (map_to_list m)).
Proof.
  rewrite <- length_map_to_list. apply Permutation_length, NoDup_Permutation.
  - apply NoDup_map_to_list.
  - apply NoDup_filter, NoDup_map_to_list.
  - intros [t v]. rewrite list_elem_of_filter, !elem_of_map_to_list, map_lookup_filter_Some.
    tauto.
Qed.

Lemma length_filter_disjoint {A} (P Q : A → Prop)
    `{∀ x, Decision (P x)} `{∀ x, Decision (Q x)} (l : list A) :
  (∀ x, P x → Q x → False) →
  length (filter P l) + length (filter Q l) ≤ length l.
Proof.
  intros Hdisj. induction l as [|x l IH]; [done|].
  rewrite !filter_cons. repeat case_decide; simpl; try lia.
  exfalso; eauto.
Qed.

Lemma initQueue_measure ρ (inDegree : gmap rtype Z) :
  length (initQueue ρ inDegree) + positives inDegree ≤ size inDegree.
Proof.
  unfold initQueue, positives. rewrite length_fmap, size_filter_map_to_list.
  rewrite (shuffle_perm (range_inDegree ρ)), <- length_map_to_list.
  apply length_filter_disjoint. intros [t v]; simpl. lia.
Qed.

(** The sort never runs out of rounds: it returns a list or an error. *)
Lemma topologicalSort_total ρ c : (topologicalSort ρ c).2 ≠ Diverge.
Proof.
  unfold topologicalSort.
  destruct (processQueue_total (graph c) (size (initInDegree ρ c)) (initInDegree ρ c)
              (initQueue ρ (initInDegree ρ c)) []) as [sorted ->].
  { apply initQueue_measure. }
  by case_decide.
Qed.

(** ** What the sort computes *)

(** A list respects the dependencies when every node comes after all the
    nodes it depends on. *)
Definition respects (deps : rtype → list rtype) (l : list rtype) : Prop :=
  ∀ l1 t l2, l = l1 ++ t :: l2 → ∀ x, x ∈ deps t → x ∈ l1.

Lemma respects_nil deps : respects deps [].
Proof. intros l1 t l2 Heq. by destruct l1. Qed.

Lemma respects_snoc deps l t :
  respects deps l → (∀ x, x ∈ deps t → x ∈ l) → respects deps (l ++ [t]).
Proof.
  intros Hl Ht l1 t' l2 Heq x Hx.
  destruct l2 as [|y l2 _] using rev_ind.
  - apply (app_inj_tail l l1 t t') in Heq as [-> ->]. auto.
  - rewrite app_comm_cons, app_assoc in Heq.
    apply app_inj_tail in Heq as [-> _]. by eapply Hl.
Qed.

Lemma filter_missing_nil (l : list rtype) : filter (λ x, x ∉ []) l = l.
Proof.
  induction l as [|y l IH]; [done|].
  rewrite filter_cons, decide_True, IH; [done|by intros ?%elem_of_nil].
Qed.

Lemma filter_missing_empty (done l : list rtype) :
  length (filter (λ x, x ∉ done) l) = 0 ↔ ∀ x, x ∈ l → x ∈ done.
Proof.
  rewrite length_zero_iff_nil. split.
  - intros Hnil x Hx. destruct (decide (x ∈ done)) as [|Hout]; [done|].
    assert (x ∈ filter (λ x, x ∉ done) l) as Hin by (by apply list_elem_of_filter).
    rewrite Hnil in Hin. by apply elem_of_nil in Hin.
  - intros Hall. induction l as [|y l IH]; [done|].
    rewrite filter_cons, decide_False.
    + apply IH. intros x Hx. apply Hall. by right.
    + intros Hn. apply Hn, Hall. by left.
Qed.

Section Kahn.
Variable g : dependencyGraph.
Variable N : gset rtype.
(** [dependents] is the inverse of [dependencies], occurrence by occurrence. *)
Hypothesis graph_inverse :
  ∀ x t, occurrences t (dependentsOf g x) = occurrences x (depsOf g t).
Hypothesis graph_nodes : ∀ t, depsOf g t ≠ [] → t ∈ N.

(** The invariant of the outer loop: nothing is queued twice, [inDegree]
    counts the dependencies not yet in [result], and the nodes queued so far
    are the nodes of [N] whose count is zero. *)
Record kahn_inv (inDegree : gmap rtype Z) (queue result : list rtype) : Prop := {
  inv_NoDup : NoDup (result ++ queue);
  inv_degree : ∀ t,
    degree inDegree t = Z.of_nat (length (filter (λ x, x ∉ result) (depsOf g t)));
  inv_members : ∀ t, t ∈ result ++ queue ↔ t ∈ N ∧ degree inDegree t = 0%Z;
  inv_respects : respects (depsOf g) result
}.

Lemma kahn_inv_step inDegree current queue result inDegree' queue' :
  kahn_inv inDegree (current :: queue) result →
  relax (dependentsOf g current) inDegree queue = (inDegree', queue') →
  kahn_inv inDegree' queue' (result ++ [current]).
Proof.
  intros [Hnd Hdeg Hmem Hresp] Hrelax.
  pose proof (relax_degree (dependentsOf g current) inDegree queue) as Hdeg'.
  destruct (relax_queue (dependentsOf g current) inDegree queue) as (new & Hq & Hnew & Hin).
  rewrite Hrelax in Hdeg', Hq. simpl in Hdeg', Hq. subst queue'.
  assert (current ∉ result) as Hfresh.
  { apply NoDup_app in Hnd as (_ & Hdisj & _). intros Hc.
    apply (Hdisj _ Hc). by left. }
  assert (∀ t, degree inDegree' t
               = Z.of_nat (length (filter (λ x, x ∉ result ++ [current]) (depsOf g t))))
    as Hdeg''.
  { intros t. rewrite Hdeg', Hdeg, graph_inverse.
    pose proof (filter_missing_snoc result current (depsOf g t) Hfresh). lia. }
  assert (∀ t, t ∈ new ↔
               (1 ≤ degree inDegree t)%Z ∧ degree inDegree' t = 0%Z) as Hin'.
  { intros t. rewrite Hin. pose proof (Hdeg'' t) as Ht. rewrite Hdeg' in Ht |- *. lia. }
  split.
  - replace ((result ++ [current]) ++ queue ++ new)
      with ((result ++ current :: queue) ++ new)
      by (by rewrite <- !app_assoc).
    apply NoDup_app. split_and!; [done| |done].
    intros t Ht. rewrite Hin'. apply Hmem in Ht as [_ Ht]. lia.
  - done.
  - intros t.
    replace ((result ++ [current]) ++ queue ++ new)
      with ((result ++ current :: queue) ++ new)
      by (by rewrite <- !app_assoc).
    rewrite elem_of_app, Hmem, Hin'. split.
    + intros [[HN Hz]|[Hpos Hz]].
      * split; [done|]. pose proof (Hdeg'' t). rewrite Hdeg' in *. lia.
      * split; [|done]. apply graph_nodes. intros Hnil.
        rewrite Hdeg', graph_inverse, Hnil, occurrences_nil in Hz.
        rewrite Hdeg, Hnil in Hpos. simpl in *. lia.
    + intros [HN Hz]. destruct (decide (degree inDegree t = 0%Z)) as [|Hne]; [by left|].
      right. split; [|done]. rewrite Hdeg in Hne |- *. lia.
  - apply respects_snoc; [done|]. apply filter_missing_empty.
    assert (current ∈ result ++ current :: queue) as Hc
      by (apply elem_of_app; right; by left).
    apply Hmem in Hc as [_ Hz]. rewrite Hdeg in Hz. lia.
Qed.

Lemma processQueue_inv steps : ∀ inDegree queue result final,
  kahn_inv inDegree queue result →
  processQueue steps g inDegree queue result = Some final →
  ∃ inDegree', kahn_inv inDegree' [] final.
Proof.
  induction steps as [|steps IH]; intros inDegree [|current queue] result final Hinv Hrun;
    simpl in Hrun; simplify_eq; eauto.
  destruct (relax _ inDegree queue) as [inDegree' queue'] eqn:Hrelax.
  eapply IH; [|done]. by eapply kahn_inv_step.
Qed.

(** The list the loop ends with: no node twice, every node after its
    dependencies, and exactly the nodes all of whose dependencies are in it. *)
Lemma kahn_final inDegree final :
  kahn_inv inDegree [] final →
  NoDup final ∧ respects (depsOf g) final ∧
  ∀ t, t ∈ final ↔ t ∈ N ∧ ∀ x, x ∈ depsOf g t → x ∈ final.
Proof.
  intros [Hnd Hdeg Hmem Hresp]. rewrite app_nil_r in Hnd.
  split_and!; [done..|]. intros t.
  specialize (Hmem t). rewrite app_nil_r in Hmem. rewrite Hmem.
  rewrite <- filter_missing_empty, Hdeg. split; intros [? ?]; split; try done; lia.
Qed.

End Kahn.

(** ** The in-degrees and the queue the sort starts from *)

Lemma degree_foldl_insert (f : rtype → Z) (l : list rtype) : ∀ inDegree t,
  degree (foldl (λ inDegree typ, <[typ := f typ]> inDegree) inDegree l) t
  = if decide (t ∈ l) then f t else degree inDegree t.
Proof.
  induction l as [|y l IH]; intros inDegree t; cbn [foldl].
  - rewrite decide_False; [done|by intros ?%elem_of_nil].
  - rewrite IH, degree_insert. destruct (decide (y = t)) as [->|Hne].
    + rewrite (decide_True (P := t ∈ t :: l)) by (by left). by case_decide.
    + destruct (decide (t ∈ l)).
      * by rewrite decide_True by (by right).
      * rewrite decide_False; [done|]. intros [?|?]%elem_of_cons; congruence.
Qed.

Lemma dom_foldl_insert (f : rtype → Z) (l : list rtype) : ∀ (inDegree : gmap rtype Z) t,
  t ∈ dom (foldl (λ inDegree typ, <[typ := f typ]> inDegree) inDegree l)
  ↔ t ∈ l ∨ t ∈ dom inDegree.
Proof.
  induction l as [|y l IH]; intros inDegree t; cbn [foldl].
  - rewrite elem_of_nil. tauto.
  - rewrite IH, dom_insert, elem_of_union, elem_of_singleton, elem_of_cons. tauto.
Qed.

Lemma elem_of_dependencies_keys (s : Shuffle) (g : dependencyGraph) t :
  t ∈ (shuffle s (map_to_list (dependencies g))).*1 ↔ is_Some (dependencies g !! t).
Proof.
  rewrite (shuffle_perm s), list_elem_of_fmap. split.
  - intros ([t' l] & -> & Hin%elem_of_map_to_list). by eexists.
  - intros [l Hl]. exists (t, l). by rewrite elem_of_map_to_list.
Qed.

Lemma initInDegree_degree ρ c t :
  degree (initInDegree ρ c) t = Z.of_nat (length (depsOf (graph c) t)).
Proof.
  unfold initInDegree. rewrite degree_foldl_insert. case_decide as Hin; [done|].
  rewrite (degree_foldl_insert (λ _, 0%Z)).
  rewrite elem_of_dependencies_keys in Hin.
  unfold depsOf. destruct (dependencies (graph c) !! t); [by destruct Hin|].
  simpl. by case_decide.
Qed.

Lemma initInDegree_dom ρ c t :
  t ∈ dom (initInDegree ρ c)
  ↔ t ∈ typeRegistry c ∨ is_Some (dependencies (graph c) !! t).
Proof.
  unfold initInDegree.
  rewrite dom_foldl_insert, (dom_foldl_insert (λ _, 0%Z)), dom_empty, elem_of_empty.
  rewrite elem_of_dependencies_keys. tauto.
Qed.

Lemma initQueue_elem_of ρ (inDegree : gmap rtype Z) t :
  t ∈ initQueue ρ inDegree ↔ t ∈ dom inDegree ∧ degree inDegree t = 0%Z.
Proof.
  unfold initQueue, degree. rewrite list_elem_of_fmap, elem_of_dom. split.
  - intros ([t' d] & -> & [Hz Hin]%list_elem_of_filter).
    rewrite (shuffle_perm (range_inDegree ρ)), elem_of_map_to_list in Hin.
    simpl in *. rewrite Hin. by eauto.
  - intros [[d Hd] Hz]. rewrite Hd in Hz. simpl in Hz. subst d.
    exists (t, 0%Z). split; [done|].
    apply list_elem_of_filter. split; [done|].
    by rewrite (shuffle_perm (range_inDegree ρ)), elem_of_map_to_list.
Qed.

Lemma initQueue_NoDup ρ (inDegree : gmap rtype Z) : NoDup (initQueue ρ inDegree).
Proof.
  unfold initQueue.
  eapply sublist_NoDup; [|apply fmap_sublist, sublist_filter].
  rewrite (shuffle_perm (range_inDegree ρ)). apply NoDup_fst_map_to_list.
Qed.

Lemma kahn_inv_init ρ c :
  kahn_inv (graph c) (dom (initInDegree ρ c)) (initInDegree ρ c)
           (initQueue ρ (initInDegree ρ c)) [].
Proof.
  split.
  - apply initQueue_NoDup.
  - intros t. by rewrite filter_missing_nil, initInDegree_degree.
  - intros t. apply initQueue_elem_of.
  - apply respects_nil.
Qed.

(** What [topologicalSort] does on a graph whose [dependents] is the inverse
    of its [dependencies]: the loop ends with a list [final] that has no
    node twice, puts every node after its dependencies and holds exactly the
    nodes all of whose dependencies it holds; the list is returned when it
    has as many elements as there are constructors, and an error otherwise. *)
Lemma topologicalSort_spec ρ c :
  (∀ x t, occurrences t (dependentsOf (graph c) x) = occurrences x (depsOf (graph c) t)) →
  ∃ final,
    NoDup final ∧ respects (depsOf (graph c)) final ∧
    (∀ t, t ∈ final ↔
          (t ∈ typeRegistry c ∨ is_Some (dependencies (graph c) !! t)) ∧
          ∀ x, x ∈ depsOf (graph c) t → x ∈ final) ∧
    topologicalSort ρ c =
      (c, if decide (length final = size (typesCtors c)) then Ok final
          else Err (ErrCircular (length final) (size (typesCtors c)))).
Proof.
  intros Hinverse. unfold topologicalSort.
  destruct (processQueue_total (graph c) (size (initInDegree ρ c)) (initInDegree ρ c)
              (initQueue ρ (initInDegree ρ c)) []) as [final Hrun].
  { apply initQueue_measure. }
  rewrite Hrun. exists final.
  assert (∀ t, depsOf (graph c) t ≠ [] → t ∈ dom (initInDegree ρ c)) as Hnodes.
  { intros t Ht. apply initInDegree_dom. right.
    unfold depsOf in Ht. by destruct (dependencies (graph c) !! t). }
  destruct (processQueue_inv (graph c) (dom (initInDegree ρ c)) Hinverse Hnodes
              _ _ _ _ _ (kahn_inv_init ρ c) Hrun) as [inDegree' Hinv].
  apply kahn_final in Hinv as (Hnd & Hresp & Hmem).
  split_and!; [done..| |].
  - intros t. by rewrite Hmem, initInDegree_dom.
  - by repeat case_decide.
Qed.

(** ** The rebuilt graph *)

(** The constructor that produces [t], read through [typesCtors], and the
    inputs recorded for it. *)
Definition ctorOf (c : Container) (t : rtype) : option constructorInfo :=
  k ← typesCtors c !! t; constructors c !! k.

Definition inputsOf (c : Container) (t : rtype) : list rtype :=
  from_option (λ ctor, args (signature ctor)) [] (ctorOf c t).

Definition graph_inverse (g : dependencyGraph) : Prop :=
  ∀ x t, occurrences t (dependentsOf g x) = occurrences x (depsOf g t).

Lemma addDependents_lookup typ deps : ∀ dependents x,
  default [] (addDependents typ deps dependents !! x)
  = default [] (dependents !! x) ++ replicate (occurrences x deps) typ.
Proof.
  unfold addDependents.
  induction deps as [|dep deps IH]; intros dependents x; cbn [foldl].
  - by rewrite occurrences_nil, app_nil_r.
  - rewrite IH, occurrences_cons. destruct (decide (dep = x)) as [->|Hne].
    + rewrite lookup_insert_eq. simpl. by rewrite <- app_assoc.
    + by rewrite lookup_insert_ne.
Qed.

Lemma graph_inverse_step g typ deps :
  graph_inverse g → dependencies g !! typ = None →
  graph_inverse {| dependencies := <[typ := deps]> (dependencies g);
                   dependents := addDependents typ deps (dependents g) |}.
Proof.
  intros Hinv Hfresh x t. unfold dependentsOf, depsOf. simpl.
  rewrite addDependents_lookup, occurrences_app, occurrences_replicate.
  specialize (Hinv x t). unfold dependentsOf, depsOf in Hinv. rewrite Hinv.
  destruct (decide (typ = t)) as [->|Hne].
  - rewrite lookup_insert_eq, Hfresh. done.
  - rewrite lookup_insert_ne by done. lia.
Qed.

Lemma rebuildLoop_Ok ctors entries : ∀ g g',
  NoDup entries.*1 →
  (∀ t, t ∈ entries.*1 → dependencies g !! t = None) →
  graph_inverse g →
  rebuildLoop ctors entries g = (g', Ok tt) →
  graph_inverse g' ∧
  (∀ t k, (t, k) ∈ entries →
     ∃ ctor, ctors !! k = Some ctor ∧ dependencies g' !! t = Some (args (signature ctor))) ∧
  (∀ t, t ∉ entries.*1 → dependencies g' !! t = dependencies g !! t).
Proof.
  induction entries as [|[typ k] entries IH]; intros g g' Hnd Hfresh Hinv Hrun; simpl in *.
  - simplify_eq. split_and!; [done| |done]. by intros t k ?%elem_of_nil.
  - destruct (ctors !! k) as [ctor|] eqn:Hk; [|done].
    apply NoDup_cons in Hnd as [Hnew Hnd].
    apply IH in Hrun as (Hinv' & Hin & Hout); [|done| |].
    + split_and!; [done| |].
      * intros t k' [[= -> ->]|Hin']%elem_of_cons; [|by apply Hin].
        exists ctor. split; [done|]. rewrite Hout by done. simpl.
        by rewrite lookup_insert_eq.
      * intros t Ht. rewrite not_elem_of_cons in Ht. destruct Ht as [Hne Ht].
        rewrite Hout by done. simpl. by rewrite lookup_insert_ne.
    + intros t Ht. simpl. rewrite lookup_insert_ne; [apply Hfresh; by right|].
      intros ->. done.
    + apply graph_inverse_step; [done|]. apply Hfresh. by left.
Qed.

Lemma rebuildLoop_result ctors entries : ∀ g,
  (rebuildLoop ctors entries g).2 = Ok tt ∨ (rebuildLoop ctors entries g).2 = Panic.
Proof.
  induction entries as [|[typ k] entries IH]; intros g; simpl; [by left|].
  destruct (ctors !! k); [apply IH|by right].
Qed.

Lemma rebuildLoop_valid ctors entries : ∀ g,
  (∀ t k, (t, k) ∈ entries → is_Some (ctors !! k)) →
  (rebuildLoop ctors entries g).2 = Ok tt.
Proof.
  induction entries as [|[typ k] entries IH]; intros g Hvalid; simpl; [done|].
  destruct (Hvalid typ k) as [ctor ->]; [by left|].
  apply IH. intros t k' Hin. apply (Hvalid t k'). by right.
Qed.

Lemma elem_of_typesCtors_entries (s : Shuffle) (c : Container) t k :
  (t, k) ∈ shuffle s (map_to_list (typesCtors c)) ↔ typesCtors c !! t = Some k.
Proof. by rewrite (shuffle_perm s), elem_of_map_to_list. Qed.

(** After [rebuildGraph] the graph holds, for every registered type, the
    inputs recorded for its constructor, and nothing else. *)
Lemma rebuildGraph_Ok ρ c c' :
  rebuildGraph ρ c = (c', Ok tt) →
  c' = setGraph c (graph c') ∧ graph_inverse (graph c') ∧
  (∀ t, depsOf (graph c') t = inputsOf c t) ∧
  (∀ t, is_Some (dependencies (graph c') !! t) ↔ is_Some (typesCtors c !! t)).
Proof.
  unfold rebuildGraph.
  destruct (rebuildLoop _ _ _) as [g r] eqn:Hloop. intros [= <- ->].
  apply rebuildLoop_Ok in Hloop as (Hinv & Hin & Hout).
  - assert (∀ t, t ∉ (shuffle (range_typesCtors ρ) (map_to_list (typesCtors c))).*1
                 ↔ typesCtors c !! t = None) as Hkeys.
    { intros t. rewrite (shuffle_perm (range_typesCtors ρ)), eq_None_not_Some.
      rewrite list_elem_of_fmap. split; intros Hn Hs; apply Hn.
      - destruct Hs as [k Hk]. exists (t, k). by rewrite elem_of_map_to_list.
      - destruct Hs as ([t' k] & -> & Hk%elem_of_map_to_list). by eexists. }
    split_and!; [done..| |].
    + intros t. unfold depsOf, inputsOf, ctorOf. simpl.
      destruct (typesCtors c !! t) as [k|] eqn:Hk; simpl.
      * apply elem_of_typesCtors_entries with (s := range_typesCtors ρ) in Hk.
        destruct (Hin _ _ Hk) as (ctor & -> & ->). done.
      * apply Hkeys in Hk. rewrite (Hout _ Hk). simpl. by rewrite lookup_empty.
    + intros t. simpl. split.
      * intros Hs. destruct (typesCtors c !! t) eqn:Hk; [by eexists|].
        apply Hkeys in Hk. rewrite (Hout _ Hk) in Hs. simpl in Hs.
        rewrite lookup_empty in Hs. by destruct Hs.
      * intros [k Hk].
        apply elem_of_typesCtors_entries with (s := range_typesCtors ρ) in Hk.
        destruct (Hin _ _ Hk) as (ctor & _ & ->). by eexists.
  - rewrite (shuffle_perm (range_typesCtors ρ)). apply NoDup_fst_map_to_list.
  - intros t _. apply lookup_empty.
  - intros x t. unfold dependentsOf, depsOf. simpl. by rewrite !lookup_empty.
Qed.

(** ** Well-formed containers *)

(** What [Provide] establishes for a constructor and the resolution pipeline
    keeps: the signature was read off the function, and a rewritten
    argument slot holds a pointer type that can be passed for the
    parameter. *)
Definition slot_ok (arg param : rtype) : Prop :=
  arg = param ∨ (Kind arg = reflect.Pointer ∧ AssignableTo arg param = true).

Record wf_ctor (ctor : constructorInfo) : Prop := {
  wf_out : fn_out (fn ctor) !! 0 = Some (returnType (signature ctor));
  wf_pointer : Kind (returnType (signature ctor)) = reflect.Pointer;
  wf_flags : length (dependNeedsResolution ctor) = length (args (signature ctor));
  wf_args : Forall2 slot_ok (args (signature ctor)) (fn_in (fn ctor))
}.

(** The invariant of a container: [typesCtors] points into the store at a
    constructor of that return type, [typeRegistry] lists the keys of
    [typesCtors], and an instance is kept under its own type. *)
Record wf (c : Container) : Prop := {
  wf_ctors : Forall wf_ctor (constructors c);
  wf_typesCtors : ∀ t k, typesCtors c !! t = Some k →
    ∃ ctor, constructors c !! k = Some ctor ∧ returnType (signature ctor) = t;
  wf_registry : ∀ t, t ∈ typeRegistry c ↔ is_Some (typesCtors c !! t);
  wf_instances : ∀ t v, instances c !! t = Some v → val_type v = t
}.

Lemma wf_NewContainer : wf NewContainer.
Proof.
  split; simpl.
  - constructor.
  - intros t k. by rewrite lookup_empty.
  - intros t. rewrite lookup_empty, elem_of_nil. split; [done|by intros []].
  - intros t v. by rewrite lookup_empty.
Qed.

Lemma Implements_errorType t : Implements t errorType = Ok (implements t errorType).
Proof. unfold Implements. by rewrite decide_True by apply errorType_interface. Qed.

Lemma analyzeFunction_Ok f sig :
  analyzeFunction f = Ok sig →
  args sig = fn_in f ∧ fn_out f !! 0 = Some (returnType sig) ∧
  Kind (returnType sig) = reflect.Pointer ∧ 1 ≤ length (fn_out f) ≤ 2.
Proof.
  unfold analyzeFunction. case_decide as Hlen; [done|].
  destruct (fn_out f !! 0) as [firstOut|] eqn:Hout; [|done].
  case_decide as Hkind; [done|].
  assert (1 ≤ length (fn_out f) ≤ 2) by lia.
  case_decide.
  - destruct (fn_out f !! 1); [|done]. rewrite Implements_errorType. simpl.
    destruct (implements _ _); [|done]. by intros [= <-].
  - by intros [= <-].
Qed.

Lemma wf_Provide constructor c :
  wf c → wf (Provide constructor c).1.
Proof.
  intros [Hctors Htypes Hreg Hinst]. unfold Provide.
  destruct constructor as [f|]; [|by split].
  destruct (analyzeFunction f) as [sig| | |] eqn:Hsig; try by split.
  apply analyzeFunction_Ok in Hsig as (Hargs & Hout & Hptr & Hlen).
  split; simpl.
  - apply Forall_app. split; [done|]. constructor; [|constructor].
    split; simpl; [done..|by rewrite length_fmap|].
    rewrite Hargs. apply Forall_Forall2_diag, Forall_forall. by left.
  - intros t k. destruct (decide (returnType sig = t)) as [<-|Hne].
    + rewrite lookup_insert_eq. intros [= <-]. eexists.
      by rewrite list_lookup_middle.
    + rewrite lookup_insert_ne by done. intros Hk.
      destruct (Htypes _ _ Hk) as (ctor & Hctor & Hret). exists ctor.
      split; [|done]. rewrite lookup_app_l; [done|]. by eapply lookup_lt_Some.
  - intros t. rewrite elem_of_app, list_elem_of_singleton, Hreg.
    destruct (decide (returnType sig = t)) as [<-|Hne].
    + rewrite lookup_insert_eq. split; [by eexists|by right].
    + rewrite lookup_insert_ne by done. split; [intros [?|?]; [done|congruence]|by left].
  - done.
Qed.

(** A container as a program builds it: [NewContainer], then one [Provide]
    per constructor. *)
Definition provideAll (l : list any) : Container :=
  foldl (λ c constructor, (Provide constructor c).1) NewContainer l.

Lemma wf_provideAll l : wf (provideAll l).
Proof.
  unfold provideAll. generalize NewContainer, wf_NewContainer.
  induction l as [|constructor l IH]; intros c Hc; simpl; [done|].
  by apply IH, wf_Provide.
Qed.

Lemma wf_registry_pointer c t : wf c → t ∈ typeRegistry c → Kind t = reflect.Pointer.
Proof.
  intros Hwf [k Hk]%(wf_registry _ Hwf).
  destruct (wf_typesCtors _ Hwf _ _ Hk) as (ctor & Hctor & <-).
  eapply wf_pointer, Forall_lookup; [apply Hwf|done].
Qed.

(** ** Interface resolution *)

(** The registered concrete types that satisfy an interface, themselves or
    through a pointer to them. *)
Definition satisfies (interfaceType typ : rtype) : Prop :=
  Kind typ ≠ reflect.Interface ∧
  (implements typ interfaceType = true ∨ implements (PointerTo typ) interfaceType = true).

#[local] Instance satisfies_dec interfaceType typ : Decision (satisfies interfaceType typ).
Proof. unfold satisfies. apply _. Defined.

Definition candidates (registry : list rtype) (interfaceType : rtype) : list rtype :=
  filter (satisfies interfaceType) registry.

Lemma findImplementations_interface registry interfaceType :
  Kind interfaceType = reflect.Interface →
  findImplementations registry interfaceType = Ok (candidates registry interfaceType).
Proof.
  intros Hkind. unfold candidates.
  assert (∀ t, Implements t interfaceType = Ok (implements t interfaceType)) as Himpl.
  { intros t. unfold Implements. by rewrite decide_True. }
  induction registry as [|typ registry IH]; simpl; [done|].
  rewrite filter_cons, !Himpl, IH. simpl. unfold satisfies at 1.
  destruct (decide (Kind typ = reflect.Interface)) as [Hi|Hi].
  - rewrite decide_False; [done|]. by intros [? _].
  - destruct (implements typ interfaceType) eqn:Hd; simpl.
    + rewrite decide_True; [done|]. split; [done|by left].
    + destruct (implements (PointerTo typ) interfaceType) eqn:Hp.
      * rewrite decide_True; [done|]. split; [done|by right].
      * rewrite decide_False; [done|]. intros [_ [?|?]]; congruence.
Qed.

Lemma findImplementations_not_interface registry interfaceType :
  Kind interfaceType ≠ reflect.Interface →
  findImplementations registry interfaceType = Ok [] ∨
  findImplementations registry interfaceType = Panic.
Proof.
  intros Hkind. induction registry as [|typ registry IH]; simpl; [by left|].
  case_decide; [done|]. unfold Implements. rewrite decide_False by done. by right.
Qed.

Lemma findImplementations_singleton registry interfaceType implementation :
  findImplementations registry interfaceType = Ok [implementation] →
  Kind interfaceType = reflect.Interface ∧
  candidates registry interfaceType = [implementation].
Proof.
  intros Hfind. destruct (decide (Kind interfaceType = reflect.Interface)) as [Hi|Hi].
  - rewrite findImplementations_interface in Hfind by done. by simplify_eq.
  - destruct (findImplementations_not_interface registry interfaceType Hi) as [Hr|Hr];
      rewrite Hr in Hfind; done.
Qed.

Lemma candidates_slot_ok registry interfaceType implementation :
  (∀ t, t ∈ registry → Kind t = reflect.Pointer) →
  Kind interfaceType = reflect.Interface →
  implementation ∈ candidates registry interfaceType →
  Kind implementation = reflect.Pointer ∧
  AssignableTo implementation interfaceType = true.
Proof.
  intros Hreg Hi [[_ Himpl] Hin]%list_elem_of_filter.
  split; [by apply Hreg|]. apply AssignableTo_implements; [done|].
  destruct Himpl as [?|?]; [done|]. apply implements_pointer_pointer; auto.
Qed.

Lemma resolveArgs_slot_ok registry flags : ∀ i args args' r params,
  (∀ t, t ∈ registry → Kind t = reflect.Pointer) →
  resolveArgs registry flags i args = (args', r) →
  Forall2 slot_ok args params → Forall2 slot_ok args' params.
Proof.
  induction flags as [|flag flags IH]; intros i args args' r params Hreg Hrun Hok;
    simpl in Hrun; [by simplify_eq|].
  destruct flag; simpl in Hrun; [|by eapply IH].
  destruct (args !! i) as [interfaceType|] eqn:Hi; [|by simplify_eq].
  destruct (findImplementations registry interfaceType) as [[|impl [|]]| | |] eqn:Hfind;
    try by simplify_eq.
  apply findImplementations_singleton in Hfind as [Hkind Hcand].
  eapply IH; [done..|].
  destruct (Forall2_lookup_l _ _ _ _ _ Hok Hi) as (param & Hparam & Hslot).
  rewrite <- (list_insert_id params i param) by done.
  apply Forall2_insert; [done|].
  destruct Hslot as [->|[Hptr _]]; [|congruence].
  right. apply (candidates_slot_ok registry); [done..|].
  rewrite Hcand. by left.
Qed.

(** [resolveInterfaces] rewrites argument slots and nothing else. *)
Definition same_function (ctor ctor' : constructorInfo) : Prop :=
  fn ctor' = fn ctor ∧ name ctor' = name ctor ∧
  returnType (signature ctor') = returnType (signature ctor) ∧
  dependNeedsResolution ctor' = dependNeedsResolution ctor ∧
  length (args (signature ctor')) = length (args (signature ctor)).

Lemma resolveArgs_length registry flags : ∀ i args,
  length (resolveArgs registry flags i args).1 = length args.
Proof.
  induction flags as [|flag flags IH]; intros i args; simpl; [done|].
  destruct flag; simpl; [|done].
  destruct (args !! i) as [interfaceType|]; [|done].
  destruct (findImplementations registry interfaceType) as [[|impl [|]]| | |]; try done.
  by rewrite IH, length_insert.
Qed.

Lemma resolveCtors_same registry ctors :
  Forall2 same_function ctors (resolveCtors registry ctors).1.
Proof.
  induction ctors as [|ctor ctors IH]; simpl; [constructor|].
  pose proof (resolveArgs_length registry (dependNeedsResolution ctor) 0
                (args (signature ctor))) as Hlen.
  destruct (resolveArgs _ _ _ _) as [args' r].
  assert (same_function ctor (setArgs ctor args')) by (by split_and!).
  destruct r; [|constructor; [done|by apply Forall_Forall2_diag, Forall_forall..]..].
  destruct (resolveCtors registry ctors) as [ctors' r']. by constructor.
Qed.

Lemma resolveCtors_wf registry ctors :
  (∀ t, t ∈ registry → Kind t = reflect.Pointer) →
  Forall wf_ctor ctors → Forall wf_ctor (resolveCtors registry ctors).1.
Proof.
  intros Hreg. induction 1 as [|ctor ctors [Hout Hptr Hflags Hargs] Hctors IH];
    simpl; [constructor|].
  pose proof (resolveArgs_length registry (dependNeedsResolution ctor) 0
                (args (signature ctor))) as Hlen.
  destruct (resolveArgs _ _ _ _) as [args' r] eqn:Hrun.
  assert (wf_ctor (setArgs ctor args')).
  { split; simpl; [done..|simpl in Hlen; congruence|].
    by eapply resolveArgs_slot_ok. }
  destruct r; [|by constructor..].
  destruct (resolveCtors registry ctors) as [ctors' r']. by constructor.
Qed.

Lemma resolveInterfaces_static c :
  instances (resolveInterfaces c).1 = instances c ∧
  typeRegistry (resolveInterfaces c).1 = typeRegistry c ∧
  typesCtors (resolveInterfaces c).1 = typesCtors c ∧
  graph (resolveInterfaces c).1 = graph c ∧
  Forall2 same_function (constructors c) (constructors (resolveInterfaces c).1).
Proof.
  unfold resolveInterfaces.
  pose proof (resolveCtors_same (typeRegistry c) (constructors c)) as Hsame.
  by destruct (resolveCtors _ _) as [ctors r].
Qed.

Lemma wf_resolveInterfaces c : wf c → wf (resolveInterfaces c).1.
Proof.
  intros Hwf. destruct (resolveInterfaces_static c) as (Hi & Hr & Ht & Hg & Hsame).
  split.
  - unfold resolveInterfaces.
    pose proof (resolveCtors_wf (typeRegistry c) (constructors c)
                  (λ t, wf_registry_pointer c t Hwf) (wf_ctors _ Hwf)) as Hctors.
    by destruct (resolveCtors _ _) as [ctors r].
  - intros t k. rewrite Ht. intros Hk.
    destruct (wf_typesCtors _ Hwf _ _ Hk) as (ctor & Hctor & Hret).
    destruct (Forall2_lookup_l _ _ _ _ _ Hsame Hctor) as (ctor' & Hctor' & Hs).
    exists ctor'. split; [done|]. destruct Hs as (_ & _ & -> & _). done.
  - intros t. rewrite Hr, Ht. apply Hwf.
  - rewrite Hi. apply Hwf.
Qed.

(** ** The stages of [Resolve] *)

Lemma rebuildGraph_static ρ c :
  (rebuildGraph ρ c).1 = setGraph c (graph (rebuildGraph ρ c).1).
Proof. unfold rebuildGraph. by destruct (rebuildLoop _ _ _). Qed.

Lemma topologicalSort_static ρ c : (topologicalSort ρ c).1 = c.
Proof.
  unfold topologicalSort. destruct (processQueue _ _ _ _ _); [|done]. by case_decide.
Qed.

Ltac unfold_Resolve :=
  unfold Resolve, mbind, M_bind, bind, wrap, onContainer; simpl.

Lemma Resolve_interfaces_Err ρ targetType st c1 e :
  resolveInterfaces (container st) = (c1, Err e) →
  Resolve ρ (Some targetType) st = (setContainer c1 st, Err (ErrInterfaceResolution e)).
Proof. intros H1. unfold_Resolve. by rewrite H1. Qed.

Lemma Resolve_validate_Err ρ targetType st c1 c2 e :
  resolveInterfaces (container st) = (c1, Ok tt) →
  rebuildGraph ρ c1 = (c2, Ok tt) →
  validateDependencies ρ c2 = (c2, Err e) →
  Resolve ρ (Some targetType) st = (setContainer c2 st, Err e).
Proof.
  intros H1 H2 H3. unfold_Resolve.
  rewrite H1; simpl. rewrite H2; simpl.
  unfold validateDependencies in H3. injection H3 as H3. by rewrite H3.
Qed.

Lemma Resolve_sort_Err ρ targetType st c1 c2 e :
  resolveInterfaces (container st) = (c1, Ok tt) →
  rebuildGraph ρ c1 = (c2, Ok tt) →
  validateDependencies ρ c2 = (c2, Ok tt) →
  topologicalSort ρ c2 = (c2, Err e) →
  Resolve ρ (Some targetType) st = (setContainer c2 st, Err (ErrDependencyResolution e)).
Proof.
  intros H1 H2 H3 H4. unfold_Resolve.
  rewrite H1; simpl. rewrite H2; simpl.
  unfold validateDependencies in H3. injection H3 as H3. rewrite H3; simpl.
  by rewrite H4.
Qed.

Lemma Resolve_run ρ targetType st c1 c2 sortedTypes :
  resolveInterfaces (container st) = (c1, Ok tt) →
  rebuildGraph ρ c1 = (c2, Ok tt) →
  validateDependencies ρ c2 = (c2, Ok tt) →
  topologicalSort ρ c2 = (c2, Ok sortedTypes) →
  Resolve ρ (Some targetType) st
  = (resolveAll sortedTypes;; setTarget targetType) (setContainer c2 st).
Proof.
  intros H1 H2 H3 H4. unfold_Resolve.
  rewrite H1; simpl. rewrite H2; simpl.
  unfold validateDependencies in H3. injection H3 as H3. rewrite H3; simpl.
  by rewrite H4.
Qed.

Lemma checkRequired_cases (m : gmap rtype nat) required :
  checkRequired m required = Ok tt ∨
  ∃ x, checkRequired m required = Err (ErrMissingConstructor x).
Proof.
  induction required as [|x l IH]; simpl; [by left|].
  destruct (m !! x); [done|]. right. by exists x.
Qed.

(** A call of [Resolve] either reaches the instantiation loop, or ends
    before any constructor ran, with the instances it started from. *)
Lemma Resolve_inv ρ targetType st st' r :
  Resolve ρ (Some targetType) st = (st', r) →
  (∃ c1 c2 sortedTypes,
     resolveInterfaces (container st) = (c1, Ok tt) ∧
     rebuildGraph ρ c1 = (c2, Ok tt) ∧
     validateDependencies ρ c2 = (c2, Ok tt) ∧
     topologicalSort ρ c2 = (c2, Ok sortedTypes) ∧
     (resolveAll sortedTypes;; setTarget targetType) (setContainer c2 st) = (st', r)) ∨
  (world st' = world st ∧ calls st' = calls st ∧
   instances (container st') = instances (container st) ∧
   typesCtors (container st') = typesCtors (container st) ∧
   constructors (container st') = constructors (resolveInterfaces (container st)).1 ∧
   (∀ v, r ≠ Ok v) ∧ (∀ t e, r ≠ Err (ErrFailedToResolve t e)) ∧
   (∀ e, r = Err (ErrInterfaceResolution e) →
         (resolveInterfaces (container st)).2 = Err e) ∧
   (∃ g, container st' = setGraph (resolveInterfaces (container st)).1 g)).
Proof.
  assert (∀ c : Container, c = setGraph c (graph c)) as Heta by (by intros []).
  unfold_Resolve.
  pose proof (resolveInterfaces_static (container st)) as (Hi1 & _ & Ht1 & _).
  destruct (resolveInterfaces (container st)) as [c1 r1] eqn:H1. simpl in Hi1, Ht1.
  destruct r1 as [[]| | |]; simpl;
    [|intros [= <- <-]; right; split_and!;
      first [done|by intros ? [= ->]|by exists (graph c1)]..].
  pose proof (rebuildGraph_static ρ c1) as Hg.
  destruct (rebuildGraph ρ c1) as [c2 r2] eqn:H2. simpl in Hg.
  assert (instances c2 = instances (container st)) as Hi2 by (by rewrite Hg).
  assert (typesCtors c2 = typesCtors (container st)) as Ht2 by (by rewrite Hg).
  assert (constructors c2 = constructors c1) as Hc2 by (by rewrite Hg).
  assert (r2 = Ok tt ∨ r2 = Panic) as Hr2.
  { pose proof (rebuildLoop_result (constructors c1)
      (shuffle (range_typesCtors ρ) (map_to_list (typesCtors c1)))
      {| dependencies := ∅; dependents := ∅ |}) as Hr.
    unfold rebuildGraph in H2. destruct (rebuildLoop _ _ _). by simplify_eq. }
  destruct Hr2 as [-> | ->]; simpl;
    [|intros [= <- <-]; right; split_and!; first [done|by exists (graph c2)]].
  destruct (checkRequired_cases (typesCtors c2)
              (shuffle (range_requiredTypes ρ)
                 (elements (requiredTypes (constructors c2)))))
    as [H3|[x H3]]; rewrite H3; simpl;
    [|intros [= <- <-]; right; split_and!; first [done|by exists (graph c2)]].
  pose proof (topologicalSort_static ρ c2) as Hs.
  destruct (topologicalSort ρ c2) as [c3 r4] eqn:H4. simpl in Hs. subst c3.
  destruct r4 as [sortedTypes| | |]; simpl;
    [|intros [= <- <-]; right; split_and!; first [done|by exists (graph c2)]..].
  intros Hrun. left. exists c1, c2, sortedTypes. unfold validateDependencies.
  by rewrite H3.
Qed.

(** ** One constructor call *)

Lemma IsNil_cases t (v : option string) :
  IsNil t v = Ok (bool_decide (v = None)) ∨ IsNil t v = Panic.
Proof. unfold IsNil. destruct (hasNil _); auto. Qed.

(** What [resolveInstance] reads off the results of a call: no error, the
    error the function returned, or a panic in [IsNil]. *)
Lemma returnedError_cases f err :
  (∃ failure, returnedError f err = Ok failure ∧ (failure = None ∨ failure = err)) ∨
  returnedError f err = Panic.
Proof.
  unfold returnedError. case_decide as Hlen; [|by eauto].
  destruct (last (fn_out f)) as [lastType|] eqn:Hlast.
  - rewrite Implements_errorType. simpl. destruct (implements _ _); [|by eauto].
    destruct (IsNil_cases lastType err) as [-> | ->]; simpl; [|by right].
    left. case_bool_decide; eauto.
  - apply last_None in Hlast. rewrite Hlast in Hlen. simpl in Hlen. lia.
Qed.

Lemma gatherArgs_Ok typ ctor (insts : gmap rtype value) indices : ∀ vs,
  gatherArgs typ ctor insts indices = Ok vs →
  Forall2 (λ i v, ∃ x, args (signature ctor) !! i = Some x ∧ insts !! x = Some v)
          indices vs.
Proof.
  induction indices as [|i indices IH]; intros vs; simpl.
  - intros [= <-]. constructor.
  - destruct (args (signature ctor) !! i) as [x|] eqn:Hx; [|done].
    destruct (insts !! x) as [v|] eqn:Hv; [|done].
    destruct (gatherArgs typ ctor insts indices) as [rest| | |]; try done.
    simpl. intros [= <-]. constructor; eauto.
Qed.

Lemma gatherArgs_Err typ ctor (insts : gmap rtype value) indices e :
  gatherArgs typ ctor insts indices = Err e →
  ∃ x, e = ErrDependencyNotResolved x typ ∧ x ∈ args (signature ctor) ∧ insts !! x = None.
Proof.
  induction indices as [|i indices IH]; simpl; [done|].
  destruct (args (signature ctor) !! i) as [x|] eqn:Hx; [|done].
  destruct (insts !! x) as [v|] eqn:Hv.
  - by destruct (gatherArgs typ ctor insts indices) as [rest| | |].
  - intros [= <-]. exists x. split_and!; [done| |done]. by eapply list_elem_of_lookup_2.
Qed.

Lemma gatherArgs_no_Panic typ ctor (insts : gmap rtype value) indices :
  (∀ i, i ∈ indices → i < length (args (signature ctor))) →
  gatherArgs typ ctor insts indices ≠ Panic ∧ gatherArgs typ ctor insts indices ≠ Diverge.
Proof.
  induction indices as [|i indices IH]; intros Hlt; simpl; [done|].
  destruct (lookup_lt_is_Some_2 (args (signature ctor)) i) as [x ->].
  { apply Hlt. by left. }
  destruct (insts !! x); [|done].
  destruct IH as [? ?]. { intros j Hj. apply Hlt. by right. }
  by destruct (gatherArgs typ ctor insts indices).
Qed.

Lemma Forall2_seq_lookup {A B} (P : A → B → Prop) (l : list A) (vs : list B) :
  Forall2 (λ i v, ∃ x, l !! i = Some x ∧ P x v) (seq 0 (length l)) vs →
  Forall2 P l vs.
Proof.
  intros Hall. apply Forall2_same_length_lookup. split.
  - apply Forall2_length in Hall. by rewrite length_seq in Hall.
  - intros i x v Hx Hv.
    assert (seq 0 (length l) !! i = Some i) as Hi.
    { apply lookup_seq. split; [done|]. by eapply lookup_lt_Some. }
    destruct (Forall2_lookup_lr _ _ _ _ _ _ Hall Hi Hv) as (x' & Hx' & HP).
    by simplify_eq.
Qed.

(** The parts of the container the instantiation loop does not write. *)
Definition same_registry (c c' : Container) : Prop :=
  constructors c' = constructors c ∧ typesCtors c' = typesCtors c ∧
  typeRegistry c' = typeRegistry c ∧ graph c' = graph c.

(** [inv] records a call of the constructor registered for [t]: it was
    passed one instance for each recorded input, of that type, and returned
    what the function returns on them. *)
Definition invocation_of (c : Container) (t : rtype) (inv : Invocation) : Prop :=
  typesCtors c !! t = Some (inv_ctor inv) ∧
  ∃ ctor w w', constructors c !! inv_ctor inv = Some ctor ∧
    Forall2 (λ x v, val_type v = x) (args (signature ctor)) (inv_args inv) ∧
    fn_body (fn ctor) (inv_args inv) w = (inv_ptr inv, inv_err inv, w').

(** The call returned no error ([succeeded]) or the error [msg] ([failed]),
    as [resolveInstance] reads its results; or its last result could not be
    tested for nil ([unreadable]). *)
Definition succeeded (c : Container) (inv : Invocation) : Prop :=
  ∃ ctor, constructors c !! inv_ctor inv = Some ctor ∧
    returnedError (fn ctor) (inv_err inv) = Ok None.

Definition failed (c : Container) (inv : Invocation) (msg : string) : Prop :=
  ∃ ctor, constructors c !! inv_ctor inv = Some ctor ∧
    returnedError (fn ctor) (inv_err inv) = Ok (Some msg).

Definition unreadable (c : Container) (inv : Invocation) : Prop :=
  ∃ ctor, constructors c !! inv_ctor inv = Some ctor ∧
    returnedError (fn ctor) (inv_err inv) = Panic.

(** The function registered for [t] is a nil function value. *)
Definition nilFunction (c : Container) (t : rtype) : Prop :=
  ∃ k ctor, typesCtors c !! t = Some k ∧ constructors c !! k = Some ctor ∧
    fn_nil (fn ctor) = true.

Lemma resolveInstance_spec t st st' r :
  wf (container st) →
  resolveInstance t st = (st', r) →
  wf (container st') ∧ same_registry (container st) (container st') ∧
  (∀ x, x ≠ t → instances (container st') !! x = instances (container st) !! x) ∧
  ((st' = st ∧ r = Err (ErrNoConstructor t) ∧ typesCtors (container st) !! t = None) ∨
   (st' = st ∧ ∃ x, r = Err (ErrDependencyNotResolved x t) ∧
      x ∈ inputsOf (container st) t ∧ instances (container st) !! x = None) ∨
   (st' = st ∧ r = Panic ∧ nilFunction (container st) t) ∨
   (∃ inv, calls st' = calls st ++ [inv] ∧ invocation_of (container st) t inv ∧
      ((r = Ok tt ∧ succeeded (container st) inv ∧
        instances (container st') !! t
        = Some {| val_type := t; val_ptr := inv_ptr inv |}) ∨
       (∃ msg, r = Err (ErrConstructor msg) ∧ failed (container st) inv msg ∧
          instances (container st') = instances (container st)) ∨
       (r = Panic ∧ unreadable (container st) inv ∧
          instances (container st') = instances (container st))))).
Proof.
  intros Hwf. unfold resolveInstance, mbind, M_bind, bind, getContainer, raise, lift.
  simpl.
  destruct (typesCtors (container st) !! t) as [k|] eqn:Hk; simpl.
  2:{ intros [= <- <-]. split_and!; [done..|]. by left. }
  destruct (wf_typesCtors _ Hwf _ _ Hk) as (ctor & Hctor & Hret).
  rewrite Hctor. simpl.
  pose proof (proj1 (Forall_lookup _ _) (wf_ctors _ Hwf) _ _ Hctor) as [Hout Hptr Hflags Hargs].
  pose proof (Forall2_length _ _ _ Hargs) as Hlen.
  destruct (gatherArgs_no_Panic t ctor (instances (container st))
              (seq 0 (length (fn_in (fn ctor))))) as [HnP HnD].
  { intros i Hi%elem_of_seq. lia. }
  destruct (gatherArgs _ _ _ _) as [vs|e| |] eqn:Hgather; simpl; try done.
  2:{ intros [= <- <-]. split_and!; [done..|]. right; left. split; [done|].
      apply gatherArgs_Err in Hgather as (x & -> & Hx & Hnone). exists x.
      split_and!; [done| |done]. unfold inputsOf, ctorOf. rewrite Hk. simpl.
      by rewrite Hctor. }
  apply gatherArgs_Ok in Hgather. rewrite <- Hlen in Hgather.
  apply Forall2_seq_lookup in Hgather.
  unfold Call. destruct (fn_nil (fn ctor)) eqn:Hnil; simpl.
  { intros [= <- <-]. split_and!; [done..|]. right; right; left.
    split_and!; [done..|]. by exists k, ctor. }
  rewrite bool_decide_eq_true_2.
  2:{ apply Forall2_same_length_lookup. split.
      { apply Forall2_length in Hgather. lia. }
      intros i v p Hv Hp.
      destruct (Forall2_lookup_r _ _ _ _ _ Hgather Hv) as (x & Hx & Hinst).
      apply (wf_instances _ Hwf) in Hinst. rewrite Hinst.
      destruct (Forall2_lookup_lr _ _ _ _ _ _ Hargs Hx Hp) as [->|[_ ?]]; [|done].
      apply AssignableTo_refl. }
  destruct (fn_body (fn ctor) vs (world st)) as [[ptr err] w'] eqn:Hbody. simpl.
  set (inv := {| inv_ctor := k; inv_args := vs; inv_ptr := ptr; inv_err := err |}).
  assert (invocation_of (container st) t inv) as Hinv.
  { split; [done|]. exists ctor, (world st), w'. split_and!; [done| |done].
    simpl. eapply Forall2_impl; [done|]. intros x v Hv. by apply (wf_instances _ Hwf). }
  destruct (returnedError_cases (fn ctor) err) as [(failure & Hfail & _)|Hfail];
    rewrite Hfail; simpl.
  2:{ intros [= <- <-]. simpl. split_and!; [done..|].
      right; right; right. exists inv. split_and!; [done..|]. right; right.
      split_and!; [done| |done]. by exists ctor. }
  destruct failure as [msg|]; simpl.
  - intros [= <- <-]. simpl. split_and!; [done..|].
    right; right; right. exists inv. split_and!; [done..|]. right; left. exists msg.
    split_and!; [done| |done]. by exists ctor.
  - unfold storeInstance. simpl. rewrite Hout. intros [= <- <-]. simpl.
    split_and!.
    + split; simpl; [apply Hwf..|].
      intros x v. destruct (decide (t = x)) as [<-|Hne].
      * rewrite lookup_insert_eq. intros [= <-]. simpl. done.
      * rewrite lookup_insert_ne by done. apply Hwf.
    + done.
    + intros x Hne. by rewrite lookup_insert_ne.
    + right; right; right. exists inv. split_and!; [done..|]. left.
      split_and!; [done|by exists ctor|]. by rewrite lookup_insert_eq, Hret.
Qed.

(** ** The instantiation loop *)

Lemma resolveAll_cons t l st :
  resolveAll (t :: l) st =
  match resolveInstance t st with
  | (st1, Ok _) => resolveAll l st1
  | (st1, Err e) => (st1, Err (ErrFailedToResolve t e))
  | (st1, Panic) => (st1, Panic)
  | (st1, Diverge) => (st1, Diverge)
  end.
Proof.
  unfold resolveAll. simpl. unfold mbind, M_bind, bind, wrap.
  by destruct (resolveInstance t st) as [st1 [[]| | |]].
Qed.

(** The call [inv] built the instance that [st'] holds for [t]. *)
Definition built (c : Container) (st' : State) (t : rtype) (inv : Invocation) : Prop :=
  invocation_of c t inv ∧ succeeded c inv ∧
  instances (container st') !! t = Some {| val_type := t; val_ptr := inv_ptr inv |}.

Lemma invocation_of_same c c' t inv :
  same_registry c c' → invocation_of c' t inv → invocation_of c t inv.
Proof. intros (Hc & Ht & _) Hinv. unfold invocation_of in *. by rewrite <- Hc, <- Ht. Qed.

Lemma succeeded_same c c' inv : same_registry c c' → succeeded c' inv → succeeded c inv.
Proof. intros (Hc & _) Hs. unfold succeeded in *. by rewrite <- Hc. Qed.

Lemma failed_same c c' inv msg : same_registry c c' → failed c' inv msg → failed c inv msg.
Proof. intros (Hc & _) Hs. unfold failed in *. by rewrite <- Hc. Qed.

Lemma same_registry_trans c1 c2 c3 :
  same_registry c1 c2 → same_registry c2 c3 → same_registry c1 c3.
Proof. intros (?&?&?&?) (?&?&?&?). split_and!; congruence. Qed.

(** How the loop over [sortedTypes] ends: the types of a prefix were
    built by the calls [new], one each and in that order; then the list was
    finished, or the next type stopped the loop, with an error or a panic. *)
Definition stopped (c : Container) (st st' : State) (new : list Invocation)
    (t : rtype) (r : result unit) : Prop :=
  (r = Err (ErrFailedToResolve t (ErrNoConstructor t)) ∧
   typesCtors c !! t = None ∧ calls st' = calls st ++ new) ∨
  (∃ x, r = Err (ErrFailedToResolve t (ErrDependencyNotResolved x t)) ∧
     x ∈ inputsOf c t ∧ instances (container st') !! x = None ∧
     calls st' = calls st ++ new) ∨
  (∃ inv msg, r = Err (ErrFailedToResolve t (ErrConstructor msg)) ∧
     invocation_of c t inv ∧ failed c inv msg ∧
     calls st' = calls st ++ new ++ [inv]) ∨
  (r = Panic ∧ nilFunction c t ∧ calls st' = calls st ++ new) ∨
  (∃ inv, r = Panic ∧ invocation_of c t inv ∧ unreadable c inv ∧
     calls st' = calls st ++ new ++ [inv]).

Lemma resolveAll_spec sortedTypes : ∀ st st' r,
  NoDup sortedTypes → wf (container st) →
  resolveAll sortedTypes st = (st', r) →
  wf (container st') ∧ same_registry (container st) (container st') ∧
  ∃ finished new,
    Forall2 (built (container st) st') finished new ∧
    (∀ x, x ∉ finished → instances (container st') !! x = instances (container st) !! x) ∧
    ((r = Ok tt ∧ sortedTypes = finished ∧ calls st' = calls st ++ new) ∨
     (∃ t rest, sortedTypes = finished ++ t :: rest ∧ stopped (container st) st st' new t r)).
Proof.
  induction sortedTypes as [|t l IH]; intros st st' r Hnd Hwf.
  { intros [= <- <-]. split_and!; [done..|]. exists [], [].
    split_and!; [constructor|done|]. left. by rewrite app_nil_r. }
  apply NoDup_cons in Hnd as [Hnew Hnd].
  rewrite resolveAll_cons.
  destruct (resolveInstance t st) as [st1 r1] eqn:Hstep.
  apply resolveInstance_spec in Hstep as (Hwf1 & Hsame1 & Hframe1 & Hcases); [|done].
  destruct Hcases as [(-> & -> & Hnone)|[(-> & x & -> & Hx & Hnone)|
    [(-> & -> & Hnil)|(inv & Hcalls & Hinv & Hres)]]].
  - intros [= <- <-]. split_and!; [done..|]. exists [], [].
    split_and!; [constructor|done|]. right. exists t, l. split; [done|].
    left. by rewrite app_nil_r.
  - intros [= <- <-]. split_and!; [done..|]. exists [], [].
    split_and!; [constructor|done|]. right. exists t, l. split; [done|].
    right; left. exists x. by rewrite app_nil_r.
  - intros [= <- <-]. split_and!; [done..|]. exists [], [].
    split_and!; [constructor|done|]. right. exists t, l. split; [done|].
    do 3 right. left. by rewrite app_nil_r.
  - destruct Hres as [(-> & Hok & Hinst)|[(msg & -> & Hfail & Hinst)|(-> & Hbad & Hinst)]].
    + intros Hrest. apply IH in Hrest as (Hwf' & Hsame' & finished & new & Hbuilt & Hframe & Hend);
        [|done..].
      assert (t ∉ finished) as Hfresh.
      { intros Hin. apply Hnew.
        destruct Hend as [(_ & -> & _)|(t' & rest & -> & _)]; [done|].
        apply elem_of_app. by left. }
      split_and!; [done|by eapply same_registry_trans|].
      exists (t :: finished), (inv :: new). split_and!.
      * constructor.
        -- split_and!; [done..|]. by rewrite Hframe.
        -- eapply Forall2_impl; [done|]. intros t' inv' (Hi & Hs & Hc).
           split_and!; [by eapply invocation_of_same|by eapply succeeded_same|done].
      * intros x [Hne Hx]%not_elem_of_cons. rewrite Hframe by done. by apply Hframe1.
      * destruct Hend as [(-> & -> & Hc)|(t' & rest & -> & Hstop)].
        -- left. split_and!; [done..|]. by rewrite Hc, Hcalls, <- app_assoc.
        -- right. exists t', rest. split; [done|].
           pose proof Hsame1 as (Hc1 & Ht1 & _).
           destruct Hstop as [(-> & Hn & Hc)|[(x & -> & Hx & Hn & Hc)|
             [(inv' & msg & -> & Hi & Hf & Hc)|[(-> & Hnil & Hc)|(inv' & -> & Hi & Hbad & Hc)]]]].
           ++ left. split_and!; [done|by rewrite <- Ht1|].
              by rewrite Hc, Hcalls, <- app_assoc.
           ++ right; left. exists x. split_and!; [done| |done|].
              ** unfold inputsOf, ctorOf in *. by rewrite <- Ht1, <- Hc1.
              ** by rewrite Hc, Hcalls, <- app_assoc.
           ++ right; right; left. exists inv', msg.
              split_and!; [done|by eapply invocation_of_same|by eapply failed_same|].
              by rewrite Hc, Hcalls, <- !app_assoc.
           ++ do 3 right. left. split_and!; [done| |by rewrite Hc, Hcalls, <- app_assoc].
              unfold nilFunction in *. by rewrite <- Ht1, <- Hc1.
           ++ do 4 right. exists inv'.
              split_and!; [done|by eapply invocation_of_same| |].
              ** unfold unreadable in *. by rewrite <- Hc1.
              ** by rewrite Hc, Hcalls, <- !app_assoc.
    + intros [= <- <-]. split_and!; [done..|]. exists [], [].
      split_and!; [constructor| |].
      * intros x _. by rewrite Hinst.
      * right. exists t, l. split; [done|]. right; right; left. by exists inv, msg.
    + intros [= <- <-]. split_and!; [done..|]. exists [], [].
      split_and!; [constructor| |].
      * intros x _. by rewrite Hinst.
      * right. exists t, l. split; [done|]. do 4 right. by exists inv.
Qed.

(** ** Validation *)

Lemma elem_of_requiredTypes ctors x :
  x ∈ requiredTypes ctors ↔ ∃ ctor, ctor ∈ ctors ∧ x ∈ args (signature ctor).
Proof.
  unfold requiredTypes.
  assert (∀ (l : list rtype) (s : gset rtype),
            x ∈ foldl (λ required depType, {[depType]} ∪ required) s l ↔ x ∈ l ∨ x ∈ s)
    as Hinner.
  { induction l as [|y l IH]; intros s; cbn [foldl].
    - rewrite elem_of_nil. tauto.
    - rewrite IH, elem_of_union, elem_of_singleton, elem_of_cons. tauto. }
  assert (∀ (s : gset rtype),
            x ∈ foldl (λ required ctor,
                         foldl (λ required depType, {[depType]} ∪ required) required
                               (args (signature ctor))) s ctors
            ↔ (∃ ctor, ctor ∈ ctors ∧ x ∈ args (signature ctor)) ∨ x ∈ s) as Houter.
  { induction ctors as [|ctor ctors IH]; intros s; cbn [foldl].
    - split; [by right|]. intros [(ctor & []%elem_of_nil & _)|?]; done.
    - rewrite IH, Hinner. split.
      + intros [(ctor' & Hin & Hx)|[Hx|Hx]]; [left|left|by right].
        * exists ctor'. split; [by right|done].
        * exists ctor. split; [by left|done].
      + intros [(ctor' & [->|Hin]%elem_of_cons & Hx)|Hx]; [by right; left| |by right; right].
        left. by exists ctor'. }
  rewrite Houter. split; [intros [?|[]%elem_of_empty]; done|by left].
Qed.

Lemma checkRequired_Ok (m : gmap rtype nat) required :
  (∀ x, x ∈ required → is_Some (m !! x)) → checkRequired m required = Ok tt.
Proof.
  induction required as [|x l IH]; intros Hall; simpl; [done|].
  destruct (Hall x) as [k ->]; [by left|]. apply IH. intros y Hy. apply Hall. by right.
Qed.

Lemma checkRequired_Err (m : gmap rtype nat) required x :
  x ∈ required → m !! x = None →
  ∃ x', x' ∈ required ∧ m !! x' = None ∧
        checkRequired m required = Err (ErrMissingConstructor x').
Proof.
  induction required as [|y l IH]; intros Hin Hnone; [by apply elem_of_nil in Hin|].
  simpl. destruct (m !! y) as [k|] eqn:Hy.
  - apply elem_of_cons in Hin as [->|Hin]; [congruence|].
    destruct (IH Hin Hnone) as (x' & Hx' & Hn & Hr). exists x'.
    split_and!; [by right|done..].
  - exists y. split_and!; [by left|done..].
Qed.

(** ** From a well-formed container to the sorted list *)

(** [t] depends on [x]: [x] is an input recorded for the constructor of [t]. *)
Definition dependsOn (c : Container) (t x : rtype) : Prop := x ∈ inputsOf c t.

(** Every recorded input of every constructor has a registered constructor. *)
Definition fullyRegistered (c : Container) : Prop :=
  ∀ ctor x, ctor ∈ constructors c → x ∈ args (signature ctor) →
            is_Some (typesCtors c !! x).

Definition acyclic (c : Container) : Prop := ∀ t, ¬ tc (dependsOn c) t t.

Lemma inputsOf_registered c t x : x ∈ inputsOf c t → is_Some (typesCtors c !! t).
Proof.
  unfold inputsOf, ctorOf. destruct (typesCtors c !! t); [by eexists|].
  simpl. by intros ?%elem_of_nil.
Qed.

Lemma rebuildGraph_wf ρ c : wf c →
  ∃ g, rebuildGraph ρ c = (setGraph c g, Ok tt) ∧ graph_inverse g ∧
       (∀ t, default [] (dependencies g !! t) = inputsOf c t) ∧
       (∀ t, is_Some (dependencies g !! t) ↔ is_Some (typesCtors c !! t)).
Proof.
  intros Hwf. destruct (rebuildGraph ρ c) as [c' r] eqn:Hrun.
  assert (r = Ok tt) as ->.
  { unfold rebuildGraph in Hrun.
    pose proof (rebuildLoop_valid (constructors c)
      (shuffle (range_typesCtors ρ) (map_to_list (typesCtors c)))
      {| dependencies := ∅; dependents := ∅ |}) as Hvalid.
    destruct (rebuildLoop _ _ _) as [g r']. simplify_eq. apply Hvalid.
    intros t k Hk%elem_of_typesCtors_entries.
    destruct (wf_typesCtors _ Hwf _ _ Hk) as (ctor & -> & _). by eexists. }
  apply rebuildGraph_Ok in Hrun as (Hc' & Hinv & Hdeps & Hkeys).
  exists (graph c'). by rewrite <- Hc'.
Qed.

Lemma wf_setGraph c g : wf c → wf (setGraph c g).
Proof. intros [? ? ? ?]. by split. Qed.

Lemma inputsOf_setGraph c g t : inputsOf (setGraph c g) t = inputsOf c t.
Proof. done. Qed.

Lemma length_le_size_typesCtors c (l : list rtype) :
  NoDup l → (∀ t, t ∈ l → is_Some (typesCtors c !! t)) → length l ≤ size (typesCtors c).
Proof.
  intros Hnd Hsub. rewrite <- length_map_to_list, <- (length_fmap fst).
  apply submseteq_length, NoDup_submseteq; [done|].
  intros t [k Hk]%Hsub. apply list_elem_of_fmap. exists (t, k).
  by rewrite elem_of_map_to_list.
Qed.

(** The list [topologicalSort] ends with, on the graph rebuilt from a
    well-formed container. *)
Lemma sorted_spec ρ c g :
  wf c → rebuildGraph ρ c = (setGraph c g, Ok tt) →
  ∃ final,
    NoDup final ∧ respects (inputsOf c) final ∧
    (∀ t, t ∈ final ↔ is_Some (typesCtors c !! t) ∧ ∀ x, x ∈ inputsOf c t → x ∈ final) ∧
    length final ≤ size (typesCtors c) ∧
    topologicalSort ρ (setGraph c g) =
      (setGraph c g,
       if decide (length final = size (typesCtors c)) then Ok final
       else Err (ErrCircular (length final) (size (typesCtors c)))).
Proof.
  intros Hwf Hgraph.
  apply rebuildGraph_Ok in Hgraph as (_ & Hinv & Hdeps & Hkeys). simpl in *.
  destruct (topologicalSort_spec ρ (setGraph c g) Hinv) as (final & Hnd & Hresp & Hmem & Hrun).
  simpl in *. exists final.
  assert (∀ t, t ∈ final ↔ is_Some (typesCtors c !! t) ∧ ∀ x, x ∈ inputsOf c t → x ∈ final)
    as Hmem'.
  { intros t. rewrite Hmem, Hkeys, (wf_registry _ Hwf).
    setoid_rewrite Hdeps. tauto. }
  split_and!; [done| |done| |done].
  - intros l1 t l2 Heq x Hx. eapply Hresp; [done|]. by rewrite Hdeps.
  - apply length_le_size_typesCtors; [done|]. intros t Ht. by apply Hmem'.
Qed.

Lemma respects_tc deps l :
  respects deps l → ∀ a b, tc (λ t x, x ∈ deps t) a b →
  ∀ l1 l2, l = l1 ++ a :: l2 → b ∈ l1.
Proof.
  intros Hresp a b Htc. induction Htc as [a b Hab|a m b Ham Hmb IH]; intros l1 l2 Heq.
  - by eapply Hresp.
  - assert (m ∈ l1) as Hm by (by eapply Hresp).
    apply list_elem_of_split in Hm as (l1' & l1'' & ->).
    rewrite <- app_assoc in Heq. simpl in Heq.
    specialize (IH _ _ Heq). apply elem_of_app. by left.
Qed.

(** A node on a cycle is in no list that respects the dependencies. *)
Lemma respects_cycle deps l t :
  NoDup l → respects deps l → tc (λ t x, x ∈ deps t) t t → t ∉ l.
Proof.
  intros Hnd Hresp Htc Hin.
  apply list_elem_of_split in Hin as (l1 & l2 & ->).
  pose proof (respects_tc deps _ Hresp t t Htc l1 l2 eq_refl) as Hin.
  apply NoDup_app in Hnd as (_ & Hdisj & _). apply (Hdisj _ Hin). by left.
Qed.

(** Without cycles, and with every input registered, every dependency chain
    ends: the chain so far cannot be longer than the registry. *)
Lemma acyclic_Acc c :
  fullyRegistered c → wf c → acyclic c →
  ∀ t, is_Some (typesCtors c !! t) → Acc (λ x t, dependsOn c t x) t.
Proof.
  intros Hfull Hwf Hacyclic.
  assert (∀ t x, dependsOn c t x → is_Some (typesCtors c !! x)) as Hreg.
  { intros t x Hx. unfold dependsOn, inputsOf, ctorOf in Hx.
    destruct (typesCtors c !! t) as [k|]; simpl in Hx; [|by apply elem_of_nil in Hx].
    destruct (constructors c !! k) as [ctor|] eqn:Hk; simpl in Hx;
      [|by apply elem_of_nil in Hx].
    eapply Hfull; [|done]. by eapply list_elem_of_lookup_2. }
  assert (∀ n visited t,
            (∀ y, y ∈ visited → tc (dependsOn c) y t) →
            NoDup (t :: visited) →
            (∀ y, y ∈ t :: visited → is_Some (typesCtors c !! y)) →
            size (typesCtors c) ≤ length (t :: visited) + n →
            Acc (λ x t, dependsOn c t x) t) as Hchain.
  { induction n as [|n IH]; intros visited t Hvisited Hnd Hin Hsize;
      constructor; intros x Hx.
    - exfalso.
      assert (NoDup (x :: t :: visited)) as Hnd'.
      { constructor; [|done]. intros [->|Hv]%elem_of_cons.
        - apply (Hacyclic t). by constructor.
        - apply (Hacyclic x). eapply tc_r; [by apply Hvisited|done]. }
      apply (length_le_size_typesCtors c) in Hnd'.
      + simpl in *. lia.
      + intros y [->|Hy]%elem_of_cons; [by eapply Hreg|by apply Hin].
    - apply (IH (t :: visited)).
      + intros y [->|Hy]%elem_of_cons; [by constructor|].
        eapply tc_r; [by apply Hvisited|done].
      + constructor; [|done]. intros [->|Hv]%elem_of_cons.
        * apply (Hacyclic t). by constructor.
        * apply (Hacyclic x). eapply tc_r; [by apply Hvisited|done].
      + intros y [->|Hy]%elem_of_cons; [by eapply Hreg|by apply Hin].
      + simpl in *. lia. }
  intros t Ht. apply (Hchain (size (typesCtors c)) [] t).
  - by intros y ?%elem_of_nil.
  - constructor; [by intros ?%elem_of_nil|constructor].
  - by intros y ->%list_elem_of_singleton.
  - lia.
Qed.

(** ** [Resolve] on a well-formed container *)

Lemma setTarget_state targetType st : (setTarget targetType st).1 = st.
Proof.
  unfold setTarget, mbind, M_bind, bind, getContainer, raise, lift, mret, M_ret, ret.
  simpl. destruct (instances (container st) !! targetType) as [v|]; [|done].
  by destruct (AssignableTo _ _).
Qed.

Lemma setTarget_Ok targetType st st' v :
  setTarget targetType st = (st', Ok v) → instances (container st) !! targetType = Some v.
Proof.
  unfold setTarget, mbind, M_bind, bind, getContainer, raise, lift, mret, M_ret, ret.
  simpl. destruct (instances (container st) !! targetType) as [v'|]; [|done].
  destruct (AssignableTo _ _); [|done]. by intros [= _ ->].
Qed.

Lemma setTarget_not_FailedToResolve targetType st t e :
  (setTarget targetType st).2 ≠ Err (ErrFailedToResolve t e).
Proof.
  unfold setTarget, mbind, M_bind, bind, getContainer, raise, lift, mret, M_ret, ret.
  simpl. destruct (instances (container st) !! targetType) as [v'|]; [|done].
  by destruct (AssignableTo _ _).
Qed.

(** The sorted list, when [topologicalSort] returns one: every registered
    type, once, after the types it depends on. *)
Lemma sorted_registered ρ c g sortedTypes :
  wf c → rebuildGraph ρ c = (setGraph c g, Ok tt) →
  topologicalSort ρ (setGraph c g) = (setGraph c g, Ok sortedTypes) →
  NoDup sortedTypes ∧ respects (inputsOf c) sortedTypes ∧
  sortedTypes ≡ₚ (map_to_list (typesCtors c)).*1.
Proof.
  intros Hwf H2 H4.
  destruct (sorted_spec ρ c g Hwf H2) as (final & Hnd & Hresp & Hmem & Hle & H4').
  rewrite H4 in H4'. case_decide as Hlen; [|done]. simplify_eq.
  split_and!; [done..|].
  apply submseteq_length_Permutation.
  - apply NoDup_submseteq; [done|]. intros y [[k' Hk'] _]%Hmem.
    apply list_elem_of_fmap. exists (y, k'). by rewrite elem_of_map_to_list.
  - rewrite length_fmap, length_map_to_list. lia.
Qed.

Lemma elem_of_typesCtors_keys c t :
  t ∈ (map_to_list (typesCtors c)).*1 ↔ is_Some (typesCtors c !! t).
Proof.
  rewrite list_elem_of_fmap. split.
  - intros ([t' k] & -> & Hk%elem_of_map_to_list). by eexists.
  - intros [k Hk]. exists (t, k). by rewrite elem_of_map_to_list.
Qed.

(** A call of [Resolve] on a well-formed container that gets as far as the
    instantiation loop. *)
Record reached_loop (ρ : Ranges) (targetType : rtype) (st st' : State)
    (r : result value) (c2 : Container) (sortedTypes : list rtype)
    (r3 : result unit) : Prop := {
  loop_wf : wf c2;
  loop_instances : instances c2 = instances (container st);
  loop_typesCtors : typesCtors c2 = typesCtors (container st);
  loop_constructors :
    constructors c2 = constructors (resolveInterfaces (container st)).1;
  loop_NoDup : NoDup sortedTypes;
  loop_respects : respects (inputsOf c2) sortedTypes;
  loop_sorted : ∀ t, t ∈ sortedTypes ↔ is_Some (typesCtors c2 !! t);
  loop_perm : sortedTypes ≡ₚ (map_to_list (typesCtors c2)).*1;
  loop_run : resolveAll sortedTypes (setContainer c2 st) = (st', r3);
  loop_result :
    match r3 with
    | Ok _ => setTarget targetType st' = (st', r)
    | Err e => r = Err e
    | Panic => r = Panic
    | Diverge => r = Diverge
    end
}.

Lemma Resolve_cases ρ targetType st st' r :
  wf (container st) →
  Resolve ρ (Some targetType) st = (st', r) →
  (∃ c2 sortedTypes r3, reached_loop ρ targetType st st' r c2 sortedTypes r3) ∨
  (world st' = world st ∧ calls st' = calls st ∧
   instances (container st') = instances (container st) ∧
   typesCtors (container st') = typesCtors (container st) ∧
   constructors (container st') = constructors (resolveInterfaces (container st)).1 ∧
   (∀ v, r ≠ Ok v) ∧ (∀ t e, r ≠ Err (ErrFailedToResolve t e)) ∧
   (∀ e, r = Err (ErrInterfaceResolution e) →
         (resolveInterfaces (container st)).2 = Err e) ∧
   (∃ g, container st' = setGraph (resolveInterfaces (container st)).1 g)).
Proof.
  intros Hwf Hrun.
  apply Resolve_inv in Hrun as [(c1 & c2 & sortedTypes & H1 & H2 & H3 & H4 & Hrun)|?];
    [left|by right].
  pose proof (wf_resolveInterfaces _ Hwf) as Hwf1.
  pose proof (resolveInterfaces_static (container st)) as (Hi1 & _ & Ht1 & _).
  rewrite H1 in Hwf1, Hi1, Ht1. simpl in Hwf1, Hi1, Ht1.
  destruct (rebuildGraph_wf ρ c1 Hwf1) as (g & H2' & _).
  rewrite H2 in H2'. injection H2' as ->.
  destruct (sorted_registered ρ c1 g sortedTypes Hwf1 H2 H4) as (Hnd & Hresp & Hperm).
  unfold mbind, M_bind, bind in Hrun.
  destruct (resolveAll sortedTypes _) as [st3 r3] eqn:Hloop.
  assert (st' = st3) as ->.
  { destruct r3 as [[]| | |]; try by simplify_eq.
    pose proof (setTarget_state targetType st3) as Hs. by rewrite Hrun in Hs. }
  exists (setGraph c1 g), sortedTypes, r3. split; simpl; try done.
  - by apply wf_setGraph.
  - by rewrite H1.
  - intros t. by rewrite Hperm, elem_of_typesCtors_keys.
  - destruct r3 as [[]| | |]; by simplify_eq.
Qed.

Lemma same_registry_sym c c' : same_registry c c' → same_registry c' c.
Proof. intros (?&?&?&?). by split_and!. Qed.

Lemma built_same c c' st' t inv :
  same_registry c c' → built c st' t inv → built c' st' t inv.
Proof.
  intros Hsame%same_registry_sym (Hi & Hs & Hc).
  split_and!; [by eapply invocation_of_same|by eapply succeeded_same|done].
Qed.

Lemma inputsOf_same c c' t : same_registry c c' → inputsOf c' t = inputsOf c t.
Proof. intros (Hc & Ht & _). unfold inputsOf, ctorOf. by rewrite Hc, Ht. Qed.




(** The type a position of the trace belongs to. *)
Lemma Forall2_split_r {A B} (P : A → B → Prop) (l : list A) (k1 : list B) (y : B)
    (k2 : list B) :
  Forall2 P l (k1 ++ y :: k2) →
  ∃ l1 x l2, l = l1 ++ x :: l2 ∧ Forall2 P l1 k1 ∧ P x y ∧ Forall2 P l2 k2.
Proof.
  intros (l1 & l2' & Hl1 & Hl2 & ->)%Forall2_app_inv_r.
  apply Forall2_cons_inv_r in Hl2 as (x & l2 & Hx & Hl2 & ->).
  by exists l1, x, l2.
Qed.

Lemma Forall2_elem_of_l {A B} (P : A → B → Prop) (l : list A) (k : list B) x :
  Forall2 P l k → x ∈ l → ∃ y, y ∈ k ∧ P x y.
Proof.
  intros Hall (i & Hi)%list_elem_of_lookup_1.
  destruct (Forall2_lookup_l _ _ _ _ _ Hall Hi) as (y & Hy & HP).
  exists y. split; [by eapply list_elem_of_lookup_2|done].
Qed.

Lemma Forall2_elem_of_r {A B} (P : A → B → Prop) (l : list A) (k : list B) y :
  Forall2 P l k → y ∈ k → ∃ x, x ∈ l ∧ P x y.
Proof.
  intros Hall (i & Hi)%list_elem_of_lookup_1.
  destruct (Forall2_lookup_r _ _ _ _ _ Hall Hi) as (x & Hx & HP).
  exists x. split; [by eapply list_elem_of_lookup_2|done].
Qed.

(** * The claims *)

(** C5 (as amended).  When interface resolution has gone through and some
    constructor has a recorded input type for which no constructor is
    registered,
    [Resolve] fails with the missing-constructor error, and the type it
    names is such a type: an input of some constructor with no registered
    constructor (if several are missing, the one the map iteration meets
    first).  The check is made before the sort: nothing is assumed about
    cycles, no constructor is called and the instances are untouched. *)
Theorem missing_constructor_reported ρ targetType st c1 :
  wf (container st) →
  resolveInterfaces (container st) = (c1, Ok tt) →
  (∃ ctor x, ctor ∈ constructors c1 ∧ x ∈ args (signature ctor) ∧
             typesCtors c1 !! x = None) →
  ∃ missing st',
    Resolve ρ (Some targetType) st = (st', Err (ErrMissingConstructor missing)) ∧
    typesCtors c1 !! missing = None ∧
    (∃ ctor, ctor ∈ constructors c1 ∧ missing ∈ args (signature ctor)) ∧
    calls st' = calls st ∧
    instances (container st') = instances (container st).
Proof.
  intros Hwf H1 (ctor & x & Hctor & Hx & Hnone).
  pose proof (wf_resolveInterfaces _ Hwf) as Hwf1.
  pose proof (resolveInterfaces_static (container st)) as (Hi1 & _).
  rewrite H1 in Hwf1, Hi1. simpl in Hwf1, Hi1.
  destruct (rebuildGraph_wf ρ c1 Hwf1) as (g & H2 & _).
  destruct (checkRequired_Err (typesCtors c1)
              (shuffle (range_requiredTypes ρ) (elements (requiredTypes (constructors c1))))
              x) as (missing & Hin & Hmissing & Hcheck); [|done|].
  { rewrite (shuffle_perm (range_requiredTypes ρ)), elem_of_elements.
    apply elem_of_requiredTypes. eauto. }
  exists missing, (setContainer (setGraph c1 g) st). split_and!; [|done| |done..].
  - eapply Resolve_validate_Err; [done..|].
    unfold validateDependencies. simpl. by rewrite Hcheck.
  - rewrite (shuffle_perm (range_requiredTypes ρ)), elem_of_elements in Hin.
    by apply elem_of_requiredTypes in Hin.
Qed.

(** C4 (as amended).  When interface resolution and validation have gone
    through and the recorded dependencies contain a cycle, [Resolve] fails,
    for every target,
    with the circular-dependency error: Kahn's loop ended with [processed]
    types, fewer than there are types with a constructor.  No constructor
    was called.  (That a list is only ever returned when it has that many
    elements is [topologicalSort_spec].) *)
Theorem cycle_reported ρ targetType st c1 :
  wf (container st) →
  resolveInterfaces (container st) = (c1, Ok tt) →
  fullyRegistered c1 →
  (∃ t, tc (dependsOn c1) t t) →
  ∃ processed st',
    Resolve ρ (Some targetType) st
    = (st', Err (ErrDependencyResolution
                   (ErrCircular processed (size (typesCtors c1))))) ∧
    processed < size (typesCtors c1) ∧
    calls st' = calls st ∧
    instances (container st') = instances (container st).
Proof.
  intros Hwf H1 Hfull (t & Hcycle).
  pose proof (wf_resolveInterfaces _ Hwf) as Hwf1.
  pose proof (resolveInterfaces_static (container st)) as (Hi1 & _).
  rewrite H1 in Hwf1, Hi1. simpl in Hwf1, Hi1.
  destruct (rebuildGraph_wf ρ c1 Hwf1) as (g & H2 & _).
  destruct (sorted_spec ρ c1 g Hwf1 H2) as (final & Hnd & Hresp & Hmem & Hle & H4).
  assert (t ∉ final) as Hout by (by eapply respects_cycle).
  assert (is_Some (typesCtors c1 !! t)) as [k Hk].
  { inversion Hcycle as [? y Hstep|? y ? Hstep _]; subst; by eapply inputsOf_registered. }
  assert (length final ≠ size (typesCtors c1)) as Hne.
  { intros Heq. apply Hout.
    assert (final ≡ₚ (map_to_list (typesCtors c1)).*1) as ->.
    { apply submseteq_length_Permutation.
      - apply NoDup_submseteq; [done|]. intros y [[k' Hk'] _]%Hmem.
        apply list_elem_of_fmap. exists (y, k'). by rewrite elem_of_map_to_list.
      - rewrite length_fmap, length_map_to_list. lia. }
    apply list_elem_of_fmap. exists (t, k). by rewrite elem_of_map_to_list. }
  rewrite decide_False in H4 by done.
  exists (length final), (setContainer (setGraph c1 g) st).
  split_and!; [|lia|done..].
  eapply Resolve_sort_Err; [done..| |done].
  unfold validateDependencies. rewrite checkRequired_Ok; [done|].
  intros x Hx. simpl in *.
  rewrite (shuffle_perm (range_requiredTypes ρ)), elem_of_elements in Hx.
  apply elem_of_requiredTypes in Hx as (ctor & Hctor & Hx). by eapply Hfull.
Qed.

(** C10.  A successful [Resolve] has instantiated every registered type, not
    only the target and what it depends on: for every type with a registered
    constructor, that constructor was called during this [Resolve], returned
    no error, and the instance it built is in the cache.  So no registered
    constructor can be one that always returns an error, whether or not the
    target depends on it. *)
Theorem resolve_builds_all ρ targetType st st' v :
  wf (container st) →
  Resolve ρ (Some targetType) st = (st', Ok v) →
  ∃ new, calls st' = calls st ++ new ∧
    (∀ t, is_Some (typesCtors (container st') !! t) →
          ∃ inv, inv ∈ new ∧ built (container st') st' t inv) ∧
    ¬ (∃ t k ctor,
         typesCtors (container st') !! t = Some k ∧
         constructors (container st') !! k = Some ctor ∧
         ∀ vs w, returnedError (fn ctor) (fn_body (fn ctor) vs w).1.2 ≠ Ok None).
Proof.
  intros Hwf Hrun.
  apply Resolve_cases in Hrun as [(c2 & sortedTypes & r3 & Hloop)|(_&_&_&_&_&Hr&_)];
    [|by destruct (Hr v)|done].
  destruct Hloop as [Hwf2 _ _ _ Hnd _ Hsorted _ Hrun Hres].
  apply resolveAll_spec in Hrun as (_ & Hsame & finished & new & Hbuilt & _ & Hend);
    [|done..].
  simpl in Hsame, Hbuilt.
  destruct Hend as [(-> & -> & Hcalls)|(t & rest & _ & Hstop)].
  2:{ destruct Hstop as [(-> & _)|[(x & -> & _)|[(inv & msg & -> & _)|
        [(-> & _)|(inv & -> & _)]]]]; done. }
  assert (∀ t, is_Some (typesCtors (container st') !! t) →
               ∃ inv, inv ∈ new ∧ built (container st') st' t inv) as Hall.
  { intros t Ht. pose proof Hsame as (_ & Htypes & _). rewrite Htypes in Ht.
    apply Hsorted in Ht.
    destruct (Forall2_elem_of_l _ _ _ _ Hbuilt Ht) as (inv & Hin & Hb).
    exists inv. split; [done|]. by eapply built_same. }
  exists new. split_and!; [done..|].
  intros (t & k & ctor & Hk & Hctor & Hfails).
  destruct (Hall t) as (inv & _ & (Hk' & ctor' & w & w' & Hctor' & _ & Hbody) & Hok & _);
    [by eexists|].
  destruct Hok as (ctor'' & Hctor'' & Hok). simplify_eq.
  apply (Hfails (inv_args inv) w). by rewrite Hbody.
Qed.


(** C7.  The instantiation order respects every dependency edge.  Whatever
    the outcome of [Resolve], each constructor call of its trace is the call
    for some type [t], and for every type [x] that [t] depends on (its
    recorded inputs, after interface resolution) the constructor of [x] was
    called earlier in the same trace and returned no error; the call for [t]
    was passed an instance of each input type.  So the loop never finds an
    input missing from the cache. *)
Theorem dependencies_built_first ρ targetType st st' r :
  wf (container st) →
  Resolve ρ (Some targetType) st = (st', r) →
  (∀ t x, r ≠ Err (ErrFailedToResolve t (ErrDependencyNotResolved x t))) ∧
  ∃ new, calls st' = calls st ++ new ∧
    ∀ l1 inv l2, new = l1 ++ inv :: l2 →
      ∃ t, invocation_of (container st') t inv ∧
        ∀ x, dependsOn (container st') t x →
          ∃ inv', inv' ∈ l1 ∧ invocation_of (container st') x inv' ∧
                  succeeded (container st') inv'.
Proof.
  intros Hwf Hrun.
  apply Resolve_cases in Hrun as [(c2 & sortedTypes & r3 & Hloop)|(_&Hc&_&_&_&_&Hr&_)];
    [| |done].
  2:{ split; [by intros t x; apply Hr|]. exists []. rewrite app_nil_r. split; [done|].
      intros l1 inv l2 Heq. by destruct l1. }
  destruct Hloop as [Hwf2 Hinst _ _ Hnd Hresp Hsorted _ Hrun Hres].
  apply resolveAll_spec in Hrun as (_ & Hsame & finished & new & Hbuilt & Hframe & Hend);
    [|done..].
  simpl in Hsame, Hframe, Hbuilt.
  assert (Forall2 (built (container st') st') finished new) as Hbuilt'.
  { eapply Forall2_impl; [done|]. intros t' inv'. by apply built_same. }
  (* a type whose inputs all lie in the built prefix *)
  assert (∀ d1 t l1, Forall2 (built (container st') st') d1 l1 →
            (∀ x, x ∈ inputsOf c2 t → x ∈ d1) →
            ∀ x, dependsOn (container st') t x →
              ∃ inv', inv' ∈ l1 ∧ invocation_of (container st') x inv' ∧
                      succeeded (container st') inv') as Hdeps.
  { intros d1 t l1 Hd1 Hin x Hx. unfold dependsOn in Hx.
    rewrite (inputsOf_same c2) in Hx by done. apply Hin in Hx.
    destruct (Forall2_elem_of_l _ _ _ _ Hd1 Hx) as (inv' & Hinv' & Hi & Hs & _).
    by exists inv'. }
  (* a position inside the built prefix *)
  assert (∀ rest l1 inv l2, sortedTypes = finished ++ rest → new = l1 ++ inv :: l2 →
            ∃ t, invocation_of (container st') t inv ∧
              ∀ x, dependsOn (container st') t x →
                ∃ inv', inv' ∈ l1 ∧ invocation_of (container st') x inv' ∧
                        succeeded (container st') inv') as Hprefix.
  { intros rest l1 inv l2 Hsplit ->.
    apply Forall2_split_r in Hbuilt' as (d1 & t & d2 & -> & Hd1 & (Hi & _) & _).
    exists t. split; [done|]. apply (Hdeps d1); [done|].
    intros x Hx. eapply (Hresp d1 t (d2 ++ rest)); [|done].
    rewrite Hsplit, <- app_assoc. done. }
  destruct Hend as [(-> & -> & Hcalls)|(t & rest & Hsplit & Hstop)].
  - split.
    + intros t x ->. by eapply setTarget_not_FailedToResolve; rewrite Hres.
    + exists new. split; [done|]. intros l1 inv l2 Heq.
      apply (Hprefix [] l1 inv l2); [by rewrite app_nil_r|done].
  - (* the loop stopped at [t], after the call [inv0] or without one *)
    assert (∀ inv0, invocation_of c2 t inv0 →
              ∀ l1 inv l2, new ++ [inv0] = l1 ++ inv :: l2 →
                ∃ t, invocation_of (container st') t inv ∧
                  ∀ x, dependsOn (container st') t x →
                    ∃ inv', inv' ∈ l1 ∧ invocation_of (container st') x inv' ∧
                            succeeded (container st') inv') as Hlast.
    { intros inv0 Hi l1 inv l2 Heq. destruct l2 as [|y l2 _] using rev_ind.
      - apply app_inj_tail in Heq as [-> ->]. exists t. split.
        + eapply invocation_of_same; [by apply same_registry_sym|done].
        + apply (Hdeps finished); [done|]. intros x Hx. by eapply Hresp.
      - rewrite app_comm_cons, app_assoc in Heq. apply app_inj_tail in Heq as [Heq _].
        by apply (Hprefix (t :: rest) l1 inv l2). }
    destruct Hstop as [(-> & _ & Hc)|[(x & -> & Hx & Hnone & Hc)|
      [(inv0 & msg & -> & Hi & Hf & Hc)|[(-> & _ & Hc)|(inv0 & -> & Hi & _ & Hc)]]]].
    + subst r. split; [done|]. exists new. split; [done|]. intros l1 inv l2 Heq.
      by apply (Hprefix (t :: rest) l1 inv l2).
    + exfalso. assert (x ∈ finished) as Hin by (by eapply Hresp).
      destruct (Forall2_elem_of_l _ _ _ _ Hbuilt' Hin) as (inv' & _ & _ & _ & Hsome).
      by rewrite Hnone in Hsome.
    + subst r. split; [done|]. exists (new ++ [inv0]). split; [done|]. by apply Hlast.
    + subst r. split; [done|]. exists new. split; [done|]. intros l1 inv l2 Heq.
      by apply (Hprefix (t :: rest) l1 inv l2).
    + subst r. split; [done|]. exists (new ++ [inv0]). split; [done|]. by apply Hlast.
Qed.

(** Distinct types have distinct constructors. *)
Lemma typesCtors_NoDup c : wf c → NoDup (map_to_list (typesCtors c)).*2.
Proof.
  intros Hwf. apply NoDup_fmap_2_strong; [|apply NoDup_map_to_list].
  intros [t k] [t' k'] Hk%elem_of_map_to_list Hk'%elem_of_map_to_list Heq.
  simpl in Heq. subst k'.
  destruct (wf_typesCtors _ Hwf _ _ Hk) as (ctor & Hctor & <-).
  destruct (wf_typesCtors _ Hwf _ _ Hk') as (ctor' & Hctor' & <-).
  by simplify_eq.
Qed.

Lemma ctor_indices c (l : list rtype) (new : list Invocation) :
  Forall2 (λ t inv, typesCtors c !! t = Some (inv_ctor inv)) l new →
  l ≡ₚ (map_to_list (typesCtors c)).*1 →
  inv_ctor <$> new ≡ₚ (map_to_list (typesCtors c)).*2.
Proof.
  intros Hall Hperm.
  transitivity ((λ t, default 0 (typesCtors c !! t)) <$> l).
  { clear Hperm. induction Hall as [|t inv l' new' Ht _ IH]; [done|].
    rewrite !fmap_cons, Ht. simpl. by f_equiv. }
  rewrite Hperm, <- list_fmap_compose.
  erewrite list_fmap_ext; [done|].
  intros i [t k] Hk%list_elem_of_lookup_2%elem_of_map_to_list. simpl. by rewrite Hk.
Qed.

(** Without cycles the sort reaches every registered type. *)
Lemma sorted_complete ρ c g :
  wf c → fullyRegistered c → acyclic c →
  rebuildGraph ρ c = (setGraph c g, Ok tt) →
  ∃ sortedTypes, topologicalSort ρ (setGraph c g) = (setGraph c g, Ok sortedTypes).
Proof.
  intros Hwf Hfull Hacyclic H2.
  destruct (sorted_spec ρ c g Hwf H2) as (final & Hnd & Hresp & Hmem & Hle & H4).
  assert (∀ t, is_Some (typesCtors c !! t) → t ∈ final) as Hall.
  { intros t Ht. pose proof (acyclic_Acc c Hfull Hwf Hacyclic t Ht) as Hacc.
    induction Hacc as [t _ IH]. apply Hmem. split; [done|].
    intros x Hx. apply IH; [done|].
    unfold inputsOf, ctorOf in Hx.
    destruct (typesCtors c !! t) as [k|]; simpl in Hx; [|by apply elem_of_nil in Hx].
    destruct (constructors c !! k) as [ctor|] eqn:Hk; simpl in Hx;
      [|by apply elem_of_nil in Hx].
    eapply Hfull; [|done]. by eapply list_elem_of_lookup_2. }
  exists final. rewrite H4, decide_True; [done|].
  apply Nat.le_antisymm; [done|].
  rewrite <- length_map_to_list, <- (length_fmap fst).
  apply submseteq_length, NoDup_submseteq; [apply NoDup_fst_map_to_list|].
  intros t Ht. by apply Hall, elem_of_typesCtors_keys.
Qed.

(** The constructors called for a list of distinct types are distinct, and
    all of them are constructors [typesCtors] points at. *)
Lemma ctor_indices_NoDup c (l : list rtype) (new : list Invocation) :
  wf c → NoDup l →
  Forall2 (λ t inv, typesCtors c !! t = Some (inv_ctor inv)) l new →
  NoDup (inv_ctor <$> new) ∧
  ∀ k, k ∈ inv_ctor <$> new → k ∈ (map_to_list (typesCtors c)).*2.
Proof.
  intros Hwf Hnd Hall. induction Hall as [|t inv l' new' Ht Hall IH]; simpl.
  { split; [constructor|]. by intros k ?%elem_of_nil. }
  apply NoDup_cons in Hnd as [Hfresh Hnd]. destruct (IH Hnd) as [IHnd IHin].
  split.
  - constructor; [|done]. intros (inv' & Heq & Hin)%list_elem_of_fmap.
    destruct (Forall2_elem_of_r _ _ _ _ Hall Hin) as (t' & Hin' & Ht').
    rewrite <- Heq in Ht'.
    destruct (wf_typesCtors _ Hwf _ _ Ht) as (ctor & Hctor & <-).
    destruct (wf_typesCtors _ Hwf _ _ Ht') as (ctor' & Hctor' & <-).
    by simplify_eq.
  - intros k [->|Hk]%elem_of_cons; [|by apply IHin].
    apply list_elem_of_fmap. exists (t, inv_ctor inv). split; [done|].
    by apply elem_of_map_to_list.
Qed.

(** C8 (as amended).  On a registry whose interface inputs resolve, whose
    recorded inputs all have a registered constructor and whose dependencies
    have no cycle, a [Resolve] call calls constructors that [typesCtors]
    holds, none of them twice, however many types (or argument slots) need
    the instance.  It calls every one of them, each exactly once, unless a
    constructor returned an error or the call of one panicked (a nil
    function, or a second result that cannot be tested for nil): the loop
    stops there and the constructors that come later are not called. *)
Theorem each_constructor_once ρ targetType st c1 :
  wf (container st) →
  resolveInterfaces (container st) = (c1, Ok tt) →
  fullyRegistered c1 →
  acyclic c1 →
  ∃ st' r new,
    Resolve ρ (Some targetType) st = (st', r) ∧
    calls st' = calls st ++ new ∧
    NoDup (inv_ctor <$> new) ∧
    (∀ k, k ∈ inv_ctor <$> new → k ∈ (map_to_list (typesCtors c1)).*2) ∧
    (inv_ctor <$> new ≡ₚ (map_to_list (typesCtors c1)).*2 ∨
     (∃ t msg, r = Err (ErrFailedToResolve t (ErrConstructor msg))) ∨
     (r = Panic ∧
      ((∃ t, nilFunction c1 t) ∨ (∃ inv, inv ∈ new ∧ unreadable c1 inv)))).
Proof.
  intros Hwf H1 Hfull Hacyclic.
  pose proof (wf_resolveInterfaces _ Hwf) as Hwf1.
  rewrite H1 in Hwf1. simpl in Hwf1.
  destruct (rebuildGraph_wf ρ c1 Hwf1) as (g & H2 & _).
  destruct (sorted_complete ρ c1 g Hwf1 Hfull Hacyclic H2) as (sortedTypes & H4).
  destruct (sorted_registered ρ c1 g sortedTypes Hwf1 H2 H4) as (Hnd & Hresp & Hperm).
  assert (validateDependencies ρ (setGraph c1 g) = (setGraph c1 g, Ok tt)) as H3.
  { unfold validateDependencies. rewrite checkRequired_Ok; [done|].
    intros x Hx. simpl in *.
    rewrite (shuffle_perm (range_requiredTypes ρ)), elem_of_elements in Hx.
    apply elem_of_requiredTypes in Hx as (ctor & Hctor & Hx). by eapply Hfull. }
  rewrite (Resolve_run ρ targetType st c1 (setGraph c1 g) sortedTypes) by done.
  unfold mbind, M_bind, bind.
  destruct (resolveAll sortedTypes _) as [st3 r3] eqn:Hloop.
  apply resolveAll_spec in Hloop as (Hwf3 & Hsame & finished & new & Hbuilt & Hframe & Hend);
    [|done|by apply wf_setGraph].
  simpl in Hsame, Hframe, Hbuilt.
  assert (Forall2 (λ t inv, typesCtors c1 !! t = Some (inv_ctor inv)) finished new)
    as Hfinished.
  { eapply Forall2_impl; [done|]. by intros t inv ((Ht & _) & _). }
  destruct Hend as [(-> & <- & Hcalls)|(t & rest & Hsplit & Hstop)].
  - pose proof (setTarget_state targetType st3) as Hstate.
    destruct (setTarget targetType st3) as [st' r] eqn:Htarget. simpl in Hstate. subst st'.
    destruct (ctor_indices_NoDup c1 sortedTypes new Hwf1 Hnd Hfinished) as [Hnd' Hin'].
    exists st3, r, new. split_and!; [done..|]. left. by apply (ctor_indices c1 sortedTypes).
  - subst sortedTypes. apply NoDup_app in Hnd as (Hnd1 & Hdisj & [Ht _]%NoDup_cons).
    destruct (ctor_indices_NoDup c1 finished new Hwf1 Hnd1 Hfinished) as [Hnd' Hin'].
    (* the trace when the constructor of [t] was called *)
    assert (∀ inv, invocation_of (setGraph c1 g) t inv →
              NoDup (inv_ctor <$> new ++ [inv]) ∧
              ∀ k, k ∈ inv_ctor <$> new ++ [inv] → k ∈ (map_to_list (typesCtors c1)).*2)
      as Hcalled.
    { intros inv [Hk _]. simpl in Hk.
      apply (ctor_indices_NoDup c1 (finished ++ [t])); [done| |].
      - apply NoDup_app. split_and!; [done| |apply NoDup_singleton].
        intros x Hx ->%list_elem_of_singleton. by eapply Hdisj; [|left].
      - apply Forall2_app; [done|]. by repeat constructor. }
    destruct Hstop as [(_ & Hnone & _)|[(x & _ & Hx & Hnone & _)|
      [(inv & msg & -> & Hi & Hf & Hc)|[(-> & Hnil & Hc)|(inv & -> & Hi & Hbad & Hc)]]]].
    + exfalso. simpl in Hnone. assert (t ∈ finished ++ t :: rest) as Hin
        by (apply elem_of_app; right; by left).
      rewrite Hperm in Hin. apply elem_of_typesCtors_keys in Hin as [k Hk]. congruence.
    + exfalso. simpl in Hx. assert (x ∈ finished) as Hin by (by eapply Hresp).
      destruct (Forall2_elem_of_l _ _ _ _ Hbuilt Hin) as (inv' & _ & _ & _ & Hsome).
      by rewrite Hnone in Hsome.
    + destruct (Hcalled inv Hi) as [? ?]. eexists st3, _, (new ++ [inv]).
      split_and!; [done..|]. right; left. by exists t, msg.
    + eexists st3, _, new. split_and!; [done..|]. right; right. split; [done|].
      left. by exists t.
    + destruct (Hcalled inv Hi) as [? ?]. eexists st3, _, (new ++ [inv]).
      split_and!; [done..|]. right; right. split; [done|]. right. exists inv.
      split; [|done]. apply elem_of_app. right. by left.
Qed.

(** ** Interface inputs *)

(** Slot [i] of constructor [k] is marked for interface resolution and
    holds the type [interfaceType]. *)
Definition flagged (ctors : list constructorInfo) (k i : nat) (interfaceType : rtype)
    : Prop :=
  ∃ ctor, ctors !! k = Some ctor ∧
    dependNeedsResolution ctor !! i = Some true ∧
    args (signature ctor) !! i = Some interfaceType.

(** No marked slot has been rewritten yet: each still holds the interface
    type the constructor declares.  ([Provide] marks exactly the interface
    inputs.) *)
Definition unresolved (c : Container) : Prop :=
  ∀ k i interfaceType,
    flagged (constructors c) k i interfaceType → Kind interfaceType = reflect.Interface.

(** How a pass over marked slots ends: an error for one marked slot that
    has no candidate or more than one. *)
Definition rejected (registry : list rtype) (interfaceType : rtype) (r : result unit)
    : Prop :=
  (candidates registry interfaceType = [] ∧ r = Err (ErrNoImplementation interfaceType)) ∨
  (1 < length (candidates registry interfaceType) ∧
   r = Err (ErrMultipleImplementations interfaceType (candidates registry interfaceType))).

Lemma resolveArgs_before registry flags : ∀ i args p,
  p < i → (resolveArgs registry flags i args).1 !! p = args !! p.
Proof.
  induction flags as [|flag flags IH]; intros i args p Hp; simpl; [done|].
  destruct flag; simpl; [|apply IH; lia].
  destruct (args !! i) as [interfaceType|]; [|done].
  destruct (findImplementations registry interfaceType) as [[|impl [|]]| | |]; try done.
  rewrite IH by lia. apply list_lookup_insert_ne. lia.
Qed.

Lemma resolveArgs_spec registry flags : ∀ i args args' r,
  (∀ j, flags !! j = Some true →
        ∃ interfaceType, args !! (i + j) = Some interfaceType ∧
                         Kind interfaceType = reflect.Interface) →
  resolveArgs registry flags i args = (args', r) →
  (r = Ok tt ∧
   ∀ j interfaceType, flags !! j = Some true → args !! (i + j) = Some interfaceType →
     ∃ implementation, candidates registry interfaceType = [implementation] ∧
                       args' !! (i + j) = Some implementation) ∨
  (∃ j interfaceType, flags !! j = Some true ∧ args !! (i + j) = Some interfaceType ∧
                      rejected registry interfaceType r).
Proof.
  induction flags as [|flag flags IH]; intros i args args' r Hflags Hrun; simpl in Hrun.
  { simplify_eq. left. split; [done|]. by intros j I ?. }
  assert (∀ args0 : list rtype, (∀ p, i < p → args0 !! p = args !! p) →
            ∀ j, flags !! j = Some true →
              ∃ I, args0 !! (S i + j) = Some I ∧ Kind I = reflect.Interface) as Hrest.
  { intros args0 Hsame j Hj. destruct (Hflags (S j)) as (I & HI & Hkind); [done|].
    exists I. split; [|done]. rewrite Hsame by lia. by rewrite <- HI, Nat.add_succ_r. }
  destruct flag; simpl in Hrun.
  - destruct (Hflags 0) as (I & HI & Hkind); [done|]. rewrite Nat.add_0_r in HI.
    rewrite HI, (findImplementations_interface _ _ Hkind) in Hrun.
    destruct (candidates registry I) as [|impl [|impl' impls]] eqn:Hcand.
    + simplify_eq. right. exists 0, I. rewrite Nat.add_0_r. split_and!; [done..|].
      left. by rewrite Hcand.
    + pose proof Hrun as Hrun'.
      apply IH in Hrun as [(-> & Hok)|(j & I' & Hj & HI' & Hrej)].
      * left. split; [done|]. intros [|j] I' Hj HI'.
        -- rewrite Nat.add_0_r in HI' |- *. simplify_eq. exists impl. split; [done|].
           pose proof (resolveArgs_before registry flags (S i) (<[i:=impl]> args) i) as Hb.
           rewrite Hrun' in Hb. simpl in Hb. rewrite Hb by lia.
           apply list_lookup_insert_eq. by eapply lookup_lt_Some.
        -- destruct (Hok j I') as (impl' & Hc & Hi'); [done| |].
           ++ rewrite list_lookup_insert_ne by lia. by rewrite <- HI', Nat.add_succ_r.
           ++ exists impl'. split; [done|]. by rewrite <- Hi', Nat.add_succ_r.
      * right. exists (S j), I'. split_and!; [done| |done].
        rewrite list_lookup_insert_ne in HI' by lia. by rewrite <- HI', Nat.add_succ_r.
      * apply Hrest. intros p Hp. by rewrite list_lookup_insert_ne by lia.
    + simplify_eq. right. exists 0, I. rewrite Nat.add_0_r. split_and!; [done..|].
      right. rewrite Hcand. simpl. split; [lia|done].
  - apply IH in Hrun as [(-> & Hok)|(j & I' & Hj & HI' & Hrej)]; [| |by apply Hrest].
    + left. split; [done|]. intros [|j] I' Hj HI'; [done|].
      destruct (Hok j I') as (impl' & Hc & Hi'); [done| |].
      * by rewrite <- HI', Nat.add_succ_r.
      * exists impl'. split; [done|]. by rewrite <- Hi', Nat.add_succ_r.
    + right. exists (S j), I'. split_and!; [done| |done].
      by rewrite <- HI', Nat.add_succ_r.
Qed.

Lemma resolveCtors_spec registry ctors : ∀ ctors' r,
  Forall wf_ctor ctors →
  (∀ k i interfaceType, flagged ctors k i interfaceType →
                        Kind interfaceType = reflect.Interface) →
  resolveCtors registry ctors = (ctors', r) →
  (r = Ok tt ∧
   ∀ k i interfaceType, flagged ctors k i interfaceType →
     ∃ implementation ctor',
       candidates registry interfaceType = [implementation] ∧
       ctors' !! k = Some ctor' ∧
       args (signature ctor') !! i = Some implementation) ∨
  (∃ k i interfaceType, flagged ctors k i interfaceType ∧
                        rejected registry interfaceType r).
Proof.
  induction ctors as [|ctor ctors IH]; intros ctors' r Hwf Hkinds Hrun; simpl in Hrun.
  { simplify_eq. left. split; [done|]. by intros k i I (ctor & Hctor & _). }
  apply Forall_cons in Hwf as [Hctor Hwf].
  destruct (resolveArgs _ _ _ _) as [args' r0] eqn:Hargs.
  apply resolveArgs_spec in Hargs as [(-> & Hok)|(i & I & Hi & HI & Hrej)].
  - assert (∀ k i I, flagged ctors k i I → Kind I = reflect.Interface) as Hkinds'.
    { intros k i I (ctor0 & ? & ? & ?). apply (Hkinds (S k) i I). by exists ctor0. }
    destruct (resolveCtors registry ctors) as [ctors'' r'].
    injection Hrun as <- <-.
    destruct (IH ctors'' r' Hwf Hkinds' eq_refl) as [(-> & Hok')|(k & i & I & Hflag & Hrej)].
    + left. split; [done|]. intros [|k] i I (ctor0 & Hctor0 & Hi & HI); simpl in *.
      * simplify_eq. destruct (Hok i I Hi HI) as (impl & Hcand & Himpl).
        exists impl, (setArgs ctor0 args'). by split_and!.
      * apply (Hok' k i I). by exists ctor0.
    + right. exists (S k), i, I. split; [|done].
      destruct Hflag as (ctor0 & ? & ? & ?). by exists ctor0.
  - right. exists 0, i, I. split.
    + by exists ctor.
    + destruct Hrej as [[? ->]|[? ->]]; simplify_eq; [by left|by right].
  - intros j Hj.
    destruct (lookup_lt_is_Some_2 (args (signature ctor)) j) as [I HI].
    { rewrite <- (wf_flags _ Hctor). by eapply lookup_lt_Some. }
    exists I. split; [done|]. apply (Hkinds 0 j I). by exists ctor.
Qed.



Lemma setTarget_not_InterfaceResolution targetType st e :
  (setTarget targetType st).2 ≠ Err (ErrInterfaceResolution e).
Proof.
  unfold setTarget, mbind, M_bind, bind, getContainer, raise, lift, mret, M_ret, ret.
  simpl. destruct (instances (container st) !! targetType) as [v'|]; [|done].
  by destruct (AssignableTo _ _).
Qed.

(** A container that has only been registered into has no rewritten slot:
    [Provide] marks a slot exactly when its type is an interface. *)
Lemma unresolved_provideAll l : unresolved (provideAll l).
Proof.
  unfold provideAll, unresolved.
  set (marked := λ ctor : constructorInfo,
         dependNeedsResolution ctor
         = (λ arg, bool_decide (Kind arg = reflect.Interface)) <$> args (signature ctor)).
  assert (∀ c, Forall marked (constructors c) →
               Forall marked
                 (constructors (foldl (λ c constructor, (Provide constructor c).1) c l)))
    as Hall.
  { induction l as [|constructor l IH]; intros c Hc; simpl; [done|].
    apply IH. unfold Provide. destruct constructor as [f|]; [|done].
    destruct (analyzeFunction f); try done. simpl.
    apply Forall_app. split; [done|]. by repeat constructor. }
  intros k i I (ctor & Hctor & Hflag & Harg).
  pose proof (Hall NewContainer (Forall_nil_2 _)) as Hnew.
  pose proof (proj1 (Forall_lookup _ _) Hnew _ _ Hctor) as Hmarked.
  unfold marked in Hmarked.
  rewrite Hmarked, list_lookup_fmap, Harg in Hflag. simpl in Hflag.
  injection Hflag as Hflag. by apply bool_decide_eq_true in Hflag.
Qed.

(** X24.  An input declared as an interface needs exactly one registered
    type that satisfies it, itself or through a pointer to it.  On a
    container whose marked slots still hold their interface types (one that
    was only registered into, [unresolved_provideAll]), [Resolve]
    either gets past interface resolution, and then every marked slot had
    exactly one candidate and now holds it; or it fails for a marked slot
    without candidate, with the no-implementation error; or it fails for a
    marked slot with more than one candidate, with the error that lists the
    candidates. *)
Theorem interface_needs_one_implementation ρ targetType st :
  wf (container st) →
  unresolved (container st) →
  ∃ st' r,
    Resolve ρ (Some targetType) st = (st', r) ∧
    (((∀ e, r ≠ Err (ErrInterfaceResolution e)) ∧
      ∀ k i interfaceType,
        flagged (constructors (container st)) k i interfaceType →
        ∃ implementation ctor',
          candidates (typeRegistry (container st)) interfaceType = [implementation] ∧
          constructors (container st') !! k = Some ctor' ∧
          args (signature ctor') !! i = Some implementation) ∨
     (∃ k i interfaceType,
        flagged (constructors (container st)) k i interfaceType ∧
        candidates (typeRegistry (container st)) interfaceType = [] ∧
        r = Err (ErrInterfaceResolution (ErrNoImplementation interfaceType))) ∨
     (∃ k i interfaceType,
        flagged (constructors (container st)) k i interfaceType ∧
        1 < length (candidates (typeRegistry (container st)) interfaceType) ∧
        r = Err (ErrInterfaceResolution
                   (ErrMultipleImplementations interfaceType
                      (candidates (typeRegistry (container st)) interfaceType))))).
Proof.
  intros Hwf Hunresolved.
  destruct (Resolve ρ (Some targetType) st) as [st' r] eqn:Hrun. exists st', r.
  split; [done|].
  destruct (resolveInterfaces (container st)) as [c1 r1] eqn:H1.
  pose proof H1 as Hctors. unfold resolveInterfaces in Hctors.
  destruct (resolveCtors _ _) as [ctors' r1'] eqn:Hpass. injection Hctors as <- <-.
  apply resolveCtors_spec in Hpass as [(-> & Hok)|(k & i & I & Hflag & Hrej)];
    [| |apply Hwf|done].
  - left.
    assert (constructors (container st') = ctors') as Hsame.
    { apply Resolve_cases in Hrun as [(c2 & sortedTypes & r3 & Hloop)|(_&_&_&_&Hc&_)];
        [| |done].
      - destruct Hloop as [Hwf2 _ _ Hc2 Hnd _ _ _ Hloop _].
        apply resolveAll_spec in Hloop as (_ & (Hc & _) & _); [|done..].
        simpl in Hc. by rewrite Hc, Hc2, H1.
      - by rewrite Hc, H1. }
    split.
    + intros e ->.
      apply Resolve_cases in Hrun as [(c2 & sortedTypes & r3 & Hloop)|(_&_&_&_&_&_&_&Hr&_)];
        [| |done].
      * destruct Hloop as [Hwf2 _ _ _ Hnd _ _ _ Hloop Hres].
        apply resolveAll_spec in Hloop as (_ & _ & finished & new & _ & _ & Hend);
          [|done..].
        destruct Hend as [(-> & _)|(t & rest & _ & Hstop)].
        -- by eapply setTarget_not_InterfaceResolution; rewrite Hres.
        -- destruct Hstop as [(-> & _)|[(x & -> & _)|[(inv & msg & -> & _)|
             [(-> & _)|(inv & -> & _)]]]]; done.
      * specialize (Hr e eq_refl). by rewrite H1 in Hr.
    + intros k i I Hflag. rewrite Hsame. by apply Hok.
  - right. destruct Hrej as [[Hnone ->]|[Hmany ->]];
      rewrite (Resolve_interfaces_Err ρ targetType st _ _ H1) in Hrun;
      injection Hrun as <- <-.
    + left. by exists k, i, I.
    + right. by exists k, i, I.
Qed.

(** ** Checking a concrete registry *)

Lemma fullyRegistered_Forall c :
  Forall (λ ctor, Forall (λ x, is_Some (typesCtors c !! x)) (args (signature ctor)))
         (constructors c) →
  fullyRegistered c.
Proof.
  intros Hall ctor x Hctor Hx.
  eapply Forall_forall in Hall; [|done]. by eapply Forall_forall in Hall.
Qed.

(** A numbering of the types that goes down along every dependency rules
    out cycles. *)
Lemma acyclic_rank c (rank : rtype → nat) :
  Forall (λ entry, Forall (λ x, rank x < rank entry.1) (inputsOf c entry.1))
         (map_to_list (typesCtors c)) →
  acyclic c.
Proof.
  intros Hall.
  assert (∀ t x, dependsOn c t x → rank x < rank t) as Hstep.
  { intros t x Hx. destruct (inputsOf_registered c t x Hx) as [k Hk].
    apply elem_of_map_to_list in Hk. eapply Forall_forall in Hall; [|done].
    simpl in Hall. by eapply Forall_forall in Hall. }
  assert (∀ a b, tc (dependsOn c) a b → rank b < rank a) as Htc.
  { induction 1 as [a b Hab|a m b Ham _ IH]; [by apply Hstep|].
    apply Hstep in Ham. lia. }
  intros t Ht%Htc. lia.
Qed.

(** The invariant holds after [Resolve], whatever its outcome. *)
Lemma wf_Resolve ρ target st : wf (container st) → wf (container (Resolve ρ target st).1).
Proof.
  intros Hwf. destruct target as [targetType|]; [|done].
  destruct (Resolve ρ (Some targetType) st) as [st' r] eqn:Hrun. simpl.
  apply Resolve_cases in Hrun as [(c2 & sortedTypes & r3 & Hloop)|(_&_&_&_&_&_&_&_&g&->)];
    [| |done].
  - destruct Hloop as [Hwf2 _ _ _ Hnd _ _ _ Hloop _].
    by apply resolveAll_spec in Hloop as (? & _).
  - by apply wf_setGraph, wf_resolveInterfaces.
Qed.

End Model.

Arguments value : clear implicits.
Arguments Function : clear implicits.
Arguments any : clear implicits.
Arguments Invocation : clear implicits.
Arguments error : clear implicits.
Arguments result : clear implicits.
Arguments Container _ {_ _} _.
Arguments State _ {_ _} _.
Arguments Ok {rtype A} a.
Arguments Err {rtype A} e.
Arguments Panic {rtype A}.
Arguments Diverge {rtype A}.

(** * Further properties of the container *)

Section Further.
Context {rtype : Type} `{Reflect rtype} {W : Type}.
Implicit Types (f : Function rtype W) (c : Container rtype W) (st : State rtype W).
Implicit Types (ctor : @constructorInfo rtype W) (ctors : list (@constructorInfo rtype W)).

(** ** Registration *)

(** X1.  [analyzeFunction] accepts exactly the functions with one result, a
    pointer, or with two results, a pointer and a type that implements
    [error]; the signature it returns holds the parameter types in
    declaration order and the first result type. *)
Theorem analyzeFunction_accepts f sig :
  analyzeFunction f = Ok sig ↔
  ∃ out rest, fn_out f = out :: rest ∧ Kind out = reflect.Pointer ∧
    (rest = [] ∨ ∃ second, rest = [second] ∧ implements second errorType = true) ∧
    sig = {| args := fn_in f; returnType := out |}.
Proof.
  unfold analyzeFunction.
  destruct (fn_out f) as [|out [|second [|third rest]]] eqn:Hout; simpl.
  - split; [done|]. by intros (? & ? & ? & _).
  - destruct (decide (Kind out ≠ reflect.Pointer)) as [Hk|Hk].
    + split; [done|]. intros (? & ? & [= <- <-] & ? & _). done.
    + apply dec_stable in Hk. split.
      * intros [= <-]. exists out, []. by split_and!; [| |left|].
      * intros (? & ? & [= <- <-] & _ & _ & ->). done.
  - destruct (decide (Kind out ≠ reflect.Pointer)) as [Hk|Hk].
    + split; [done|]. intros (? & ? & [= <- <-] & ? & _). done.
    + apply dec_stable in Hk.
      rewrite Implements_errorType. simpl.
      destruct (implements second errorType) eqn:Himpl; simpl; split.
      * intros [= <-]. exists out, [second]. split_and!; [done..| |done].
        right. by exists second.
      * intros (? & ? & [= <- <-] & _ & _ & ->). done.
      * done.
      * intros (? & ? & [= <- <-] & _ & [?|(? & [= <-] & ?)] & _); congruence.
  - split; [done|].
    intros (? & ? & [= <- <-] & _ & [?|(? & ? & _)] & _); done.
Qed.

(** X2.  [analyzeFunction] never panics, and each of its three errors has
    one cause, checked in this order: no result or more than two; a first
    result that is not a pointer (whatever the second result is); a second
    result that does not implement [error]. *)
Theorem analyzeFunction_rejects f :
  analyzeFunction f ≠ Panic ∧ analyzeFunction f ≠ Diverge ∧
  ∀ e, analyzeFunction f = Err e ↔
    (e = ErrReturnCount ∧ (length (fn_out f) = 0 ∨ 2 < length (fn_out f))) ∨
    (e = ErrNotPointer ∧ length (fn_out f) ≤ 2 ∧
     ∃ out, fn_out f !! 0 = Some out ∧ Kind out ≠ reflect.Pointer) ∨
    (e = ErrSecondNotError ∧
     ∃ out second, fn_out f = [out; second] ∧ Kind out = reflect.Pointer ∧
                   implements second errorType = false).
Proof.
  unfold analyzeFunction.
  destruct (fn_out f) as [|out [|second [|third rest]]] eqn:Hout; simpl.
  - split_and!; [done..|]. intros e. split.
    + intros [= <-]. left. split; [done|by left].
    + intros [[-> _]|[(_ & _ & ? & ? & _)|(_ & ? & ? & ? & _)]]; done.
  - destruct (decide (Kind out ≠ reflect.Pointer)) as [Hk|Hk].
    + split_and!; [done..|]. intros e. split.
      * intros [= <-]. right; left. split_and!; [done|lia|]. by exists out.
      * intros [[_ [?|?]]|[[-> _]|(_ & ? & ? & ? & _)]]; [done|lia|done..].
    + apply dec_stable in Hk. split_and!; [done..|]. intros e. split; [done|].
      intros [[_ [?|?]]|[(_ & _ & ? & [= <-] & ?)|(_ & ? & ? & ? & _)]];
        [done|lia|done..].
  - destruct (decide (Kind out ≠ reflect.Pointer)) as [Hk|Hk].
    + split_and!; [done..|]. intros e. split.
      * intros [= <-]. right; left. split_and!; [done|lia|]. by exists out.
      * intros [[_ [?|?]]|[[-> _]|(_ & ? & ? & [= <- <-] & ? & _)]]; [done|lia|done..].
    + apply dec_stable in Hk. rewrite Implements_errorType. simpl.
      destruct (implements second errorType) eqn:Himpl; simpl;
        (split_and!; [done..|]); intros e; split.
      * done.
      * intros [[_ [?|?]]|[(_ & _ & ? & [= <-] & ?)|(_ & ? & ? & [= <- <-] & _ & ?)]];
          [done|lia|done|congruence].
      * intros [= <-]. right; right. split; [done|]. by exists out, second.
      * intros [[_ [?|?]]|[(_ & _ & ? & [= <-] & ?)|(-> & _)]]; [done|lia|done..].
  - split_and!; [done..|]. intros e. split.
    + intros [= <-]. left. split; [done|]. right. lia.
    + intros [[-> _]|[(_ & ? & _)|(_ & ? & ? & ? & _)]]; [done|lia|done].
Qed.

Lemma analyzeFunction_total f :
  analyzeFunction f ≠ Panic ∧ analyzeFunction f ≠ Diverge.
Proof.
  unfold analyzeFunction. case_decide; [done|].
  destruct (fn_out f) as [|out rest] eqn:Hout; simpl in *; [lia|].
  case_decide; [done|]. case_decide; [|done].
  destruct rest as [|second rest]; simpl in *; [lia|].
  rewrite Implements_errorType. simpl. by destruct (implements _ _).
Qed.

(** X3.  A [Provide] that does not succeed returns an error (it never
    panics) and leaves the container as it was: the argument was not a
    function, or [analyzeFunction] rejected it and its error is wrapped. *)
Theorem Provide_rejects_without_effect (constructor : any rtype W) c :
  (Provide constructor c).2 = Ok tt ∨
  ((Provide constructor c).1 = c ∧
   ((constructor = ANotFunc ∧ (Provide constructor c).2 = Err ErrNotFunction) ∨
    ∃ f e, constructor = AFunc f ∧ analyzeFunction f = Err e ∧
           (Provide constructor c).2 = Err (ErrAnalyze e))).
Proof.
  unfold Provide. destruct constructor as [f|]; [|right; split; [done|by left]].
  destruct (analyzeFunction_total f) as [HnP HnD].
  destruct (analyzeFunction f) as [sig|e| |] eqn:Hsig; [by left| |done..].
  right. split; [done|]. right. by exists f, e.
Qed.

(** The return types of the stored constructors, in registration order. *)
Definition returnTypes (ctors : list (@constructorInfo rtype W)) : list rtype :=
  (λ ctor, returnType (signature ctor)) <$> ctors.

(** [typesCtors] points at the last constructor registered for a type. *)
Definition last_registered c : Prop :=
  ∀ t k, typesCtors c !! t = Some k ↔
    returnTypes (constructors c) !! k = Some t ∧
    ∀ k', k < k' → returnTypes (constructors c) !! k' ≠ Some t.

(** The functions a sequence of [Provide] calls accepts. *)
Definition accepted (l : list (any rtype W)) : list (Function rtype W) :=
  omap (λ constructor,
          match constructor with
          | AFunc f => match analyzeFunction f with Ok _ => Some f | _ => None end
          | ANotFunc => None
          end) l.

Lemma Provide_Ok_inv (constructor : any rtype W) c c' :
  Provide constructor c = (c', Ok tt) →
  ∃ f sig, constructor = AFunc f ∧ analyzeFunction f = Ok sig ∧
    c' = {| constructors := constructors c ++
              [{| fn := f; name := fn_name f; signature := sig;
                  dependNeedsResolution :=
                    (λ arg, bool_decide (Kind arg = reflect.Interface)) <$> args sig |}];
            instances := instances c;
            typeRegistry := typeRegistry c ++ [returnType sig];
            graph := graph c;
            typesCtors := <[returnType sig := length (constructors c)]> (typesCtors c) |}.
Proof.
  unfold Provide. destruct constructor as [f|]; [|done].
  destruct (analyzeFunction f) as [sig| | |] eqn:Hsig; try done.
  intros [= <-]. by exists f, sig.
Qed.

Lemma accepted_cons (constructor : any rtype W) l :
  accepted (constructor :: l) = accepted [constructor] ++ accepted l.
Proof.
  unfold accepted. simpl. destruct constructor as [f|]; [|done].
  by destruct (analyzeFunction f).
Qed.

Lemma Provide_cases (constructor : any rtype W) c :
  (∃ f sig, constructor = AFunc f ∧ analyzeFunction f = Ok sig ∧
            (Provide constructor c).2 = Ok tt) ∨
  ((Provide constructor c).1 = c ∧ accepted [constructor] = []).
Proof.
  unfold Provide, accepted. destruct constructor as [f|]; simpl; [|by right].
  destruct (analyzeFunction f) as [sig| | |] eqn:Hsig; simpl; try by right.
  left. by exists f, sig.
Qed.

(** X4.  After a successful [Provide] of [f] the lookup through [typesCtors]
    finds, for the first result type of [f], the constructor just stored:
    the function [f] with its parameter types as recorded inputs and its
    interface parameters marked.  The lookup for every other type, and the
    instances, are as before. *)
Theorem Provide_last_wins f c c' :
  wf c → Provide (AFunc f) c = (c', Ok tt) →
  ∃ ctor,
    ctorOf c' (returnType (signature ctor)) = Some ctor ∧
    fn ctor = f ∧ args (signature ctor) = fn_in f ∧
    fn_out f !! 0 = Some (returnType (signature ctor)) ∧
    dependNeedsResolution ctor
    = (λ arg, bool_decide (Kind arg = reflect.Interface)) <$> fn_in f ∧
    (∀ t, t ≠ returnType (signature ctor) → ctorOf c' t = ctorOf c t) ∧
    instances c' = instances c.
Proof.
  intros Hwf (f' & sig & [= <-] & Hsig & ->)%Provide_Ok_inv.
  apply analyzeFunction_Ok in Hsig as (Hargs & Hout & _).
  exists {| fn := f; name := fn_name f; signature := sig;
            dependNeedsResolution :=
              (λ arg, bool_decide (Kind arg = reflect.Interface)) <$> args sig |}.
  unfold ctorOf. simpl. split_and!.
  - rewrite lookup_insert_eq. simpl. by rewrite list_lookup_middle.
  - done.
  - done.
  - done.
  - simpl. by rewrite Hargs.
  - intros t Hne. simpl in Hne. rewrite lookup_insert_ne by done.
    destruct (typesCtors c !! t) as [k|] eqn:Hk; simpl; [|done].
    destruct (wf_typesCtors _ Hwf _ _ Hk) as (ctor & Hctor & _).
    apply lookup_app_l. by eapply lookup_lt_Some.
  - done.
Qed.

Lemma last_registered_Provide (constructor : any rtype W) c :
  length (typeRegistry c) = length (constructors c) →
  last_registered c → last_registered (Provide constructor c).1.
Proof.
  intros Hlen Hlast.
  destruct (Provide_cases constructor c) as [(f & sig & -> & Hsig & Hr)|[Hsame _]];
    [|by rewrite Hsame].
  destruct (Provide (AFunc f) c) as [c' r] eqn:Hrun. simpl in Hr. subst r.
  apply Provide_Ok_inv in Hrun as (f' & sig' & [= <-] & Hsig' & ->).
  rewrite Hsig in Hsig'. injection Hsig' as <-. simpl.
  intros t k. unfold returnTypes. simpl. rewrite fmap_app. simpl.
  fold (returnTypes (constructors c)).
  assert (length (returnTypes (constructors c)) = length (constructors c)) as Hl
    by apply length_fmap.
  destruct (decide (returnType sig = t)) as [<-|Hne].
  - rewrite lookup_insert_eq. split.
    + intros [= <-]. split.
      * rewrite <- Hl. by apply list_lookup_middle.
      * intros k' Hk'. rewrite lookup_ge_None_2; [done|].
        rewrite length_app. simpl. lia.
    + intros [Hk Hlater]. f_equal.
      destruct (decide (k = length (constructors c))) as [->|Hk']; [done|].
      exfalso. apply (Hlater (length (constructors c))).
      * apply lookup_lt_Some in Hk. rewrite length_app in Hk. simpl in Hk. lia.
      * rewrite <- Hl. by apply list_lookup_middle.
  - rewrite lookup_insert_ne by done. rewrite (Hlast t k). split.
    + intros [Hk Hlater]. split.
      * by apply lookup_app_l_Some.
      * intros k' Hk'. destruct (decide (k' < length (constructors c))) as [Hlt|Hge].
        -- rewrite lookup_app_l by lia. by apply Hlater.
        -- rewrite lookup_app_r by lia.
           destruct (k' - length (returnTypes (constructors c))) as [|n]; simpl;
             [congruence|done].
    + intros [Hk Hlater].
      assert (k < length (constructors c)) as Hlt.
      { pose proof (lookup_lt_Some _ _ _ Hk) as Hb.
        rewrite length_app in Hb. simpl in Hb.
        destruct (decide (k = length (constructors c))) as [->|?]; [|lia].
        rewrite <- Hl, list_lookup_middle in Hk by done. congruence. }
      rewrite lookup_app_l in Hk by lia. split; [done|].
      intros k' Hk' Hsome. apply (Hlater k' Hk'). by apply lookup_app_l_Some.
Qed.

Lemma foldl_Provide_registry (l : list (any rtype W)) : ∀ c,
  typeRegistry c = returnTypes (constructors c) → last_registered c →
  let c' := foldl (λ c constructor, (Provide constructor c).1) c l in
  fn <$> constructors c' = (fn <$> constructors c) ++ accepted l ∧
  typeRegistry c' = returnTypes (constructors c') ∧
  last_registered c' ∧ instances c' = instances c.
Proof.
  induction l as [|constructor l IH]; intros c Hreg Hlast.
  { simpl. by rewrite app_nil_r. }
  cbn [foldl]. rewrite accepted_cons.
  pose proof (last_registered_Provide constructor c) as Hlast'.
  destruct (Provide_cases constructor c) as [(f & sig & -> & Hsig & Hr)|[Hsame Hnone]].
  - destruct (Provide (AFunc f) c) as [c1 r] eqn:Hrun. simpl in Hr, Hlast'. subst r.
    pose proof Hrun as (f' & sig' & [= <-] & Hsig' & Hc1)%Provide_Ok_inv.
    rewrite Hsig in Hsig'. injection Hsig' as <-.
    unfold accepted at 1. simpl. rewrite Hsig. simpl.
    destruct (IH c1) as (Hfn & Hreg' & Hlast'' & Hinst).
    + rewrite Hc1. simpl. unfold returnTypes. rewrite fmap_app. simpl. by rewrite Hreg.
    + apply Hlast'; [|done]. rewrite Hreg. apply length_fmap.
    + split_and!; [|done..|by rewrite Hinst, Hc1]. rewrite Hfn, Hc1. simpl.
      rewrite fmap_app. simpl. by rewrite <- app_assoc.
  - rewrite Hsame, Hnone. by apply IH.
Qed.

Lemma last_registered_NewContainer : last_registered (@NewContainer rtype _ _ W).
Proof.
  intros t k. simpl. rewrite lookup_empty, lookup_nil. split; [done|by intros [? _]].
Qed.

Lemma last_registered_provideAll (l : list (any rtype W)) :
  last_registered (provideAll l).
Proof.
  by destruct (foldl_Provide_registry l NewContainer eq_refl last_registered_NewContainer)
    as (_ & _ & ? & _).
Qed.

(** X5.  A container built by a sequence of [Provide] calls holds one
    constructor per accepted function, in the order of the calls;
    [typeRegistry] lists their return types in the same order (a type as
    often as it was registered); [typesCtors] points, for each type, at the
    last constructor registered for it; and there is no instance yet. *)
Theorem provideAll_registry (l : list (any rtype W)) :
  fn <$> constructors (provideAll l) = accepted l ∧
  typeRegistry (provideAll l) = returnTypes (constructors (provideAll l)) ∧
  last_registered (provideAll l) ∧
  instances (provideAll l) = ∅.
Proof.
  apply (foldl_Provide_registry l NewContainer eq_refl last_registered_NewContainer).
Qed.

(** ** Every call of [Resolve] ends *)

Lemma findImplementations_not_interface_eq (registry : list rtype) interfaceType :
  Kind interfaceType ≠ reflect.Interface →
  findImplementations registry interfaceType
  = if decide (Forall (λ typ, Kind typ = reflect.Interface) registry)
    then Ok [] else Panic.
Proof.
  intros Hkind. induction registry as [|typ registry IH]; simpl.
  - done.
  - destruct (decide (Kind typ = reflect.Interface)) as [Hi|Hi].
    + rewrite IH. destruct (decide (Forall _ registry)) as [Hall|Hall].
      * rewrite decide_True; [done|]. by constructor.
      * rewrite decide_False; [done|]. by intros [_ ?]%Forall_cons.
    + unfold Implements. rewrite (decide_False (P := Kind interfaceType = _)) by done.
      simpl. rewrite decide_False; [done|]. by intros [? _]%Forall_cons.
Qed.

(** X6.  [findImplementations] returns the registered types that satisfy
    the interface when it is handed an interface type.  Handed any other
    type it panics in [Implements], unless the registry holds nothing but
    interface types (then the loop skips every entry and the result is
    empty). *)
Theorem findImplementations_cases (registry : list rtype) interfaceType :
  findImplementations registry interfaceType
  = if decide (Kind interfaceType = reflect.Interface)
    then Ok (candidates registry interfaceType)
    else if decide (Forall (λ typ, Kind typ = reflect.Interface) registry)
         then Ok [] else Panic.
Proof.
  case_decide.
  - by apply findImplementations_interface.
  - by apply findImplementations_not_interface_eq.
Qed.

Lemma findImplementations_total (registry : list rtype) interfaceType :
  findImplementations registry interfaceType ≠ Diverge ∧
  ∀ e, findImplementations registry interfaceType ≠ Err e.
Proof.
  destruct (decide (Kind interfaceType = reflect.Interface)).
  - by rewrite findImplementations_interface.
  - rewrite findImplementations_not_interface_eq by done. by case_decide.
Qed.

Lemma resolveArgs_total (registry : list rtype) flags : ∀ i args,
  (resolveArgs registry flags i args).2 ≠ Diverge.
Proof.
  induction flags as [|flag flags IH]; intros i args; simpl; [done|].
  destruct flag; simpl; [|done].
  destruct (args !! i) as [interfaceType|]; [|done].
  destruct (findImplementations_total registry interfaceType) as [HnD _].
  destruct (findImplementations registry interfaceType) as [[|impl [|]]| | |]; try done.
Qed.

Lemma resolveCtors_total (registry : list rtype) (ctors : list (@constructorInfo rtype W)) :
  (resolveCtors registry ctors).2 ≠ Diverge.
Proof.
  induction ctors as [|ctor ctors IH]; simpl; [done|].
  pose proof (resolveArgs_total registry (dependNeedsResolution ctor) 0
                (args (signature ctor))) as HnD.
  destruct (resolveArgs _ _ _ _) as [args' r]. simpl in HnD.
  destruct r; try done. by destruct (resolveCtors registry ctors).
Qed.

Lemma gatherArgs_total typ (ctor : @constructorInfo rtype W) (insts : gmap rtype (value rtype))
    indices :
  gatherArgs typ ctor insts indices ≠ Diverge.
Proof.
  induction indices as [|i indices IH]; simpl; [done|].
  destruct (args (signature ctor) !! i); [|done].
  destruct (insts !! _); [|done].
  by destruct (gatherArgs typ ctor insts indices).
Qed.

Lemma resolveInstance_total typ st : (resolveInstance typ st).2 ≠ Diverge.
Proof.
  unfold resolveInstance, mbind, M_bind, bind, getContainer, raise, lift. simpl.
  destruct (typesCtors (container st) !! typ) as [k|]; [|done].
  destruct (constructors (container st) !! k) as [ctor|]; [|done]. simpl.
  pose proof (gatherArgs_total typ ctor (instances (container st))
                (seq 0 (length (fn_in (fn ctor))))) as HnD.
  destruct (gatherArgs _ _ _ _) as [vs| | |]; try done. simpl.
  unfold Call. destruct (fn_nil (fn ctor)); [done|]. case_bool_decide; [|done].
  destruct (fn_body (fn ctor) vs (world st)) as [[ptr err] w']. simpl.
  destruct (returnedError_cases (fn ctor) err) as [(failure & -> & _)| ->]; [|done].
  simpl. destruct failure; [done|]. unfold storeInstance. simpl.
  by destruct (fn_out (fn ctor) !! 0).
Qed.

Lemma resolveAll_total sortedTypes : ∀ st, (resolveAll sortedTypes st).2 ≠ Diverge.
Proof.
  induction sortedTypes as [|t l IH]; intros st; [done|].
  rewrite resolveAll_cons. pose proof (resolveInstance_total t st) as HnD.
  destruct (resolveInstance t st) as [st1 [[]| | |]]; try done.
Qed.

Lemma setTarget_total targetType st :
  (setTarget targetType st).2 ≠ Diverge ∧ (setTarget targetType st).2 ≠ Panic.
Proof.
  unfold setTarget, mbind, M_bind, bind, getContainer, raise, lift, mret, M_ret, ret.
  simpl. destruct (instances (container st) !! targetType) as [v|]; [|done].
  by destruct (AssignableTo _ _).
Qed.

(** X7.  Every call of [Resolve] ends: the number of rounds the model allows
    the queue loop of [topologicalSort] is never used up, and no other loop
    of the pipeline is unbounded. *)
Theorem Resolve_terminates ρ target st : (Resolve ρ target st).2 ≠ Diverge.
Proof.
  destruct target as [targetType|]; [|done].
  unfold Resolve, mbind, M_bind, bind, wrap, onContainer. simpl.
  pose proof (resolveCtors_total (typeRegistry (container st))
                (constructors (container st))) as Hd1.
  unfold resolveInterfaces.
  destruct (resolveCtors _ _) as [ctors r1]. simpl in Hd1.
  destruct r1 as [[]| | |]; simpl; try done.
  unfold rebuildGraph.
  pose proof (rebuildLoop_result ctors
                (shuffle (range_typesCtors ρ)
                   (map_to_list (typesCtors (setConstructors (container st) ctors))))
                {| dependencies := ∅; dependents := ∅ |}) as Hr2.
  simpl in *.
  destruct (rebuildLoop _ _ _) as [g r2]. simpl in *.
  destruct Hr2 as [-> | ->]; simpl; [|done].
  match goal with |- context [checkRequired ?m ?l] =>
    destruct (checkRequired_cases m l) as [-> |[x ->]] end; simpl; [|done].
  match goal with |- context [topologicalSort ρ ?c] =>
    pose proof (topologicalSort_total ρ c) as Hd4;
    destruct (topologicalSort ρ c) as [c4 r4] end.
  simpl in Hd4. destruct r4 as [sortedTypes| | |]; simpl; try done.
  match goal with |- context [resolveAll sortedTypes ?s] =>
    pose proof (resolveAll_total sortedTypes s) as Hd5;
    destruct (resolveAll sortedTypes s) as [st5 r5] end.
  simpl in Hd5. destruct r5 as [[]| | |]; simpl; try done.
  apply setTarget_total.
Qed.

(** ** How a call of [Resolve] can end *)

(** A call that ends before the instantiation loop: where it ended. *)
Definition ended_early (ρ : Ranges) st (r : result rtype (value rtype)) : Prop :=
  (r = Panic ∧ (resolveInterfaces (container st)).2 = Panic) ∨
  (∃ e, r = Err (ErrInterfaceResolution e) ∧
        (resolveInterfaces (container st)).2 = Err e) ∨
  (r = Panic ∧ (resolveInterfaces (container st)).2 = Ok tt ∧
   (rebuildGraph ρ (resolveInterfaces (container st)).1).2 = Panic) ∨
  (∃ x, r = Err (ErrMissingConstructor x)) ∨
  (∃ processed total, r = Err (ErrDependencyResolution (ErrCircular processed total))).

Lemma topologicalSort_Err ρ c e :
  (topologicalSort ρ c).2 = Err e → ∃ processed total, e = ErrCircular processed total.
Proof.
  unfold topologicalSort. destruct (processQueue _ _ _ _ _); [|done].
  case_decide; [|done]. simpl. intros [= <-]. by eexists _, _.
Qed.

Lemma topologicalSort_no_Panic ρ c : (topologicalSort ρ c).2 ≠ Panic.
Proof.
  unfold topologicalSort. destruct (processQueue _ _ _ _ _); [|done]. by case_decide.
Qed.

Lemma Resolve_early ρ targetType st st' r :
  Resolve ρ (Some targetType) st = (st', r) →
  (∃ c1 c2 sortedTypes,
     resolveInterfaces (container st) = (c1, Ok tt) ∧
     rebuildGraph ρ c1 = (c2, Ok tt) ∧
     validateDependencies ρ c2 = (c2, Ok tt) ∧
     topologicalSort ρ c2 = (c2, Ok sortedTypes) ∧
     (resolveAll sortedTypes;; setTarget targetType) (setContainer c2 st) = (st', r)) ∨
  (calls st' = calls st ∧ world st' = world st ∧
   instances (container st') = instances (container st) ∧ ended_early ρ st r ∧
   ∃ g, container st' = setGraph (resolveInterfaces (container st)).1 g).
Proof.
  unfold Resolve, mbind, M_bind, bind, wrap, onContainer, ended_early. simpl.
  pose proof (resolveInterfaces_static (container st)) as (Hi1 & _).
  pose proof (resolveCtors_total (typeRegistry (container st))
                (constructors (container st))) as Hd1.
  destruct (resolveInterfaces (container st)) as [c1 r1] eqn:H1.
  assert (∀ c : Container rtype W, c = setGraph c (graph c)) as Heta by (by intros []).
  assert (r1 ≠ Diverge) as Hd1'.
  { unfold resolveInterfaces in H1. destruct (resolveCtors _ _). by simplify_eq. }
  clear Hd1. simpl in Hi1.
  destruct r1 as [[]|e| |]; simpl; [| | |done].
  2:{ intros [= <- <-]. right. split_and!; [done..| |by exists (graph c1)]. right; left. by exists e. }
  2:{ intros [= <- <-]. right. split_and!; [done..| |by exists (graph c1)]. by left. }
  pose proof (rebuildGraph_static ρ c1) as Hg.
  destruct (rebuildGraph ρ c1) as [c2 r2] eqn:H2. simpl in Hg.
  assert (instances c2 = instances (container st)) as Hi2 by (by rewrite Hg).
  assert (r2 = Ok tt ∨ r2 = Panic) as Hr2.
  { pose proof (rebuildLoop_result (constructors c1)
      (shuffle (range_typesCtors ρ) (map_to_list (typesCtors c1)))
      {| dependencies := ∅; dependents := ∅ |}) as Hr.
    unfold rebuildGraph in H2. destruct (rebuildLoop _ _ _). by simplify_eq. }
  destruct Hr2 as [-> | ->]; simpl.
  2:{ intros [= <- <-]. right. split_and!; [done..| |by exists (graph c2)]. right; right; left. done. }
  destruct (checkRequired_cases (typesCtors c2)
              (shuffle (range_requiredTypes ρ)
                 (elements (requiredTypes (constructors c2)))))
    as [H3|[x H3]]; rewrite H3; simpl.
  2:{ intros [= <- <-]. right. split_and!; [done..| |by exists (graph c2)].
      right; right; right; left. by exists x. }
  pose proof (topologicalSort_static ρ c2) as Hs.
  pose proof (topologicalSort_total ρ c2) as Hd4.
  pose proof (topologicalSort_no_Panic ρ c2) as Hp4.
  pose proof (topologicalSort_Err ρ c2) as He4.
  destruct (topologicalSort ρ c2) as [c3 r4] eqn:H4. simpl in Hs, Hd4, Hp4, He4. subst c3.
  destruct r4 as [sortedTypes|e| |]; simpl; [| |done..].
  2:{ intros [= <- <-]. destruct (He4 e eq_refl) as (n & m & ->).
      right. split_and!; [done..| |by exists (graph c2)].
      right; right; right; right. by exists n, m. }
  intros Hrun. left. exists c1, c2, sortedTypes. unfold validateDependencies.
  by rewrite H3.
Qed.

Lemma Resolve_stages ρ targetType st st' r :
  wf (container st) →
  Resolve ρ (Some targetType) st = (st', r) →
  (∃ c2 sortedTypes r3, reached_loop ρ targetType st st' r c2 sortedTypes r3) ∨
  (calls st' = calls st ∧ world st' = world st ∧
   instances (container st') = instances (container st) ∧ ended_early ρ st r ∧
   ∃ g, container st' = setGraph (resolveInterfaces (container st)).1 g).
Proof.
  intros Hwf Hrun.
  apply Resolve_early in Hrun as [(c1 & c2 & sortedTypes & H1 & H2 & H3 & H4 & Hrun)|?];
    [left|by right].
  pose proof (wf_resolveInterfaces _ Hwf) as Hwf1.
  pose proof (resolveInterfaces_static (container st)) as (Hi1 & _ & Ht1 & _).
  rewrite H1 in Hwf1, Hi1, Ht1. simpl in Hwf1, Hi1, Ht1.
  destruct (rebuildGraph_wf ρ c1 Hwf1) as (g & H2' & _).
  rewrite H2 in H2'. injection H2' as ->.
  destruct (sorted_registered ρ c1 g sortedTypes Hwf1 H2 H4) as (Hnd & Hresp & Hperm).
  unfold mbind, M_bind, bind in Hrun.
  destruct (resolveAll sortedTypes _) as [st3 r3] eqn:Hloop.
  assert (st' = st3) as ->.
  { destruct r3 as [[]| | |]; try by simplify_eq.
    pose proof (setTarget_state targetType st3) as Hs. by rewrite Hrun in Hs. }
  exists (setGraph c1 g), sortedTypes, r3. split; simpl; try done.
  - by apply wf_setGraph.
  - by rewrite H1.
  - intros t. by rewrite Hperm, elem_of_typesCtors_keys.
  - destruct r3 as [[]| | |]; by simplify_eq.
Qed.

Lemma resolveInterfaces_unresolved c :
  wf c → unresolved c →
  (resolveInterfaces c).2 = Ok tt ∨
  ∃ interfaceType, rejected (typeRegistry c) interfaceType (resolveInterfaces c).2.
Proof.
  intros Hwf Hun. unfold resolveInterfaces.
  destruct (resolveCtors _ _) as [ctors' r1] eqn:Hpass. simpl.
  apply resolveCtors_spec in Hpass as [(-> & _)|(k & i & I & _ & Hrej)];
    [by left| |apply Hwf|done].
  right. by exists I.
Qed.

Lemma rebuildGraph_no_Panic ρ c : wf c → (rebuildGraph ρ c).2 = Ok tt.
Proof. intros Hwf. by destruct (rebuildGraph_wf ρ c Hwf) as (g & -> & _). Qed.

(** A function value [resolveInstance] cannot call and read: a nil function,
    or one with more than one result whose last result type implements
    [error] and has no nil. *)
Definition uncallable f : Prop :=
  fn_nil f = true ∨
  (1 < length (fn_out f) ∧
   ∃ lastType, last (fn_out f) = Some lastType ∧
     implements lastType errorType = true ∧ hasNil (Kind lastType) = false).

Lemma returnedError_Panic f err : returnedError f err = Panic → uncallable f.
Proof.
  unfold returnedError, uncallable. case_decide as Hlen; [|done].
  destruct (last (fn_out f)) as [lastType|] eqn:Hlast.
  - rewrite Implements_errorType. simpl.
    destruct (implements lastType errorType) eqn:Himpl; [|done].
    unfold IsNil. destruct (hasNil (Kind lastType)) eqn:Hkind; [done|].
    intros _. right. split; [done|]. by exists lastType.
  - apply last_None in Hlast. rewrite Hlast in Hlen. simpl in Hlen. lia.
Qed.

(** The instantiation loop on a sorted list: it runs through, or a
    constructor returned an error, or the call of a constructor panicked. *)
Lemma loop_end ρ targetType st st' r c2 sortedTypes r3 :
  reached_loop ρ targetType st st' r c2 sortedTypes r3 →
  wf (container st') ∧ same_registry c2 (container st') ∧
  ∃ finished new,
    Forall2 (built c2 st') finished new ∧
    (∀ x, x ∉ finished →
          instances (container st') !! x = instances (container st) !! x) ∧
    ((r3 = Ok tt ∧ sortedTypes = finished ∧ calls st' = calls st ++ new ∧
      setTarget targetType st' = (st', r)) ∨
     (∃ typ msg inv, r = Err (ErrFailedToResolve typ (ErrConstructor msg)) ∧
        calls st' = calls st ++ new ++ [inv] ∧
        invocation_of c2 typ inv ∧ failed c2 inv msg) ∨
     (r = Panic ∧
      ((calls st' = calls st ++ new ∧ ∃ typ, nilFunction c2 typ) ∨
       (∃ typ inv, calls st' = calls st ++ new ++ [inv] ∧
          invocation_of c2 typ inv ∧ unreadable c2 inv)))).
Proof.
  intros [Hwf2 Hinst _ _ Hnd Hresp Hsorted _ Hrun Hres].
  apply resolveAll_spec in Hrun as (Hwf' & Hsame & finished & new & Hbuilt & Hframe & Hend);
    [|done..].
  simpl in Hsame, Hframe, Hbuilt. split_and!; [done..|].
  exists finished, new. split_and!; [done| |].
  { intros x Hx. by rewrite Hframe, Hinst. }
  destruct Hend as [(-> & -> & Hcalls)|(t & rest & Hsplit & Hstop)]; [by left|].
  destruct Hstop as [(-> & Hnone & Hc)|[(x & -> & Hx & Hnone & Hc)|
    [(inv0 & msg & -> & Hi & Hf & Hc)|[(-> & Hnil & Hc)|(inv0 & -> & Hi & Hbad & Hc)]]]].
  - exfalso. simpl in Hnone.
    assert (is_Some (typesCtors c2 !! t)) as [k Hk]; [|congruence].
    apply Hsorted. rewrite Hsplit. apply elem_of_app. right. by left.
  - exfalso. simpl in Hx. assert (x ∈ finished) as Hin by (by eapply Hresp).
    destruct (Forall2_elem_of_l _ _ _ _ Hbuilt Hin) as (inv' & _ & _ & _ & Hsome).
    by rewrite Hnone in Hsome.
  - right; left. exists t, msg, inv0. by split_and!.
  - right; right. split; [done|]. left. split; [done|]. by exists t.
  - right; right. split; [done|]. right. by exists t, inv0.
Qed.

(** A panic in the loop comes from a registered function that cannot be
    called and read. *)
Lemma loop_panic_cause ρ targetType st st' r c2 sortedTypes r3 typ :
  reached_loop ρ targetType st st' r c2 sortedTypes r3 →
  (nilFunction c2 typ ∨ ∃ inv, invocation_of c2 typ inv ∧ unreadable c2 inv) →
  ∃ ctor, ctorOf (container st) typ = Some ctor ∧ uncallable (fn ctor).
Proof.
  intros Hloop Hcause.
  pose proof (loop_typesCtors _ _ _ _ _ _ _ _ Hloop) as Htypes.
  pose proof (loop_constructors _ _ _ _ _ _ _ _ Hloop) as Hctors.
  pose proof (resolveInterfaces_static (container st)) as (_ & _ & _ & _ & Hsame).
  rewrite <- Hctors in Hsame.
  assert (∃ k ctor2, typesCtors c2 !! typ = Some k ∧ constructors c2 !! k = Some ctor2 ∧
                     uncallable (fn ctor2)) as (k & ctor2 & Hk & Hctor2 & Hbad).
  { destruct Hcause as [(k & ctor2 & Hk & Hctor2 & Hnil)|(inv & [Hk _] & (ctor2 & Hctor2 & Hbad))].
    - exists k, ctor2. split_and!; [done..|]. by left.
    - exists (inv_ctor inv), ctor2. split_and!; [done..|]. by eapply returnedError_Panic. }
  destruct (Forall2_lookup_r _ _ _ _ _ Hsame Hctor2) as (ctor & Hctor & Hfn & _).
  exists ctor. unfold ctorOf. rewrite <- Htypes, Hk. simpl. split; [done|].
  by rewrite <- Hfn.
Qed.

(** X8.  How [Resolve] can end on a container that was only registered
    into: the target is not a non-nil pointer; an interface input has no
    implementation or several; a constructor is missing; there is a cycle; a
    constructor returned an error; there is no instance for the target;
    [Resolve] succeeds; or it panics, and then some registered function is
    nil or has a second result that implements [error] and has no nil.  The
    errors [no constructor registered], [dependency not resolved] and [not
    assignable] are never returned. *)
Theorem Resolve_outcomes ρ target st st' r :
  wf (container st) → unresolved (container st) →
  Resolve ρ target st = (st', r) →
  (target = None ∧ r = Err ErrTarget) ∨
  (∃ interfaceType,
     r = Err (ErrInterfaceResolution (ErrNoImplementation interfaceType)) ∨
     ∃ implementations,
       r = Err (ErrInterfaceResolution
                  (ErrMultipleImplementations interfaceType implementations))) ∨
  (∃ depType, r = Err (ErrMissingConstructor depType)) ∨
  (∃ processed total, r = Err (ErrDependencyResolution (ErrCircular processed total))) ∨
  (∃ typ msg, r = Err (ErrFailedToResolve typ (ErrConstructor msg))) ∨
  (∃ targetType, target = Some targetType ∧ r = Err (ErrNoInstance targetType)) ∨
  (∃ v, r = Ok v) ∨
  (r = Panic ∧
   ∃ typ ctor, ctorOf (container st) typ = Some ctor ∧ uncallable (fn ctor)).
Proof.
  intros Hwf Hun Hrun. destruct target as [targetType|].
  2:{ left. injection Hrun as _ <-. done. }
  right.
  pose proof (resolveInterfaces_unresolved _ Hwf Hun) as H1.
  pose proof (rebuildGraph_no_Panic ρ _ (wf_resolveInterfaces _ Hwf)) as H2.
  apply Resolve_stages in Hrun as [(c2 & sortedTypes & r3 & Hloop)|(_ & _ & _ & Hearly & _)];
    [| |done].
  - pose proof Hloop as (Hwf' & _ & finished & new & _ & _ & Hend)%loop_end.
    destruct Hend as [(_ & _ & _ & Htarget)|[(typ & msg & inv & -> & _)|(-> & Hcause)]].
    + revert Htarget.
      unfold setTarget, mbind, M_bind, bind, getContainer, raise, lift, mret, M_ret, ret.
      simpl. destruct (instances (container st') !! targetType) as [v|] eqn:Hv.
      * apply (wf_instances _ Hwf') in Hv. rewrite Hv, AssignableTo_refl.
        intros [= <-]. do 5 right. left. by exists v.
      * intros [= <-]. do 4 right. left. by exists targetType.
    + do 3 right. left. by exists typ, msg.
    + do 6 right. split; [done|].
      destruct Hcause as [[_ [typ Hnil]]|(typ & inv & _ & Hi & Hbad)]; exists typ.
      * eapply loop_panic_cause; [done|]. by left.
      * eapply loop_panic_cause; [done|]. right. by exists inv.
  - destruct Hearly as [[-> Hp]|[(e & -> & He)|[(-> & _ & Hp)|[(x & ->)|(n & m & ->)]]]].
    + destruct H1 as [H1|(I & [[_ H1]|[_ H1]])]; congruence.
    + left. destruct H1 as [H1|(I & [[_ H1]|[_ H1]])]; [congruence|..];
        rewrite He in H1; injection H1 as ->; exists I; [by left|right; by eexists].
    + congruence.
    + right; left. by exists x.
    + do 2 right. left. by exists n, m.
Qed.

(** X9.  Where a panic of [Resolve] comes from, on a well-formed container:
    when the interface pass panics [Resolve] panics, and when [Resolve]
    panics either the interface pass did, or some registered function is
    nil or has a second result that implements [error] and has no nil (the
    panic is then in [reflect.Value.Call] or in [IsNil]).  Nothing else
    panics: no constructor is looked up through a dangling pointer, and every
    argument passed to [Call] is assignable to its parameter. *)
Theorem Resolve_panic_causes ρ targetType st :
  wf (container st) →
  ((resolveInterfaces (container st)).2 = Panic →
   (Resolve ρ (Some targetType) st).2 = Panic) ∧
  ((Resolve ρ (Some targetType) st).2 = Panic →
   (resolveInterfaces (container st)).2 = Panic ∨
   ∃ typ ctor, ctorOf (container st) typ = Some ctor ∧ uncallable (fn ctor)).
Proof.
  intros Hwf. split.
  - unfold Resolve, mbind, M_bind, bind, wrap, onContainer. simpl.
    by destruct (resolveInterfaces (container st)) as [c1 [[]| | |]].
  - destruct (Resolve ρ (Some targetType) st) as [st' r] eqn:Hrun. simpl. intros ->.
    pose proof (rebuildGraph_no_Panic ρ _ (wf_resolveInterfaces _ Hwf)) as H2.
    apply Resolve_stages in Hrun as [(c2 & sortedTypes & r3 & Hloop)|(_ & _ & _ & Hearly & _)];
      [| |done].
    + right. pose proof Hloop as (_ & _ & finished & new & _ & _ & Hend)%loop_end.
      destruct Hend as [(_ & _ & _ & Htarget)|[(typ & msg & inv & ? & _)|(_ & Hcause)]];
        [|done|].
      * destruct (setTarget_total targetType st') as [_ HnP]. by rewrite Htarget in HnP.
      * destruct Hcause as [[_ [typ Hnil]]|(typ & inv & _ & Hi & Hbad)]; exists typ.
        -- eapply loop_panic_cause; [done|]. by left.
        -- eapply loop_panic_cause; [done|]. right. by exists inv.
    + left. destruct Hearly as [[_ Hp]|[(e & ? & _)|[(_ & _ & Hp)|[(x & ?)|(n & m & ?)]]]];
        try done. congruence.
Qed.

(** X10.  A successful [Resolve] returns the instance the cache holds for the
    target type, and that instance has the target type.  If the target type
    has a constructor, the instance was built by a call made during this
    [Resolve]; if it has none, the instance was in the cache before. *)
Theorem Resolve_returns_cached ρ targetType st st' v :
  wf (container st) →
  Resolve ρ (Some targetType) st = (st', Ok v) →
  instances (container st') !! targetType = Some v ∧ val_type v = targetType ∧
  (is_Some (typesCtors (container st) !! targetType) →
   ∃ new inv, calls st' = calls st ++ new ∧ inv ∈ new ∧
     invocation_of (container st') targetType inv ∧ val_ptr v = inv_ptr inv) ∧
  (typesCtors (container st) !! targetType = None →
   instances (container st) !! targetType = Some v).
Proof.
  intros Hwf Hrun.
  apply Resolve_stages in Hrun as [(c2 & sortedTypes & r3 & Hloop)|(_ & _ & _ & Hearly & _)];
    [| |done].
  2:{ destruct Hearly as [[? _]|[(e & ? & _)|[(? & _)|[(x & ?)|(n & m & ?)]]]]; done. }
  pose proof (loop_sorted _ _ _ _ _ _ _ _ Hloop) as Hsorted.
  pose proof (loop_typesCtors _ _ _ _ _ _ _ _ Hloop) as Htypes.
  apply loop_end in Hloop as (Hwf' & Hsame & finished & new & Hbuilt & Hframe & Hend).
  destruct Hend as [(_ & -> & Hcalls & Htarget)|[(typ & msg & inv & ? & _)|(? & _)]];
    [|done..].
  apply setTarget_Ok in Htarget. split_and!; [done|by apply (wf_instances _ Hwf')| |].
  - rewrite <- Htypes. intros Hin%Hsorted.
    destruct (Forall2_elem_of_l _ _ _ _ Hbuilt Hin) as (inv & Hinv & Hi & _ & Hsome).
    exists new, inv. split_and!; [done..| |].
    + eapply invocation_of_same; [by apply same_registry_sym|done].
    + rewrite Htarget in Hsome. by injection Hsome as ->.
  - rewrite <- Htypes. intros Hnone. rewrite <- Hframe; [done|].
    intros [k Hk]%Hsorted. congruence.
Qed.

(** X11.  [Resolve] for a type that has neither a constructor nor a cached
    instance never succeeds, and the target is looked at last: when the
    error is [no instance found], every registered constructor has been
    called and its instance is in the cache. *)
Theorem unregistered_target_fails_last ρ targetType st st' r :
  wf (container st) →
  Resolve ρ (Some targetType) st = (st', r) →
  typesCtors (container st) !! targetType = None →
  instances (container st) !! targetType = None →
  (∀ v, r ≠ Ok v) ∧
  (r = Err (ErrNoInstance targetType) →
   ∃ new, calls st' = calls st ++ new ∧
     ∀ t, is_Some (typesCtors (container st) !! t) →
          ∃ inv, inv ∈ new ∧ built (container st') st' t inv).
Proof.
  intros Hwf Hrun Hnone Hinst.
  apply Resolve_stages in Hrun as [(c2 & sortedTypes & r3 & Hloop)|(_ & _ & _ & Hearly & _)];
    [| |done].
  2:{ destruct Hearly as [[-> _]|[(e & -> & _)|[(-> & _)|[(x & ->)|(n & m & ->)]]]]; done. }
  pose proof (loop_sorted _ _ _ _ _ _ _ _ Hloop) as Hsorted.
  pose proof (loop_typesCtors _ _ _ _ _ _ _ _ Hloop) as Htypes.
  apply loop_end in Hloop as (Hwf' & Hsame & finished & new & Hbuilt & Hframe & Hend).
  destruct Hend as [(_ & -> & Hcalls & Htarget)|[(typ & msg & inv & -> & _)|(-> & _)]];
    [|done..].
  assert (instances (container st') !! targetType = None) as Hnone'.
  { rewrite Hframe; [done|]. intros [k Hk]%Hsorted. congruence. }
  split.
  - intros v ->. apply setTarget_Ok in Htarget. congruence.
  - intros _. exists new. split; [done|]. intros t Ht. rewrite <- Htypes in Ht.
    apply Hsorted in Ht.
    destruct (Forall2_elem_of_l _ _ _ _ Hbuilt Ht) as (inv & Hin & Hb).
    exists inv. split; [done|]. by eapply built_same.
Qed.

(** ** What [Resolve] leaves alone *)

(** From [st] to [st']: the registry is the same, calls were added to the
    trace and no instance was dropped. *)
Definition grows st st' : Prop :=
  same_registry (container st) (container st') ∧
  (∃ new, calls st' = calls st ++ new) ∧
  (∀ x, is_Some (instances (container st) !! x) →
        is_Some (instances (container st') !! x)).

Lemma grows_refl st : grows st st.
Proof. split_and!; [done| |done]. exists []. by rewrite app_nil_r. Qed.

Lemma grows_trans st1 st2 st3 : grows st1 st2 → grows st2 st3 → grows st1 st3.
Proof.
  intros (Hr & [new Hc] & Hi) (Hr' & [new' Hc'] & Hi'). split_and!.
  - by eapply same_registry_trans.
  - exists (new ++ new'). by rewrite Hc', Hc, <- app_assoc.
  - auto.
Qed.

Lemma resolveInstance_grows typ st : grows st (resolveInstance typ st).1.
Proof.
  unfold resolveInstance, mbind, M_bind, bind, getContainer, raise, lift. simpl.
  destruct (typesCtors (container st) !! typ) as [k|]; [|apply grows_refl].
  destruct (constructors (container st) !! k) as [ctor|]; [|apply grows_refl]. simpl.
  destruct (gatherArgs _ _ _ _) as [vs| | |]; try apply grows_refl. simpl.
  unfold Call. destruct (fn_nil (fn ctor)); [apply grows_refl|].
  case_bool_decide; [|apply grows_refl].
  destruct (fn_body (fn ctor) vs (world st)) as [[ptr err] w']. simpl.
  destruct (returnedError_cases (fn ctor) err) as [(failure & -> & _)| ->]; simpl.
  2:{ split_and!; [done|by eexists|done]. }
  destruct failure; simpl.
  { split_and!; [done|by eexists|done]. }
  unfold storeInstance. simpl.
  destruct (fn_out (fn ctor) !! 0); simpl.
  - split_and!; [done|by eexists|]. simpl. intros x Hx.
    destruct (decide (typ = x)) as [<-|Hne].
    + rewrite lookup_insert_eq. by eexists.
    + by rewrite lookup_insert_ne.
  - split_and!; [done|by eexists|done].
Qed.

Lemma resolveAll_grows sortedTypes : ∀ st, grows st (resolveAll sortedTypes st).1.
Proof.
  induction sortedTypes as [|t l IH]; intros st; [apply grows_refl|].
  rewrite resolveAll_cons. pose proof (resolveInstance_grows t st) as Hstep.
  destruct (resolveInstance t st) as [st1 [[]| | |]]; simpl in *; try done.
  eapply grows_trans; [done|apply IH].
Qed.

Lemma Resolve_static ρ target st :
  typesCtors (container (Resolve ρ target st).1) = typesCtors (container st) ∧
  typeRegistry (container (Resolve ρ target st).1) = typeRegistry (container st) ∧
  Forall2 same_function (constructors (container st))
          (constructors (container (Resolve ρ target st).1)) ∧
  (∃ new, calls (Resolve ρ target st).1 = calls st ++ new) ∧
  (∀ x, is_Some (instances (container st) !! x) →
        is_Some (instances (container (Resolve ρ target st).1) !! x)).
Proof.
  assert (∀ ctors : list (@constructorInfo rtype W), Forall2 same_function ctors ctors)
    as Hrefl.
  { intros ctors. apply Forall_Forall2_diag, Forall_forall. by intros ctor _. }
  destruct target as [targetType|].
  2:{ simpl. split_and!; [done..| |done]. exists []. by rewrite app_nil_r. }
  destruct (Resolve ρ (Some targetType) st) as [st' r] eqn:Hrun. simpl.
  pose proof (resolveInterfaces_static (container st)) as (Hi1 & Hr1 & Ht1 & _ & Hsame).
  pose proof Hrun as [(c1 & c2 & sortedTypes & H1 & H2 & _ & _ & Hloop)|Hearly]%Resolve_early.
  - rewrite H1 in Hi1, Hr1, Ht1, Hsame. simpl in *.
    pose proof (rebuildGraph_static ρ c1) as Hg. rewrite H2 in Hg. simpl in Hg.
    unfold mbind, M_bind, bind in Hloop.
    pose proof (resolveAll_grows sortedTypes (setContainer c2 st)) as Hgrows.
    destruct (resolveAll sortedTypes _) as [st3 r3] eqn:Hall. simpl in Hgrows.
    assert (st' = st3) as ->.
    { destruct r3 as [[]| | |]; try by simplify_eq.
      pose proof (setTarget_state targetType st3) as Hs. by rewrite Hloop in Hs. }
    destruct Hgrows as ((Hc & Ht & Hr & _) & Hcalls & Hinst). simpl in *.
    rewrite Hc, Ht, Hr, Hg. simpl. split_and!; [done..|].
    intros x Hx. apply Hinst. rewrite Hg. simpl. by rewrite Hi1.
  - destruct Hearly as (Hc & _ & Hi & _ & g & Hg).
    rewrite Hg. simpl. rewrite Hr1, Ht1. split_and!; [done..| |].
    + exists []. by rewrite app_nil_r.
    + intros x. by rewrite <- Hi, Hg.
Qed.

(** X12.  What [Resolve] leaves alone, whatever its outcome: [typesCtors] and
    [typeRegistry] are unchanged, the stored constructors keep their
    function, name, return type, marks and number of inputs (only input
    slots are rewritten), the trace of calls is extended, and no type loses
    its instance. *)
Theorem Resolve_footprint ρ target st :
  typesCtors (container (Resolve ρ target st).1) = typesCtors (container st) ∧
  typeRegistry (container (Resolve ρ target st).1) = typeRegistry (container st) ∧
  Forall2 same_function (constructors (container st))
          (constructors (container (Resolve ρ target st).1)) ∧
  (∃ new, calls (Resolve ρ target st).1 = calls st ++ new) ∧
  (∀ x, is_Some (instances (container st) !! x) →
        is_Some (instances (container (Resolve ρ target st).1) !! x)).
Proof. apply Resolve_static. Qed.

(** ** The interface pass, slot by slot *)

Lemma resolveArgs_unflagged (registry : list rtype) flags : ∀ i args p,
  (p < i ∨ flags !! (p - i) ≠ Some true) →
  (resolveArgs registry flags i args).1 !! p = args !! p.
Proof.
  induction flags as [|flag flags IH]; intros i args p Hp; simpl; [done|].
  assert (p = i → flag = false) as Hflag.
  { intros ->. destruct Hp as [?|Hp]; [lia|]. rewrite Nat.sub_diag in Hp.
    simpl in Hp. destruct flag; [done|done]. }
  assert (p < S i ∨ flags !! (p - S i) ≠ Some true) as Hp'.
  { destruct (decide (p ≤ i)); [left; lia|right]. destruct Hp as [?|Hp]; [lia|].
    replace (p - i) with (S (p - S i)) in Hp by lia. done. }
  destruct flag; simpl; [|by apply IH].
  destruct (args !! i) as [interfaceType|]; [|done].
  destruct (findImplementations registry interfaceType) as [[|impl [|]]| | |]; try done.
  rewrite IH by done. apply list_lookup_insert_ne. intros ->. by specialize (Hflag eq_refl).
Qed.

(** X13.  [resolveInterfaces] only writes marked input slots: every
    constructor keeps its function, name, return type and marks, and every
    slot that is not marked holds what it held, also when the pass fails
    half-way. *)
Theorem resolveInterfaces_frame c :
  Forall2 (λ ctor ctor',
             same_function ctor ctor' ∧
             ∀ i, dependNeedsResolution ctor !! i ≠ Some true →
                  args (signature ctor') !! i = args (signature ctor) !! i)
          (constructors c) (constructors (resolveInterfaces c).1).
Proof.
  unfold resolveInterfaces.
  generalize (typeRegistry c). intros registry.
  assert (∀ ctors,
            Forall2 (λ ctor ctor',
                       same_function ctor ctor' ∧
                       ∀ i, dependNeedsResolution ctor !! i ≠ Some true →
                            args (signature ctor') !! i = args (signature ctor) !! i)
                    ctors (resolveCtors registry ctors).1) as Hall.
  { clear. induction ctors as [|ctor ctors IH]; simpl; [constructor|].
    pose proof (resolveArgs_length registry (dependNeedsResolution ctor) 0
                  (args (signature ctor))) as Hlen.
    pose proof (resolveArgs_unflagged registry (dependNeedsResolution ctor) 0
                  (args (signature ctor))) as Hsame.
    destruct (resolveArgs _ _ _ _) as [args' r]. simpl in Hlen, Hsame.
    assert (same_function ctor (setArgs ctor args') ∧
            ∀ i, dependNeedsResolution ctor !! i ≠ Some true →
                 args (signature (setArgs ctor args')) !! i
                 = args (signature ctor) !! i) as Hhead.
    { split; [by split_and!|]. intros i Hi. simpl. apply Hsame. right.
      by rewrite Nat.sub_0_r. }
    assert (Forall2 (λ ctor ctor',
                       same_function ctor ctor' ∧
                       ∀ i, dependNeedsResolution ctor !! i ≠ Some true →
                            args (signature ctor') !! i = args (signature ctor) !! i)
                    ctors ctors) as Hrest.
    { apply Forall_Forall2_diag, Forall_forall. intros ctor' _. by split. }
    destruct r; [|by constructor..].
    destruct (resolveCtors registry ctors) as [ctors' r']. by constructor. }
  specialize (Hall (constructors c)).
  by destruct (resolveCtors registry (constructors c)).
Qed.

Lemma resolveArgs_no_flags (registry : list rtype) flags : ∀ i args,
  Forall (λ flag, flag = false) flags → resolveArgs registry flags i args = (args, Ok tt).
Proof.
  induction flags as [|flag flags IH]; intros i args Hflags; simpl; [done|].
  apply Forall_cons in Hflags as [-> Hflags]. simpl. by apply IH.
Qed.

(** X14.  When no input slot is marked (no registered function has an
    interface parameter), [resolveInterfaces] succeeds and changes
    nothing. *)
Theorem resolveInterfaces_without_interfaces c :
  Forall (λ ctor, Forall (λ flag, flag = false) (dependNeedsResolution ctor))
         (constructors c) →
  resolveInterfaces c = (c, Ok tt).
Proof.
  intros Hflags. unfold resolveInterfaces.
  assert (resolveCtors (typeRegistry c) (constructors c) = (constructors c, Ok tt)) as ->.
  { generalize (typeRegistry c). intros registry.
    induction Hflags as [|ctor ctors Hctor _ IH]; simpl; [done|].
    rewrite resolveArgs_no_flags by done. rewrite IH.
    by destruct ctor as [? ? [] ?]. }
  by destruct c.
Qed.

(** ** A second interface pass *)

Lemma findImplementations_Panic (registry : list rtype) interfaceType typ :
  Kind interfaceType ≠ reflect.Interface →
  typ ∈ registry → Kind typ ≠ reflect.Interface →
  findImplementations registry interfaceType = Panic.
Proof.
  intros Hk Hin Ht. rewrite findImplementations_not_interface_eq by done.
  rewrite decide_False; [done|]. intros Hall. by eapply Forall_forall in Hall.
Qed.

Lemma resolveArgs_resolved (registry : list rtype) flags : ∀ i args,
  (∀ j, flags !! j = Some true →
        ∃ x, args !! (i + j) = Some x ∧ findImplementations registry x = Panic) →
  resolveArgs registry flags i args
  = (args, if decide (true ∈ flags) then Panic else Ok tt).
Proof.
  induction flags as [|flag flags IH]; intros i args Hflags; simpl.
  { done. }
  destruct flag; simpl.
  - destruct (Hflags 0) as (x & Hx & Hfind); [done|]. rewrite Nat.add_0_r in Hx.
    by rewrite Hx, Hfind.
  - rewrite IH.
    + f_equal. destruct (decide (true ∈ flags)) as [Hin|Hout].
      * rewrite decide_True; [done|]. by right.
      * rewrite decide_False; [done|]. by intros [?|?]%elem_of_cons.
    + intros j Hj. destruct (Hflags (S j)) as (x & Hx & Hfind); [done|].
      exists x. split; [|done]. by rewrite <- Hx, Nat.add_succ_r.
Qed.

Lemma resolveCtors_resolved (registry : list rtype) ctors :
  (∀ k i x, flagged ctors k i x → findImplementations registry x = Panic) →
  Forall (λ ctor, length (dependNeedsResolution ctor) = length (args (signature ctor)))
         ctors →
  (∃ k i x, flagged ctors k i x) →
  (resolveCtors registry ctors).2 = Panic.
Proof.
  induction ctors as [|ctor ctors IH]; intros Hpanic Hlen (k & i & x & Hflag).
  { by destruct Hflag as (? & ? & _). }
  apply Forall_cons in Hlen as [Hlen0 Hlen]. simpl.
  rewrite resolveArgs_resolved.
  2:{ intros j Hj. destruct (lookup_lt_is_Some_2 (args (signature ctor)) j) as [y Hy].
      { rewrite <- Hlen0. by eapply lookup_lt_Some. }
      exists y. split; [done|]. apply (Hpanic 0 j y). by exists ctor. }
  destruct (decide (true ∈ dependNeedsResolution ctor)) as [Hin|Hout]; [done|].
  assert ((resolveCtors registry ctors).2 = Panic) as Htail.
  { apply IH; [|done|].
    - intros k' i' x' (ctor' & ? & ? & ?). apply (Hpanic (S k') i' x'). by exists ctor'.
    - destruct Hflag as (ctor' & Hctor' & Hi & Hx). destruct k as [|k]; simpl in *.
      + injection Hctor' as <-. exfalso. apply Hout. by eapply list_elem_of_lookup_2.
      + exists k, i, x. by exists ctor'. }
  by destruct (resolveCtors registry ctors).
Qed.

(** X15.  [resolveInterfaces] works once.  On a container that was only
    registered into and has at least one interface input, after a [Resolve]
    that got past interface resolution (whether or not it then succeeded),
    every further [Resolve] panics: the marked slot now holds a pointer type
    and is handed to [Implements] again. *)
Theorem second_Resolve_panics ρ ρ' targetType targetType' st st' r :
  wf (container st) → unresolved (container st) →
  (∃ k i interfaceType, flagged (constructors (container st)) k i interfaceType) →
  Resolve ρ (Some targetType) st = (st', r) →
  (∀ e, r ≠ Err (ErrInterfaceResolution e)) →
  (Resolve ρ' (Some targetType') st').2 = Panic.
Proof.
  intros Hwf Hun Hsome Hrun Hpassed.
  pose proof (wf_Resolve ρ (Some targetType) st Hwf) as Hwf'.
  pose proof (Resolve_static ρ (Some targetType) st) as (_ & Hreg & Hsame & _).
  rewrite Hrun in Hwf', Hreg, Hsame. simpl in Hwf', Hreg, Hsame.
  (* the first pass rewrote every marked slot *)
  assert (∀ k i I, flagged (constructors (container st)) k i I →
            ∃ implementation ctor',
              candidates (typeRegistry (container st)) I = [implementation] ∧
              constructors (container st') !! k = Some ctor' ∧
              args (signature ctor') !! i = Some implementation) as Hok.
  { destruct (resolveInterfaces (container st)) as [c1 r1] eqn:H1.
    pose proof H1 as Hctors. unfold resolveInterfaces in Hctors.
    destruct (resolveCtors _ _) as [ctors' r1'] eqn:Hpass. injection Hctors as <- <-.
    apply resolveCtors_spec in Hpass as [(-> & Hok)|(k & i & I & Hflag & Hrej)];
      [| |apply Hwf|done].
    - assert (constructors (container st') = ctors') as ->; [|done].
      apply Resolve_cases in Hrun as [(c2 & sortedTypes & r3 & Hloop)|(_&_&_&_&Hc&_)];
        [| |done].
      + destruct Hloop as [Hwf2 _ _ Hc2 Hnd _ _ _ Hloop _].
        apply resolveAll_spec in Hloop as (_ & (Hc & _) & _); [|done..].
        simpl in Hc. by rewrite Hc, Hc2, H1.
      + by rewrite Hc, H1.
    - exfalso. destruct Hrej as [[_ ->]|[_ ->]];
        rewrite (Resolve_interfaces_Err ρ targetType st _ _ H1) in Hrun;
        injection Hrun as _ <-; by eapply Hpassed. }
  (* so every marked slot now holds a registered pointer type *)
  assert (∀ k i x, flagged (constructors (container st')) k i x →
            x ∈ typeRegistry (container st') ∧ Kind x ≠ reflect.Interface) as Hslots.
  { intros k i x (ctor' & Hctor' & Hi & Hx).
    destruct (Forall2_lookup_r _ _ _ _ _ Hsame Hctor') as (ctor & Hctor & Hfn).
    destruct Hfn as (_ & _ & _ & Hflags & Hlen).
    destruct (lookup_lt_is_Some_2 (args (signature ctor)) i) as [I HI].
    { rewrite <- Hlen. by eapply lookup_lt_Some. }
    destruct (Hok k i I) as (impl & ctor'' & Hcand & Hctor'' & Himpl).
    { exists ctor. by rewrite <- Hflags. }
    simplify_eq.
    assert (x ∈ candidates (typeRegistry (container st)) I) as Hin
      by (rewrite Hcand; by left).
    pose proof Hin as [_ Hin']%list_elem_of_filter.
    split; [by rewrite Hreg|].
    rewrite (wf_registry_pointer (container st) x Hwf Hin'). done. }
  assert ((resolveInterfaces (container st')).2 = Panic) as Hpanic.
  { unfold resolveInterfaces.
    pose proof (resolveCtors_resolved (typeRegistry (container st'))
                  (constructors (container st'))) as Hpass.
    destruct (resolveCtors _ _) as [ctors'' r'']. simpl in *. apply Hpass.
    - intros k i x Hflag. destruct (Hslots k i x Hflag) as [Hin Hkind].
      by apply (findImplementations_Panic _ x x).
    - eapply Forall_impl; [apply Hwf'|]. intros ctor Hctor. apply Hctor.
    - destruct Hsome as (k & i & I & Hflag).
      destruct (Hok k i I Hflag) as (impl & ctor' & _ & Hctor' & Himpl).
      exists k, i, impl, ctor'. split_and!; [done| |done].
      destruct Hflag as (ctor & Hctor & Hi & _).
      destruct (Forall2_lookup_l _ _ _ _ _ Hsame Hctor) as (ctor'' & ? & Hfn).
      destruct Hfn as (_ & _ & _ & Hflags & _). simplify_eq. by rewrite Hflags. }
  unfold Resolve, mbind, M_bind, bind, wrap, onContainer. simpl.
  by destruct (resolveInterfaces (container st')) as [c1 [[]| | |]].
Qed.

(** ** The stages one by one *)

(** X16.  [rebuildGraph] on a well-formed container succeeds, changes
    nothing but the graph and discards the old graph: [dependencies] maps
    exactly the registered types to the recorded inputs of their
    constructor, and [dependents] is its inverse, with multiplicities (a
    type that is an input of [t] twice has [t] among its dependents
    twice). *)
Theorem rebuildGraph_spec ρ c :
  wf c →
  ∃ g, rebuildGraph ρ c = (setGraph c g, Ok tt) ∧
    (∀ t, dependencies g !! t = (λ ctor, args (signature ctor)) <$> ctorOf c t) ∧
    (∀ x t, occurrences t (dependentsOf g x) = occurrences x (inputsOf c t)).
Proof.
  intros Hwf. destruct (rebuildGraph_wf ρ c Hwf) as (g & Hrun & Hinv & Hdeps & Hkeys).
  exists g. split_and!; [done| |].
  - intros t. specialize (Hdeps t). specialize (Hkeys t).
    unfold inputsOf, ctorOf in *.
    destruct (typesCtors c !! t) as [k|] eqn:Hk; simpl in *.
    + destruct (wf_typesCtors _ Hwf _ _ Hk) as (ctor & Hctor & _).
      rewrite Hctor in Hdeps |- *. simpl in *.
      destruct (dependencies g !! t) as [l|]; simpl in *; [by subst|].
      destruct Hkeys as [_ Hs]. by destruct Hs.
    + destruct (dependencies g !! t) as [l|]; [|done].
      destruct Hkeys as [Hs _]. by destruct Hs.
  - intros x t. rewrite (Hinv x t). unfold depsOf. by rewrite Hdeps.
Qed.

Lemma checkRequired_spec (m : gmap rtype nat) required :
  (checkRequired m required = Ok tt ∧ ∀ x, x ∈ required → is_Some (m !! x)) ∨
  (∃ x, checkRequired m required = Err (ErrMissingConstructor x) ∧
        x ∈ required ∧ m !! x = None).
Proof.
  induction required as [|y l IH]; simpl.
  - left. split; [done|]. by intros x ?%elem_of_nil.
  - destruct (m !! y) as [k|] eqn:Hy.
    + destruct IH as [[-> Hall]|(x & -> & Hin & Hnone)].
      * left. split; [done|]. intros x [->|Hx]%elem_of_cons; [by eexists|by apply Hall].
      * right. exists x. split_and!; [done|by right|done].
    + right. exists y. split_and!; [done|by left|done].
Qed.

(** X17.  [validateDependencies] does not change the container.  It succeeds
    exactly when every recorded input of every stored constructor
    (overwritten ones included) has a registered constructor; otherwise the
    type its error names is such an input without constructor. *)
Theorem validateDependencies_decides ρ c :
  (validateDependencies ρ c).1 = c ∧
  (((validateDependencies ρ c).2 = Ok tt ∧ fullyRegistered c) ∨
   (∃ depType ctor,
      (validateDependencies ρ c).2 = Err (ErrMissingConstructor depType) ∧
      ctor ∈ constructors c ∧ depType ∈ args (signature ctor) ∧
      typesCtors c !! depType = None)).
Proof.
  unfold validateDependencies. simpl. split; [done|].
  destruct (checkRequired_spec (typesCtors c)
              (shuffle (range_requiredTypes ρ) (elements (requiredTypes (constructors c)))))
    as [[-> Hall]|(x & -> & Hin & Hnone)].
  - left. split; [done|]. intros ctor x Hctor Hx. apply Hall.
    rewrite (shuffle_perm (range_requiredTypes ρ)), elem_of_elements.
    apply elem_of_requiredTypes. by exists ctor.
  - right. rewrite (shuffle_perm (range_requiredTypes ρ)), elem_of_elements in Hin.
    apply elem_of_requiredTypes in Hin as (ctor & Hctor & Hx). by exists x, ctor.
Qed.

(** ** The sort and the order of map iteration *)

Lemma sorted_included (deps : rtype → list rtype) (node : rtype → Prop)
    (l l' : list rtype) :
  respects deps l →
  (∀ t, t ∈ l → node t) →
  (∀ t, t ∈ l' ↔ node t ∧ ∀ x, x ∈ deps t → x ∈ l') →
  ∀ t, t ∈ l → t ∈ l'.
Proof.
  intros Hresp Hnode Hmem'.
  assert (∀ before rest, l = before ++ rest → ∀ t, t ∈ before → t ∈ l') as Hprefix.
  { induction before as [|t before IH] using rev_ind; intros rest Heq x Hx.
    { by apply elem_of_nil in Hx. }
    rewrite <- app_assoc in Heq. simpl in Heq.
    apply elem_of_app in Hx as [Hx|Hx]; [by eapply IH|].
    apply list_elem_of_singleton in Hx as ->.
    apply Hmem'. split.
    - apply Hnode. rewrite Heq. apply elem_of_app. right. by left.
    - intros y Hy. eapply IH; [done|]. by eapply Hresp. }
  intros t Ht. apply (Hprefix l []); [by rewrite app_nil_r|done].
Qed.

(** X18.  On a graph whose [dependents] is the inverse of its
    [dependencies], the outcome of [topologicalSort] does not depend on the
    order in which Go iterates over the maps: two runs both succeed, with
    lists that are permutations of each other, or both fail with the same
    error (the same number of processed types). *)
Theorem topologicalSort_order_independent ρ ρ' c :
  graph_inverse (graph c) →
  match (topologicalSort ρ c).2, (topologicalSort ρ' c).2 with
  | Ok sortedTypes, Ok sortedTypes' => sortedTypes ≡ₚ sortedTypes'
  | Err e, Err e' => e = e'
  | _, _ => False
  end.
Proof.
  intros Hinv.
  destruct (topologicalSort_spec ρ c Hinv) as (l & Hnd & Hresp & Hmem & ->).
  destruct (topologicalSort_spec ρ' c Hinv) as (l' & Hnd' & Hresp' & Hmem' & ->).
  simpl.
  assert (l ≡ₚ l') as Hperm.
  { apply NoDup_Permutation; [done..|]. intros t. split.
    - apply (sorted_included (depsOf (graph c))
               (λ t, t ∈ typeRegistry c ∨ is_Some (dependencies (graph c) !! t)));
        [done| |done].
      intros x Hx. by apply Hmem.
    - apply (sorted_included (depsOf (graph c))
               (λ t, t ∈ typeRegistry c ∨ is_Some (dependencies (graph c) !! t)));
        [done| |done].
      intros x Hx. by apply Hmem'. }
  rewrite <- (Permutation_length Hperm).
  by case_decide.
Qed.

(** ** The second result of a constructor *)

(** X19.  For a function that [analyzeFunction] accepted, what
    [resolveInstance] reads off the last result: a one-result constructor
    never counts as failed; the second result of a two-result constructor is
    always taken for an error (the test [Implements] agrees with the one
    [Provide] made) and is handed to [IsNil], which gives the error back
    when the type of the second result has a nil and panics when it has
    none ([Provide] accepts such a type). *)
Theorem returnedError_accepted f sig err :
  analyzeFunction f = Ok sig →
  returnedError f err
  = match fn_out f with
    | [_; secondOut] => if hasNil (Kind secondOut) then Ok err else Panic
    | _ => Ok None
    end.
Proof.
  unfold analyzeFunction, returnedError.
  destruct (fn_out f) as [|out [|second [|third rest]]] eqn:Hout; simpl; try done.
  case_decide; [done|]. rewrite Implements_errorType. simpl.
  destruct (implements second errorType); [|done]. intros _. simpl.
  unfold IsNil. destruct (hasNil (Kind second)); [|done]. simpl.
  by case_bool_decide; subst.
Qed.

(** ** [MustProvide] *)

(** X20.  [MustProvide] changes the container as [Provide] does.  It returns
    normally for an accepted function, and panics, with the container
    untouched, for anything else. *)
Theorem MustProvide_spec (constructor : any rtype W) c :
  (MustProvide constructor c).1 = (Provide constructor c).1 ∧
  (((MustProvide constructor c).2 = Ok tt ∧ accepted [constructor] ≠ []) ∨
   ((MustProvide constructor c).2 = Panic ∧ (MustProvide constructor c).1 = c ∧
    accepted [constructor] = [])).
Proof.
  unfold MustProvide.
  destruct (Provide_cases constructor c) as [(f & sig & -> & Hsig & Hr)|[Hsame Hnone]].
  - destruct (Provide (AFunc f) c) as [c' r]. simpl in Hr. subst r. simpl.
    split; [done|]. left. split; [done|]. unfold accepted. simpl. by rewrite Hsig.
  - destruct (Provide constructor c) as [c' r] eqn:Hrun. simpl in Hsame. subst c'.
    assert (r = Err ErrNotFunction ∨ (∃ e, r = Err (ErrAnalyze e))) as Hr.
    { unfold Provide, accepted in *. destruct constructor as [f|]; [|left; by simplify_eq].
      destruct (analyzeFunction_total f) as [HnP HnD]. simpl in Hnone.
      destruct (analyzeFunction f) as [sig|e| |]; try done. right. exists e. by simplify_eq. }
    destruct Hr as [-> |[e ->]]; simpl; (split; [done|]); right; by split_and!.
Qed.

(** ** Overwritten registrations *)

(** X22.  A constructor whose registration was overwritten is never called:
    every call in the trace of a [Resolve] is a call of the constructor
    registered last for its return type. *)
Theorem overwritten_never_called ρ targetType st st' r new inv :
  wf (container st) → last_registered (container st) →
  Resolve ρ (Some targetType) st = (st', r) →
  calls st' = calls st ++ new → inv ∈ new →
  ∃ t, returnTypes (constructors (container st)) !! inv_ctor inv = Some t ∧
       ∀ k', inv_ctor inv < k' →
             returnTypes (constructors (container st)) !! k' ≠ Some t.
Proof.
  intros Hwf Hlast Hrun Hcalls Hin.
  assert (∃ t, typesCtors (container st) !! t = Some (inv_ctor inv)) as [t Ht].
  { apply Resolve_stages in Hrun as [(c2 & sortedTypes & r3 & Hloop)|(Hc & _)]; [| |done].
    2:{ rewrite Hc in Hcalls. rewrite <- (app_nil_r (calls st)) in Hcalls at 1.
        apply app_inv_head in Hcalls. subst new. by apply elem_of_nil in Hin. }
    pose proof (loop_typesCtors _ _ _ _ _ _ _ _ Hloop) as Htypes.
    apply loop_end in Hloop as (_ & _ & finished & new' & Hbuilt & _ & Hend).
    assert (inv ∈ new' → ∃ t, typesCtors (container st) !! t = Some (inv_ctor inv))
      as Hprefix.
    { intros Hin'. destruct (Forall2_elem_of_r _ _ _ _ Hbuilt Hin') as (t & _ & Hi & _).
      exists t. rewrite <- Htypes. apply Hi. }
    assert (∀ typ inv0, invocation_of c2 typ inv0 → inv ∈ new' ++ [inv0] →
              ∃ t, typesCtors (container st) !! t = Some (inv_ctor inv)) as Hfinal.
    { intros typ inv0 Hi [Hin'|Hin']%elem_of_app; [by apply Hprefix|].
      apply list_elem_of_singleton in Hin' as ->. exists typ. rewrite <- Htypes. apply Hi. }
    destruct Hend as [(_ & _ & Hc & _)|[(typ & msg & inv0 & _ & Hc & Hi & _)|
      (_ & [[Hc _]|(typ & inv0 & Hc & Hi & _)])]];
      rewrite Hc in Hcalls; apply app_inv_head in Hcalls; subst new;
      [by apply Hprefix|by eapply Hfinal|by apply Hprefix|by eapply Hfinal]. }
  exists t. by apply Hlast.
Qed.

(** ** Programs: any sequence of [Provide] and [Resolve] calls *)

Inductive operation :=
  | DoProvide (constructor : any rtype W)
  | DoResolve (ρ : Ranges) (target : option rtype).

Definition perform (st : State rtype W) (op : operation) : State rtype W :=
  match op with
  | DoProvide constructor => setContainer (Provide constructor (container st)).1 st
  | DoResolve ρ target => (Resolve ρ target st).1
  end.

(** The state after the operations [ops], starting with [NewContainer]. *)
Definition program (ops : list operation) (w : W) : State rtype W :=
  foldl perform {| container := NewContainer; world := w; calls := [] |} ops.

Lemma returnTypes_same ctors ctors' :
  Forall2 same_function ctors ctors' → returnTypes ctors' = returnTypes ctors.
Proof.
  induction 1 as [|ctor ctor' ctors ctors' (_ & _ & Hret & _) _ IH]; [done|].
  unfold returnTypes in *. rewrite !fmap_cons. by rewrite Hret, IH.
Qed.

(** X23.  Whatever sequence of [Provide] and [Resolve] calls a program makes
    on a new container, and however the calls end, the container stays
    well-formed, [typesCtors] points at the last constructor registered for
    each type, and [typeRegistry] lists the return types of the stored
    constructors in order. *)
Theorem program_invariant (ops : list operation) (w : W) :
  wf (container (program ops w)) ∧
  last_registered (container (program ops w)) ∧
  typeRegistry (container (program ops w))
  = returnTypes (constructors (container (program ops w))).
Proof.
  unfold program.
  assert (∀ st, wf (container st) → last_registered (container st) →
                typeRegistry (container st) = returnTypes (constructors (container st)) →
                let st' := foldl perform st ops in
                wf (container st') ∧ last_registered (container st') ∧
                typeRegistry (container st') = returnTypes (constructors (container st')))
    as Hall.
  { induction ops as [|op ops IH]; intros st Hwf Hlast Hreg; [done|].
    cbn [foldl]. destruct op as [constructor|ρ target]; simpl.
    - apply IH; simpl.
      + by apply wf_Provide.
      + apply last_registered_Provide; [|done]. rewrite Hreg. apply length_fmap.
      + destruct (Provide_cases constructor (container st))
          as [(f & sig & -> & Hsig & Hr)|[-> _]]; [|done].
        destruct (Provide (AFunc f) (container st)) as [c' r] eqn:Hrun.
        simpl in Hr. subst r.
        apply Provide_Ok_inv in Hrun as (f' & sig' & _ & _ & ->).
        simpl. unfold returnTypes. rewrite fmap_app. simpl. by rewrite Hreg.
    - destruct (Resolve_static ρ target st) as (Ht & Hr & Hsame & _). apply IH.
      + by apply wf_Resolve.
      + intros t k. rewrite Ht, (returnTypes_same _ _ Hsame). apply Hlast.
      + by rewrite Hr, (returnTypes_same _ _ Hsame). }
  apply Hall; simpl.
  - apply wf_NewContainer.
  - apply last_registered_NewContainer.
  - done.
Qed.

End Further.

(** * The programs of the repository as inputs *)

(** The types of the test suite and of the examples: named struct and
    interface types, and pointers to them. *)
Inductive ty :=
  | Named (isInterface : bool) (n : string)
  | Ptr (elem : ty).

#[global] Instance ty_eq_dec : EqDecision ty.
Proof. solve_decision. Defined.

Fixpoint ty_encode (t : ty) : nat * (bool * string) :=
  match t with
  | Named b n => (0, (b, n))
  | Ptr t' => let '(d, base) := ty_encode t' in (S d, base)
  end.

Fixpoint ty_decode_depth (d : nat) (base : bool * string) : ty :=
  match d with
  | 0 => Named base.1 base.2
  | S d' => Ptr (ty_decode_depth d' base)
  end.

Definition ty_decode (p : nat * (bool * string)) : ty := ty_decode_depth p.1 p.2.

Lemma ty_decode_encode t : ty_decode (ty_encode t) = t.
Proof.
  induction t as [b n|t IH]; [done|].
  simpl. destruct (ty_encode t) as [d base]. unfold ty_decode in *. simpl in *.
  by rewrite IH.
Defined.

#[global] Instance ty_countable : Countable ty :=
  inj_countable' ty_encode ty_decode ty_decode_encode.

Definition ty_Kind (t : ty) : reflect.Kind :=
  match t with
  | Named true _ => reflect.Interface
  | Named false _ => reflect.Struct
  | Ptr _ => reflect.Pointer
  end.

(** The method sets of the test suite: [*FileStorage] has [Save], so it
    implements [Storage]; [*MemoryStorage] is a second implementation for the
    ambiguous case.  An interface type implements itself (so [error]
    implements [error]).  One type more than the test suite has: a struct
    [ValidationError] with a method [Error() string] on the value, so that
    both it and the pointer to it implement [error].  No other type has
    methods. *)
Definition ty_implements (t u : ty) : bool :=
  match t, u with
  | Ptr (Named false s), Named true i =>
    bool_decide ((s, i) ∈ [("FileStorage", "Storage"); ("MemoryStorage", "Storage");
                           ("ValidationError", "error")])
  | Named false s, Named true i => bool_decide ((s, i) ∈ [("ValidationError", "error")])
  | Named true i, Named true j => bool_decide (i = j)
  | _, _ => false
  end.

Definition ty_AssignableTo (t u : ty) : bool :=
  bool_decide (t = u) || ty_implements t u.

#[global, refine] Instance ty_reflect : Reflect ty := {|
  Kind := ty_Kind;
  implements := ty_implements;
  PointerTo := Ptr;
  AssignableTo := ty_AssignableTo;
  errorType := Named true "error"
|}.
Proof.
  - done.
  - intros t. unfold ty_AssignableTo. by rewrite bool_decide_eq_true_2.
  - intros t u _ Hi. unfold ty_AssignableTo. rewrite Hi. by rewrite orb_true_r.
  - intros [b n|t] u; [by destruct b|]. intros _. by destruct t.
Defined.

(** [*T] and the interface [I]. *)
Definition T (n : string) : ty := Ptr (Named false n).
Definition I (n : string) : ty := Named true n.

(** Two iteration orders for the maps. *)
Definition inOrder : Shuffle :=
  {| shuffle := λ A l, l; shuffle_perm := λ A l, reflexivity l |}.

Definition reversed : Shuffle :=
  {| shuffle := @reverse; shuffle_perm := @reverse_Permutation |}.

Definition forwards : Ranges :=
  {| range_typesCtors := inOrder; range_requiredTypes := inOrder;
     range_dependencies := inOrder; range_inDegree := inOrder |}.

Definition backwards : Ranges :=
  {| range_typesCtors := reversed; range_requiredTypes := reversed;
     range_dependencies := reversed; range_inDegree := reversed |}.

(** Constructors in the style of the test suite.  They allocate: the
    outside state is the next free address, and every call returns a new
    pointer.  [new] has one result, the pointer; [newFailing] has two, the
    pointer and the error [msg]. *)
Definition new (n : string) (ins : list ty) (out : string) : any ty nat :=
  AFunc {| fn_name := n; fn_in := ins; fn_out := [T out]; fn_nil := false;
           fn_body := λ _ w, (w, None, S w) |}.

Definition newFailing (n : string) (ins : list ty) (out : string) (msg : string)
    : any ty nat :=
  AFunc {| fn_name := n; fn_in := ins; fn_out := [T out; I "error"]; fn_nil := false;
           fn_body := λ _ w, (w, Some msg, S w) |}.

(** A program that registers the constructors and has made no call yet. *)
Definition start (l : list (any ty nat)) : State ty nat :=
  {| container := provideAll l; world := 100; calls := [] |}.

Definition NewDatabase := new "NewDatabase" [] "Database".
Definition NewUserService := new "NewUserService" [T "Database"] "UserService".
Definition NewHTTPServer := new "NewHTTPServer" [T "UserService"] "HTTPServer".
Definition NewFileStorage := new "NewFileStorage" [] "FileStorage".
Definition NewMemoryStorage := new "NewMemoryStorage" [] "MemoryStorage".
Definition NewDataProcessor := new "NewDataProcessor" [I "Storage"] "DataProcessor".
Definition NewErrorDatabase := newFailing "NewErrorDatabase" [] "Database" "database connection failed".
Definition NewCache := new "NewCache" [] "Cache".

(** Every [Provide] of a list succeeded: all its constructors are in the
    store. *)
Definition allProvided (l : list (any ty nat)) : Prop :=
  length (constructors (provideAll l)) = length l.

(** A numbering of the types, for [acyclic_rank]. *)
Definition rankIn (order : list ty) (t : ty) : nat :=
  from_option fst 0 (list_find (λ x, x = t) order).

(** ** Where the code departs from the specification *)

(** C1.  The cache does not stop a second [Resolve] from calling the
    constructors again.  With [NewDatabase] registered, the first [Resolve]
    builds the instance at address 100; the second one calls the constructor
    a second time and replaces the cached instance with the one at 101. *)
Theorem second_resolve_calls_constructor_again :
  let st0 := start [NewDatabase] in
  let first := Resolve forwards (Some (T "Database")) st0 in
  let second := Resolve forwards (Some (T "Database")) first.1 in
  first.2 = Ok {| val_type := T "Database"; val_ptr := 100 |} ∧
  instances (container first.1) !! T "Database"
  = Some {| val_type := T "Database"; val_ptr := 100 |} ∧
  second.2 = Ok {| val_type := T "Database"; val_ptr := 101 |} ∧
  instances (container second.1) !! T "Database"
  = Some {| val_type := T "Database"; val_ptr := 101 |} ∧
  inv_ctor <$> calls second.1 = [0; 0].
Proof. by vm_compute. Qed.

(** C2.  The interface pass is not idempotent.  With the constructors of the
    interface test registered, the first [Resolve] succeeds and leaves
    [*FileStorage] in the slot that held [Storage]; the slot stays marked,
    so the next pass hands the pointer type to [Implements], which panics:
    the second [Resolve] does not return. *)
Theorem interface_pass_panics_when_repeated :
  let st0 := start [NewFileStorage; NewDataProcessor] in
  let first := Resolve forwards (Some (T "DataProcessor")) st0 in
  first.2 = Ok {| val_type := T "DataProcessor"; val_ptr := 101 |} ∧
  (λ ctor, (args (signature ctor), dependNeedsResolution ctor))
    <$> constructors (container first.1)
  = [([], []); ([T "FileStorage"], [true])] ∧
  (resolveInterfaces (container first.1)).2 = Panic ∧
  (Resolve forwards (Some (T "DataProcessor")) first.1).2 = Panic.
Proof. by vm_compute. Qed.

(** C3.  A constructor whose registration was overwritten still takes part
    in validation and in interface resolution.  [NewServerA] needs a type
    nobody provides and is overwritten by [NewServerB], which needs nothing:
    [Resolve] still fails for the missing input of [NewServerA], where
    [NewServerB] alone resolves.  And a type registered twice is its own
    rival: [NewFileStorage] provided twice makes [Storage] ambiguous, where
    one registration resolves. *)
Theorem overwritten_registration_still_counts :
  let NewServerA := new "NewServerA" [T "Missing"] "Server" in
  let NewServerB := new "NewServerB" [] "Server" in
  (Resolve forwards (Some (T "Server")) (start [NewServerA; NewServerB])).2
  = Err (ErrMissingConstructor (T "Missing")) ∧
  (Resolve forwards (Some (T "Server")) (start [NewServerB])).2
  = Ok {| val_type := T "Server"; val_ptr := 100 |} ∧
  typesCtors (container (start [NewServerA; NewServerB])) !! T "Server" = Some 1 ∧
  (Resolve forwards (Some (T "DataProcessor"))
     (start [NewFileStorage; NewFileStorage; NewDataProcessor])).2
  = Err (ErrInterfaceResolution
           (ErrMultipleImplementations (I "Storage") [T "FileStorage"; T "FileStorage"])) ∧
  (Resolve forwards (Some (T "DataProcessor"))
     (start [NewFileStorage; NewDataProcessor])).2
  = Ok {| val_type := T "DataProcessor"; val_ptr := 101 |}.
Proof. by vm_compute. Qed.

(** C6.  An interface input with exactly one candidate is not substituted
    on a container that was resolved before.  After the interface test has
    passed, [NewReportWriter], which takes [Storage], is registered: its slot
    is marked and holds [Storage], and [*FileStorage] is the one candidate.
    The interface pass meets the slot of [NewDataProcessor] first, still
    marked and holding [*FileStorage] (the defect of C2), and panics:
    [Resolve] does not return, and the slot of [NewReportWriter] still holds
    [Storage].  With the three constructors registered before the first
    [Resolve] the candidate is substituted and [Resolve] succeeds. *)
Theorem interface_input_after_resolve_panics :
  let NewReportWriter := new "NewReportWriter" [I "Storage"] "ReportWriter" in
  let first := Resolve forwards (Some (T "DataProcessor"))
                 (start [NewFileStorage; NewDataProcessor]) in
  let provided := Provide NewReportWriter (container first.1) in
  let second := Resolve forwards (Some (T "ReportWriter")) (setContainer provided.1 first.1) in
  first.2 = Ok {| val_type := T "DataProcessor"; val_ptr := 101 |} ∧
  provided.2 = Ok tt ∧
  (λ ctor, (args (signature ctor), dependNeedsResolution ctor)) <$> constructors provided.1
  = [([], []); ([T "FileStorage"], [true]); ([I "Storage"], [true])] ∧
  candidates (typeRegistry provided.1) (I "Storage") = [T "FileStorage"] ∧
  second.2 = Panic ∧
  (λ ctor, args (signature ctor)) <$> constructors (container second.1)
  = [[]; [T "FileStorage"]; [I "Storage"]] ∧
  (Resolve forwards (Some (T "ReportWriter"))
     (start [NewFileStorage; NewDataProcessor; NewReportWriter])).2
  = Ok {| val_type := T "ReportWriter"; val_ptr := 101 |}.
Proof. by vm_compute. Qed.

(** ** The theorems at the programs of the test suite *)

(** The test "should return error for missing dependencies": only
    [NewServer] is registered, and its three inputs have no constructor. *)
Definition NewServer :=
  new "NewServer" [T "UserService"; T "AuthService"; T "Config"] "Server".

Lemma missing_constructor_reported_witness :
  ∃ missing st',
    Resolve backwards (Some (T "Server")) (start [NewServer])
    = (st', Err (ErrMissingConstructor missing)) ∧
    typesCtors (provideAll [NewServer]) !! missing = None ∧
    (∃ ctor, ctor ∈ constructors (provideAll [NewServer]) ∧
             missing ∈ args (signature ctor)) ∧
    calls st' = calls (start [NewServer]) ∧
    instances (container st') = instances (container (start [NewServer])).
Proof.
  apply (missing_constructor_reported backwards (T "Server") (start [NewServer])
           (provideAll [NewServer])).
  - apply wf_provideAll.
  - reflexivity.
  - eexists _, (T "Config"). split_and!.
    + vm_compute. apply list_elem_of_here.
    + vm_compute. do 2 apply list_elem_of_further. apply list_elem_of_here.
    + reflexivity.
Defined.

(** C5, as stated, fails at the interface test of the repository:
    [NewDataProcessor] declares the input [Storage], no constructor produces
    [Storage] (the registered outputs are pointers to [FileStorage] and to
    [DataProcessor]), and [Resolve] succeeds, with the pointer to
    [FileStorage] in the place of [Storage].  And without [NewFileStorage]
    the same declared input, still without producer, is reported by the
    interface pass, as an interface without implementation. *)
Lemma declared_interface_input_has_no_producer :
  (λ ctor, (fn_in (fn ctor), fn_out (fn ctor)))
    <$> constructors (provideAll [NewFileStorage; NewDataProcessor])
  = [([], [T "FileStorage"]); ([I "Storage"], [T "DataProcessor"])] ∧
  typesCtors (provideAll [NewFileStorage; NewDataProcessor]) !! I "Storage" = None ∧
  (Resolve forwards (Some (T "DataProcessor")) (start [NewFileStorage; NewDataProcessor])).2
  = Ok {| val_type := T "DataProcessor"; val_ptr := 101 |} ∧
  typesCtors (provideAll [NewDataProcessor]) !! I "Storage" = None ∧
  (Resolve forwards (Some (T "DataProcessor")) (start [NewDataProcessor])).2
  = Err (ErrInterfaceResolution (ErrNoImplementation (I "Storage"))).
Proof. by vm_compute. Qed.

(** The test "should detect circular dependencies": A needs C, B needs A,
    C needs B. *)
Definition cyclic : list (any ty nat) :=
  [new "newA" [T "C"] "A"; new "newB" [T "A"] "B"; new "newC" [T "B"] "C"].

Lemma cycle_reported_witness :
  ∃ processed st',
    Resolve forwards (Some (T "A")) (start cyclic)
    = (st', Err (ErrDependencyResolution
                   (ErrCircular processed (size (typesCtors (provideAll cyclic)))))) ∧
    processed < size (typesCtors (provideAll cyclic)) ∧
    calls st' = calls (start cyclic) ∧
    instances (container st') = instances (container (start cyclic)).
Proof.
  apply (cycle_reported forwards (T "A") (start cyclic) (provideAll cyclic)).
  - apply wf_provideAll.
  - reflexivity.
  - apply fullyRegistered_Forall. vm_compute. repeat constructor; by eexists.
  - exists (T "A").
    apply (tc_l _ _ (T "C")); [vm_compute; apply list_elem_of_here|].
    apply (tc_l _ _ (T "B")); [vm_compute; apply list_elem_of_here|].
    apply tc_once. vm_compute. apply list_elem_of_here.
Defined.

(** C4, as stated, fails when the registry with the cycle also holds a
    constructor with an input nobody provides: validation comes before the
    sort, and [Resolve] reports the missing constructor, not the cycle.  With
    a constructor that takes an interface nobody implements, it is the
    interface pass that reports. *)
Lemma cycle_hidden_by_missing_constructor :
  let registry := cyclic ++ [new "newD" [T "Missing"] "D"] in
  let registry' := cyclic ++ [NewDataProcessor] in
  (λ t, inputsOf (provideAll registry) t) <$> [T "A"; T "C"; T "B"]
  = [[T "C"]; [T "B"]; [T "A"]] ∧
  tc (dependsOn (provideAll registry)) (T "A") (T "A") ∧
  (Resolve forwards (Some (T "A")) (start registry)).2
  = Err (ErrMissingConstructor (T "Missing")) ∧
  (Resolve backwards (Some (T "A")) (start registry)).2
  = Err (ErrMissingConstructor (T "Missing")) ∧
  (λ t, inputsOf (provideAll registry') t) <$> [T "A"; T "C"; T "B"]
  = [[T "C"]; [T "B"]; [T "A"]] ∧
  (Resolve forwards (Some (T "A")) (start registry')).2
  = Err (ErrInterfaceResolution (ErrNoImplementation (I "Storage"))).
Proof.
  split_and!; [by vm_compute| |by vm_compute..].
  apply (tc_l _ _ (T "C")); [vm_compute; apply list_elem_of_here|].
  apply (tc_l _ _ (T "B")); [vm_compute; apply list_elem_of_here|].
  apply tc_once. vm_compute. apply list_elem_of_here.
Qed.

(** The test "should resolve interface dependencies", and the same
    registry with a second implementation of [Storage]. *)
Definition withStorage : list (any ty nat) := [NewFileStorage; NewDataProcessor].

Lemma interface_needs_one_implementation_witness :
  ∃ st' r,
    Resolve forwards (Some (T "DataProcessor")) (start withStorage) = (st', r) ∧
    (((∀ e, r ≠ Err (ErrInterfaceResolution e)) ∧
      ∀ k i interfaceType,
        flagged (constructors (container (start withStorage))) k i interfaceType →
        ∃ implementation ctor',
          candidates (typeRegistry (container (start withStorage))) interfaceType
          = [implementation] ∧
          constructors (container st') !! k = Some ctor' ∧
          args (signature ctor') !! i = Some implementation) ∨
     (∃ k i interfaceType,
        flagged (constructors (container (start withStorage))) k i interfaceType ∧
        candidates (typeRegistry (container (start withStorage))) interfaceType = [] ∧
        r = Err (ErrInterfaceResolution (ErrNoImplementation interfaceType))) ∨
     (∃ k i interfaceType,
        flagged (constructors (container (start withStorage))) k i interfaceType ∧
        1 < length (candidates (typeRegistry (container (start withStorage)))
                      interfaceType) ∧
        r = Err (ErrInterfaceResolution
                   (ErrMultipleImplementations interfaceType
                      (candidates (typeRegistry (container (start withStorage)))
                         interfaceType))))).
Proof.
  apply (interface_needs_one_implementation forwards (T "DataProcessor")
           (start withStorage)).
  - apply wf_provideAll.
  - apply unresolved_provideAll.
Defined.

(** The quick start of the README: a chain of three constructors,
    registered consumer first. *)
Definition chain : list (any ty nat) := [NewHTTPServer; NewUserService; NewDatabase].

Lemma dependencies_built_first_witness :
  let st' := (Resolve backwards (Some (T "HTTPServer")) (start chain)).1 in
  let r := (Resolve backwards (Some (T "HTTPServer")) (start chain)).2 in
  (∀ t x, r ≠ Err (ErrFailedToResolve t (ErrDependencyNotResolved x t))) ∧
  ∃ new, calls st' = calls (start chain) ++ new ∧
    ∀ l1 inv l2, new = l1 ++ inv :: l2 →
      ∃ t, invocation_of (container st') t inv ∧
        ∀ x, dependsOn (container st') t x →
          ∃ inv', inv' ∈ l1 ∧ invocation_of (container st') x inv' ∧
                  succeeded (container st') inv'.
Proof.
  apply (dependencies_built_first backwards (T "HTTPServer") (start chain)).
  - apply wf_provideAll.
  - apply surjective_pairing.
Defined.

(** The example [samples/simple]: [App] takes the same [*Server] twice, and
    [Server] takes [*Storage]. *)
Definition fanIn : list (any ty nat) :=
  [new "NewStorage" [] "Storage"; new "NewServer" [T "Storage"] "Server";
   new "NewApp" [T "Server"; T "Server"] "App";
   new "NewOtherServer" [T "Storage"] "OtherServer"].

Lemma each_constructor_once_witness :
  ∃ st' r new,
    Resolve backwards (Some (T "App")) (start fanIn) = (st', r) ∧
    calls st' = calls (start fanIn) ++ new ∧
    NoDup (inv_ctor <$> new) ∧
    (∀ k, k ∈ inv_ctor <$> new → k ∈ (map_to_list (typesCtors (provideAll fanIn))).*2) ∧
    (inv_ctor <$> new ≡ₚ (map_to_list (typesCtors (provideAll fanIn))).*2 ∨
     (∃ t msg, r = Err (ErrFailedToResolve t (ErrConstructor msg))) ∨
     (r = Panic ∧
      ((∃ t, nilFunction (provideAll fanIn) t) ∨
       (∃ inv, inv ∈ new ∧ unreadable (provideAll fanIn) inv)))).
Proof.
  apply (each_constructor_once backwards (T "App") (start fanIn) (provideAll fanIn)).
  - apply wf_provideAll.
  - reflexivity.
  - apply fullyRegistered_Forall. vm_compute. repeat constructor; by eexists.
  - apply (acyclic_rank _ (rankIn [T "Storage"; T "Server"; T "OtherServer"; T "App"])).
    vm_compute. repeat constructor.
Defined.

(** C8, as stated, fails when a constructor returns an error: with
    [NewErrorDatabase] and [NewUserService] registered (no cycle, every
    input provided), [Resolve] calls [NewErrorDatabase] once, returns its
    error, and never calls [NewUserService]. *)
Lemma failing_constructor_leaves_others_uncalled :
  let registry := [NewErrorDatabase; NewUserService] in
  let st' := (Resolve forwards (Some (T "UserService")) (start registry)).1 in
  fullyRegistered (provideAll registry) ∧
  acyclic (provideAll registry) ∧
  typesCtors (provideAll registry) !! T "UserService" = Some 1 ∧
  (Resolve forwards (Some (T "UserService")) (start registry)).2
  = Err (ErrFailedToResolve (T "Database") (ErrConstructor "database connection failed")) ∧
  inv_ctor <$> calls st' = [0] ∧
  (Resolve backwards (Some (T "UserService")) (start registry)).2
  = Err (ErrFailedToResolve (T "Database") (ErrConstructor "database connection failed")) ∧
  inv_ctor <$> calls (Resolve backwards (Some (T "UserService")) (start registry)).1 = [0].
Proof.
  split_and!; [| |by vm_compute..].
  - apply fullyRegistered_Forall. vm_compute. repeat constructor; by eexists.
  - apply (acyclic_rank _ (rankIn [T "Database"; T "UserService"])).
    vm_compute. repeat constructor.
Qed.



Lemma resolve_builds_all_witness :
  let st := start chain in
  let st' := (Resolve forwards (Some (T "Database")) st).1 in
  ∃ new, calls st' = calls st ++ new ∧
    (∀ t, is_Some (typesCtors (container st') !! t) →
          ∃ inv, inv ∈ new ∧ built (container st') st' t inv) ∧
    ¬ (∃ t k ctor,
         typesCtors (container st') !! t = Some k ∧
         constructors (container st') !! k = Some ctor ∧
         ∀ vs w, returnedError (fn ctor) (fn_body (fn ctor) vs w).1.2 ≠ Ok None).
Proof.
  apply (resolve_builds_all forwards (T "Database") (start chain) _
           {| val_type := T "Database"; val_ptr := 100 |}).
  - apply wf_provideAll.
  - refine (eq_trans (surjective_pairing _) (f_equal (pair _) _)).
    by vm_compute.
Defined.

(** ** The further properties at the programs of the test suite *)

(** [NewErrorDatabase] as a function value. *)
Definition errorDatabase : Function ty nat :=
  {| fn_name := "NewErrorDatabase"; fn_in := []; fn_out := [T "Database"; I "error"];
     fn_nil := false;
     fn_body := λ _ w, (w, Some "database connection failed", S w) |}.

(** Registering a second constructor for [*Database]. *)
Lemma Provide_last_wins_witness :
  ∃ ctor,
    ctorOf (Provide (AFunc errorDatabase) (provideAll [NewCache; NewDatabase])).1
           (returnType (signature ctor)) = Some ctor ∧
    fn ctor = errorDatabase ∧ args (signature ctor) = fn_in errorDatabase ∧
    fn_out errorDatabase !! 0 = Some (returnType (signature ctor)) ∧
    dependNeedsResolution ctor
    = (λ arg, bool_decide (Kind arg = reflect.Interface)) <$> fn_in errorDatabase ∧
    (∀ t, t ≠ returnType (signature ctor) →
          ctorOf (Provide (AFunc errorDatabase) (provideAll [NewCache; NewDatabase])).1 t
          = ctorOf (provideAll [NewCache; NewDatabase]) t) ∧
    instances (Provide (AFunc errorDatabase) (provideAll [NewCache; NewDatabase])).1
    = instances (provideAll [NewCache; NewDatabase]).
Proof.
  apply (Provide_last_wins errorDatabase (provideAll [NewCache; NewDatabase])).
  - apply wf_provideAll.
  - refine (eq_trans (surjective_pairing _) (f_equal (pair _) _)). reflexivity.
Defined.

(** The cyclic registry of the test suite ends in one of these ways. *)
Lemma Resolve_outcomes_witness :
  let target := Some (T "A") in
  let r := (Resolve forwards target (start cyclic)).2 in
  (target = None ∧ r = Err ErrTarget) ∨
  (∃ interfaceType,
     r = Err (ErrInterfaceResolution (ErrNoImplementation interfaceType)) ∨
     ∃ implementations,
       r = Err (ErrInterfaceResolution
                  (ErrMultipleImplementations interfaceType implementations))) ∨
  (∃ depType, r = Err (ErrMissingConstructor depType)) ∨
  (∃ processed total, r = Err (ErrDependencyResolution (ErrCircular processed total))) ∨
  (∃ typ msg, r = Err (ErrFailedToResolve typ (ErrConstructor msg))) ∨
  (∃ targetType, target = Some targetType ∧ r = Err (ErrNoInstance targetType)) ∨
  (∃ v, r = Ok v) ∨
  (r = Panic ∧
   ∃ typ ctor, ctorOf (container (start cyclic)) typ = Some ctor ∧ uncallable (fn ctor)).
Proof.
  apply (Resolve_outcomes forwards (Some (T "A")) (start cyclic)
           (Resolve forwards (Some (T "A")) (start cyclic)).1).
  - apply wf_provideAll.
  - apply unresolved_provideAll.
  - apply surjective_pairing.
Defined.

(** The state the interface test leaves behind. *)
Definition afterInterfaceTest : State ty nat :=
  (Resolve forwards (Some (T "DataProcessor")) (start withStorage)).1.

Lemma Resolve_panic_causes_witness :
  ((resolveInterfaces (container afterInterfaceTest)).2 = Panic →
   (Resolve backwards (Some (T "DataProcessor")) afterInterfaceTest).2 = Panic) ∧
  ((Resolve backwards (Some (T "DataProcessor")) afterInterfaceTest).2 = Panic →
   (resolveInterfaces (container afterInterfaceTest)).2 = Panic ∨
   ∃ typ ctor, ctorOf (container afterInterfaceTest) typ = Some ctor ∧ uncallable (fn ctor)).
Proof.
  apply (Resolve_panic_causes backwards (T "DataProcessor") afterInterfaceTest).
  apply wf_Resolve, wf_provideAll.
Defined.

Lemma Resolve_returns_cached_witness :
  let st := start chain in
  let st' := (Resolve forwards (Some (T "HTTPServer")) st).1 in
  let v := {| val_type := T "HTTPServer"; val_ptr := 102 |} in
  instances (container st') !! T "HTTPServer" = Some v ∧
  val_type v = T "HTTPServer" ∧
  (is_Some (typesCtors (container st) !! T "HTTPServer") →
   ∃ new inv, calls st' = calls st ++ new ∧ inv ∈ new ∧
     invocation_of (container st') (T "HTTPServer") inv ∧ val_ptr v = inv_ptr inv) ∧
  (typesCtors (container st) !! T "HTTPServer" = None →
   instances (container st) !! T "HTTPServer" = Some v).
Proof.
  apply (Resolve_returns_cached forwards (T "HTTPServer") (start chain)).
  - apply wf_provideAll.
  - refine (eq_trans (surjective_pairing _) (f_equal (pair _) _)).
    by vm_compute.
Defined.

Lemma unregistered_target_fails_last_witness :
  let st := start chain in
  let st' := (Resolve forwards (Some (T "Config")) st).1 in
  let r := (Resolve forwards (Some (T "Config")) st).2 in
  (∀ v, r ≠ Ok v) ∧
  (r = Err (ErrNoInstance (T "Config")) →
   ∃ new, calls st' = calls st ++ new ∧
     ∀ t, is_Some (typesCtors (container st) !! t) →
          ∃ inv, inv ∈ new ∧ built (container st') st' t inv).
Proof.
  apply (unregistered_target_fails_last forwards (T "Config") (start chain)).
  - apply wf_provideAll.
  - apply surjective_pairing.
  - reflexivity.
  - reflexivity.
Defined.

Lemma resolveInterfaces_without_interfaces_witness :
  resolveInterfaces (provideAll chain) = (provideAll chain, Ok tt).
Proof.
  apply (resolveInterfaces_without_interfaces (provideAll chain)).
  vm_compute. repeat constructor.
Defined.

Lemma second_Resolve_panics_witness :
  (Resolve backwards (Some (T "FileStorage")) afterInterfaceTest).2 = Panic.
Proof.
  apply (second_Resolve_panics forwards backwards (T "DataProcessor") (T "FileStorage")
           (start withStorage) afterInterfaceTest
           (Resolve forwards (Some (T "DataProcessor")) (start withStorage)).2).
  - apply wf_provideAll.
  - apply unresolved_provideAll.
  - eexists 1, 0, (I "Storage"), _. split_and!; reflexivity.
  - apply surjective_pairing.
  - intros e. by vm_compute.
Defined.

Lemma rebuildGraph_spec_witness :
  ∃ g, rebuildGraph backwards (provideAll fanIn) = (setGraph (provideAll fanIn) g, Ok tt) ∧
    (∀ t, dependencies g !! t
          = (λ ctor, args (signature ctor)) <$> ctorOf (provideAll fanIn) t) ∧
    (∀ x t, occurrences t (dependentsOf g x) = occurrences x (inputsOf (provideAll fanIn) t)).
Proof. apply (rebuildGraph_spec backwards (provideAll fanIn)), wf_provideAll. Defined.

(** The registry of [samples/simple] with its graph rebuilt. *)
Definition fanInGraph : Container ty nat := (rebuildGraph forwards (provideAll fanIn)).1.

Lemma topologicalSort_order_independent_witness :
  match (topologicalSort forwards fanInGraph).2, (topologicalSort backwards fanInGraph).2 with
  | Ok sortedTypes, Ok sortedTypes' => sortedTypes ≡ₚ sortedTypes'
  | Err e, Err e' => e = e'
  | _, _ => False
  end.
Proof.
  apply (topologicalSort_order_independent forwards backwards fanInGraph).
  apply (rebuildGraph_Ok forwards (provideAll fanIn) fanInGraph).
  refine (eq_trans (surjective_pairing _) (f_equal (pair _) _)).
  apply rebuildGraph_no_Panic, wf_provideAll.
Defined.

(** A constructor whose second result is the struct [ValidationError], not
    the interface [error]: [NewValidated] returns a pointer to [Validated]
    and a [ValidationError]. *)
Definition newValidated : Function ty nat :=
  {| fn_name := "NewValidated"; fn_in := [];
     fn_out := [T "Validated"; Named false "ValidationError"];
     fn_nil := false;
     fn_body := λ _ w, (w, None, S w) |}.

Lemma returnedError_accepted_witness :
  returnedError errorDatabase (Some "database connection failed")
  = Ok (Some "database connection failed") ∧
  returnedError newValidated None = Panic.
Proof.
  split.
  - exact (returnedError_accepted errorDatabase {| args := []; returnType := T "Database" |}
             (Some "database connection failed") eq_refl).
  - exact (returnedError_accepted newValidated {| args := []; returnType := T "Validated" |}
             None eq_refl).
Defined.

(** X25.  [Provide] accepts function values that [Resolve] cannot call and
    read.  A nil function of an accepted type: [reflect.Value.Call] panics,
    and no call is made.  A constructor whose second result is a struct that
    implements [error]: the constructor is called, [IsNil] panics on its
    second result, and no instance is stored. *)
Theorem accepted_constructor_panics :
  let nilDatabase : Function ty nat :=
    {| fn_name := "NewDatabase"; fn_in := []; fn_out := [T "Database"]; fn_nil := true;
       fn_body := λ _ w, (w, None, S w) |} in
  let first := Resolve forwards (Some (T "Database")) (start [AFunc nilDatabase]) in
  let second := Resolve forwards (Some (T "Validated")) (start [AFunc newValidated]) in
  (Provide (AFunc nilDatabase) NewContainer).2 = Ok tt ∧
  first.2 = Panic ∧
  calls first.1 = [] ∧
  (Provide (AFunc newValidated) NewContainer).2 = Ok tt ∧
  second.2 = Panic ∧
  inv_ctor <$> calls second.1 = [0] ∧
  instances (container second.1) !! T "Validated" = None.
Proof. by vm_compute. Qed.

(** [NewErrorDatabase] overwritten by [NewDatabase]: only the latter runs. *)
Lemma overwritten_never_called_witness :
  let st := start [NewErrorDatabase; NewDatabase] in
  let inv : Invocation ty :=
    {| inv_ctor := 1; inv_args := []; inv_ptr := 100; inv_err := None |} in
  ∃ t, returnTypes (constructors (container st)) !! inv_ctor inv = Some t ∧
       ∀ k', inv_ctor inv < k' →
             returnTypes (constructors (container st)) !! k' ≠ Some t.
Proof.
  apply (overwritten_never_called forwards (T "Database")
           (start [NewErrorDatabase; NewDatabase])
           (Resolve forwards (Some (T "Database")) (start [NewErrorDatabase; NewDatabase])).1
           (Resolve forwards (Some (T "Database")) (start [NewErrorDatabase; NewDatabase])).2
           [{| inv_ctor := 1; inv_args := []; inv_ptr := 100; inv_err := None |}]).
  - apply wf_provideAll.
  - apply last_registered_provideAll.
  - apply surjective_pairing.
  - by vm_compute.
  - apply list_elem_of_here.
Defined.
